(** * watchr: the trade orchestration engine, embedded and verified

    The development follows the TypeScript sources file by file:
    [Signals] is signals.ts (the Position Store), [PriceCheck] is
    pricecheck.ts (the Price Monitor), [Index] is the de-duplication cache
    of index.ts, and [TraderBot] is trader.ts (quotes, swaps and the
    route-resolution ladders).  [Qualifier] is qualifier.ts, [Webhook] is
    the webhook handler of index.ts, [Jobs] is jobs.ts (the subscription
    job), and [Commands] is the update of settings.ts with the stop-loss
    command of index.ts.

    Conventions.
    - A JavaScript [number] that carries a price, an amount or a fraction is
      a rational ([Qc]).  Where the code branches on the result of an
      arithmetic expression or turns it into an integer (the profit and
      loss of the monitor, the lamports of a budget), the rounding of the
      arithmetic is a collaborator [fl] of the environment, and what is
      proved holds for every rounding; [Samples.binary64] is the rounding
      of IEEE doubles.  Where the code only stores the result (the amount
      and the entry price of a signal), the statements name it by the
      expression of the source, whose operations the model reads exactly.
      [NaN] and the infinities appear where the code meets them: the
      number parsed by the [/set] command.  Millisecond timestamps,
      counters, basis points and base-unit amounts are integers ([Z]).
    - [T | undefined] and [T | null] are [option T].
    - signals.json is the list of signals it holds; an operation of the
      store takes the file content and returns its result together with the
      new content.  [Date.now()] is an explicit argument.
    - Awaited collaborators (quote service, swap service, balance lookup,
      Telegram) are oracles; an exception is the message it carries.  No
      call of [sendTelegram] has a [catch] of its own: a rejected message
      ends the monitor cycle, the webhook handler or the [try] block it is
      sent from. *)

From Stdlib Require Import QArith Qcanon Qround ZArith Lia String Ascii.
From stdpp Require Import base tactics option numbers list strings gmap.

Local Open Scope string_scope.
Local Open Scope Z_scope.
Local Open Scope list_scope.

(** * signals.ts *)
Module Signals.

Inductive Status : Set := open | closed.

Inductive Source : Set := birdeye | onchain.

#[global] Instance Status_eq_dec : EqDecision Status.
Proof. solve_decision. Defined.

#[global] Instance Source_eq_dec : EqDecision Source.
Proof. solve_decision. Defined.

(** The bot's own execution trail ([Signal.trader]). *)
Record Trader : Type := mkTrader {
  buySigs : option (list string);
  sellSigs : option (list string);
  solSpent : option Qc;
}.

#[global] Instance Trader_eq_dec : EqDecision Trader.
Proof. solve_decision. Defined.

Record Signal : Type := mkSignal {
  ts : Z;
  wallet : string;
  mint : string;
  amount : Qc;
  entryPriceUsd : option Qc;
  symbol : option string;
  status : Status;
  stopLossPct : Qc;
  source : option Source;
  updatedTs : option Z;
  occurrences : option Z;
  closedTs : option Z;
  closeReason : option string;
  trader : option Trader;
  exitPriceUsd : option Qc;
  exitPnlPct : option Qc;
}.

(** Field assignments [s.f = v]. *)
Definition set_amount (v : Qc) (s : Signal) : Signal :=
  mkSignal (ts s) (wallet s) (mint s) v (entryPriceUsd s) (symbol s) (status s)
    (stopLossPct s) (source s) (updatedTs s) (occurrences s) (closedTs s)
    (closeReason s) (trader s) (exitPriceUsd s) (exitPnlPct s).

Definition set_entryPriceUsd (v : option Qc) (s : Signal) : Signal :=
  mkSignal (ts s) (wallet s) (mint s) (amount s) v (symbol s) (status s)
    (stopLossPct s) (source s) (updatedTs s) (occurrences s) (closedTs s)
    (closeReason s) (trader s) (exitPriceUsd s) (exitPnlPct s).

Definition set_symbol (v : option string) (s : Signal) : Signal :=
  mkSignal (ts s) (wallet s) (mint s) (amount s) (entryPriceUsd s) v (status s)
    (stopLossPct s) (source s) (updatedTs s) (occurrences s) (closedTs s)
    (closeReason s) (trader s) (exitPriceUsd s) (exitPnlPct s).

Definition set_status (v : Status) (s : Signal) : Signal :=
  mkSignal (ts s) (wallet s) (mint s) (amount s) (entryPriceUsd s) (symbol s) v
    (stopLossPct s) (source s) (updatedTs s) (occurrences s) (closedTs s)
    (closeReason s) (trader s) (exitPriceUsd s) (exitPnlPct s).

Definition set_stopLossPct (v : Qc) (s : Signal) : Signal :=
  mkSignal (ts s) (wallet s) (mint s) (amount s) (entryPriceUsd s) (symbol s)
    (status s) v (source s) (updatedTs s) (occurrences s) (closedTs s)
    (closeReason s) (trader s) (exitPriceUsd s) (exitPnlPct s).

Definition set_source (v : option Source) (s : Signal) : Signal :=
  mkSignal (ts s) (wallet s) (mint s) (amount s) (entryPriceUsd s) (symbol s)
    (status s) (stopLossPct s) v (updatedTs s) (occurrences s) (closedTs s)
    (closeReason s) (trader s) (exitPriceUsd s) (exitPnlPct s).

Definition set_updatedTs (v : option Z) (s : Signal) : Signal :=
  mkSignal (ts s) (wallet s) (mint s) (amount s) (entryPriceUsd s) (symbol s)
    (status s) (stopLossPct s) (source s) v (occurrences s) (closedTs s)
    (closeReason s) (trader s) (exitPriceUsd s) (exitPnlPct s).

Definition set_occurrences (v : option Z) (s : Signal) : Signal :=
  mkSignal (ts s) (wallet s) (mint s) (amount s) (entryPriceUsd s) (symbol s)
    (status s) (stopLossPct s) (source s) (updatedTs s) v (closedTs s)
    (closeReason s) (trader s) (exitPriceUsd s) (exitPnlPct s).

Definition set_closedTs (v : option Z) (s : Signal) : Signal :=
  mkSignal (ts s) (wallet s) (mint s) (amount s) (entryPriceUsd s) (symbol s)
    (status s) (stopLossPct s) (source s) (updatedTs s) (occurrences s) v
    (closeReason s) (trader s) (exitPriceUsd s) (exitPnlPct s).

Definition set_closeReason (v : option string) (s : Signal) : Signal :=
  mkSignal (ts s) (wallet s) (mint s) (amount s) (entryPriceUsd s) (symbol s)
    (status s) (stopLossPct s) (source s) (updatedTs s) (occurrences s)
    (closedTs s) v (trader s) (exitPriceUsd s) (exitPnlPct s).

Definition set_trader (v : option Trader) (s : Signal) : Signal :=
  mkSignal (ts s) (wallet s) (mint s) (amount s) (entryPriceUsd s) (symbol s)
    (status s) (stopLossPct s) (source s) (updatedTs s) (occurrences s)
    (closedTs s) (closeReason s) v (exitPriceUsd s) (exitPnlPct s).

Definition set_exitPriceUsd (v : option Qc) (s : Signal) : Signal :=
  mkSignal (ts s) (wallet s) (mint s) (amount s) (entryPriceUsd s) (symbol s)
    (status s) (stopLossPct s) (source s) (updatedTs s) (occurrences s)
    (closedTs s) (closeReason s) (trader s) v (exitPnlPct s).

Definition set_exitPnlPct (v : option Qc) (s : Signal) : Signal :=
  mkSignal (ts s) (wallet s) (mint s) (amount s) (entryPriceUsd s) (symbol s)
    (status s) (stopLossPct s) (source s) (updatedTs s) (occurrences s)
    (closedTs s) (closeReason s) (trader s) (exitPriceUsd s) v.

Definition MERGE_WINDOW_MS : Z := 60 * 1000.

(** Truthiness of an optional price: [undefined], [null] and [0] are falsy. *)
Definition priced (p : option Qc) : bool :=
  match p with
  | Some x => negb (bool_decide (x = 0%Qc))
  | None => false
  end.

(** Truthiness of an optional string: the empty string is falsy. *)
Definition nonEmpty (x : option string) : bool :=
  match x with
  | Some v => negb (String.eqb v "")
  | None => false
  end.

(** [s.status === "open" && s.wallet === wallet && s.mint === mint] *)
Definition openFor (w m : string) (s : Signal) : Prop :=
  status s = open ∧ wallet s = w ∧ mint s = m.

#[global] Instance openFor_dec w m s : Decision (openFor w m s).
Proof. unfold openFor. apply _. Defined.

(** [hasOpenSignalForMint]: an open signal for this mint, under any wallet. *)
Definition hasOpenSignalForMint (m : string) (file : list Signal) : bool :=
  existsb (fun s => bool_decide (status s = open ∧ mint s = m)) file.

(** [mergeVWAP], branch by branch. *)
Definition mergeVWAP (prevAmount : Qc) (prevPrice : option Qc)
    (addAmount : Qc) (addPrice : option Qc) : option Qc :=
  if negb (priced prevPrice) && negb (priced addPrice) then None
  else if negb (priced prevPrice) && priced addPrice then addPrice
  else if priced prevPrice && negb (priced addPrice) then prevPrice
  else
    let total := (prevAmount + addAmount)%Qc in
    if bool_decide (total <= 0)%Qc then prevPrice
    else Some ((default 0%Qc prevPrice * prevAmount
                + default 0%Qc addPrice * addAmount) / total)%Qc.

(** The argument object of [upsertBuy]. *)
Record BuyParams : Type := mkBuy {
  p_wallet : string;
  p_mint : string;
  p_amount : Qc;
  p_stopLossPct : Qc;
  p_source : option Source;
  p_priceUsd : option Qc;
  p_symbol : option string;
}.

(** The merge branch of [upsertBuy], assignment by assignment. *)
Definition mergeInto (now : Z) (p : BuyParams) (s : Signal) : Signal :=
  let s1 := set_entryPriceUsd
              (mergeVWAP (amount s) (entryPriceUsd s) (p_amount p) (p_priceUsd p)) s in
  let s2 := set_amount (amount s1 + p_amount p)%Qc s1 in
  let s3 := set_updatedTs (Some now) s2 in
  let s4 := set_occurrences (Some (default 1 (occurrences s3) + 1)) s3 in
  let s5 := if nonEmpty (p_symbol p) && negb (nonEmpty (symbol s4))
            then set_symbol (p_symbol p) s4 else s4 in
  if bool_decide (is_Some (p_source p)) && negb (bool_decide (is_Some (source s5)))
  then set_source (p_source p) s5 else s5.

(** The signal [upsertBuy] creates when it does not merge. *)
Definition newSig (now : Z) (p : BuyParams) : Signal :=
  {| ts := now; wallet := p_wallet p; mint := p_mint p; amount := p_amount p;
     entryPriceUsd := p_priceUsd p; symbol := p_symbol p; status := open;
     stopLossPct := p_stopLossPct p; source := p_source p;
     updatedTs := Some now; occurrences := Some 1;
     closedTs := None; closeReason := None; trader := None;
     exitPriceUsd := None; exitPnlPct := None |}.

(** [upsertBuy]: the returned signal and the saved list. *)
Definition upsertBuy (now : Z) (p : BuyParams) (file : list Signal)
    : Signal * list Signal :=
  let pushed := (newSig now p, file ++ [newSig now p]) in
  match list_find (openFor (p_wallet p) (p_mint p)) file with
  | Some (idx, s) =>
      let last := default (ts s) (updatedTs s) in
      if bool_decide (now - last <= MERGE_WINDOW_MS)
      then (mergeInto now p s, <[idx := mergeInto now p s]> file)
      else pushed
  | None => pushed
  end.

(** [attachTraderBuy]: the signal is looked up by [ts], [wallet], [mint]
    and [status]. *)
Definition sameBuyTarget (sig x : Signal) : Prop :=
  ts x = ts sig ∧ wallet x = wallet sig ∧ mint x = mint sig ∧ status x = status sig.

#[global] Instance sameBuyTarget_dec sig x : Decision (sameBuyTarget sig x).
Proof. unfold sameBuyTarget. apply _. Defined.

Definition emptyTrader : Trader := mkTrader None None None.

Definition attachTraderBuy (sig : Signal) (jupSig : string)
    (spent : option Qc) (file : list Signal) : list Signal :=
  match list_find (sameBuyTarget sig) file with
  | Some (i, x) =>
      let t := default emptyTrader (trader x) in
      let t1 := mkTrader (Some (default [] (buySigs t) ++ [jupSig]))
                  (sellSigs t) (solSpent t) in
      let t2 := match spent with
                | Some v => mkTrader (buySigs t1) (sellSigs t1)
                              (Some (default 0%Qc (solSpent t1) + v)%Qc)
                | None => t1
                end in
      <[i := set_trader (Some t2) x]> file
  | None => file
  end.

(** [attachTraderSell]: looked up by [ts], [wallet] and [mint] only. *)
Definition sameSellTarget (sig x : Signal) : Prop :=
  ts x = ts sig ∧ wallet x = wallet sig ∧ mint x = mint sig.

#[global] Instance sameSellTarget_dec sig x : Decision (sameSellTarget sig x).
Proof. unfold sameSellTarget. apply _. Defined.

Definition attachTraderSell (sig : Signal) (jupSig : string)
    (file : list Signal) : list Signal :=
  match list_find (sameSellTarget sig) file with
  | Some (i, x) =>
      let t := default emptyTrader (trader x) in
      let t1 := mkTrader (buySigs t)
                  (Some (default [] (sellSigs t) ++ [jupSig])) (solSpent t) in
      <[i := set_trader (Some t1) x]> file
  | None => file
  end.

(** The loop shared by the three bulk mutators:
    [for (const s of list) if (cond(s)) { body(s); count++ }].
    [body] receives the value of the counter, which numbers the
    [Date.now()] readings of the loop. *)
Fixpoint forEachWhere (cond : Signal → bool) (body : nat → Signal → Signal)
    (l : list Signal) (count : nat) : list Signal * nat :=
  match l with
  | [] => ([], count)
  | s :: rest =>
      if cond s then
        let r := forEachWhere cond body rest (S count) in
        (body count s :: r.1, r.2)
      else
        let r := forEachWhere cond body rest count in
        (s :: r.1, r.2)
  end.

(** The list is written back only when something changed. *)
Definition saveIfChanged (file : list Signal) (r : list Signal * nat)
    : nat * list Signal :=
  (r.2, if bool_decide (0 < r.2)%nat then r.1 else file).

Definition closeBody (clock : nat → Z) (reason : string) (k : nat) (s : Signal)
    : Signal :=
  set_closeReason (Some reason)
    (set_closedTs (Some (clock k)) (set_status closed s)).

(** [closeByWalletAndMint]; [clock k] is the k-th [Date.now()] of the call. *)
Definition closeByWalletAndMint (clock : nat → Z) (w m : string)
    (reason : option string) (file : list Signal) : nat * list Signal :=
  let reason := default "sold_by_wallet" reason in
  saveIfChanged file
    (forEachWhere (fun s => bool_decide (openFor w m s))
       (closeBody clock reason) file 0).

Definition exitBody (clock : nat → Z) (exitPrice : Qc) (reason : string)
    (k : nat) (s : Signal) : Signal :=
  let s1 := set_exitPriceUsd (Some exitPrice) (closeBody clock reason k s) in
  match entryPriceUsd s1 with
  | Some e =>
      if bool_decide (0 < e)%Qc
      then set_exitPnlPct (Some ((exitPrice - e) / e)%Qc) s1
      else s1
  | None => s1
  end.

(** [closeByWalletMintWithExit]. *)
Definition closeByWalletMintWithExit (clock : nat → Z) (w m : string)
    (exitPrice : Qc) (reason : string) (file : list Signal)
    : nat * list Signal :=
  saveIfChanged file
    (forEachWhere (fun s => bool_decide (openFor w m s))
       (exitBody clock exitPrice reason) file 0).

(** [updateOpenSignalsStopLoss], for a finite [newPct].  (Its one caller,
    the [/set] command, can also pass [-Infinity]: [Commands.setStopLoss]
    keeps that call apart.) *)
Definition updateOpenSignalsStopLoss (newPct : Qc) (file : list Signal)
    : nat * list Signal :=
  saveIfChanged file
    (forEachWhere
       (fun s => bool_decide (status s = open) && negb (bool_decide (stopLossPct s = newPct)))
       (fun _ s => set_stopLossPct newPct s) file 0).

End Signals.

(** * settings.ts *)
Module Settings.

Record Settings : Type := mkSettings {
  stopLossPctDefault : Qc;
  takeProfitPct : option Qc;   (* NaN, null and undefined: disabled *)
  pricecheckIntervalMs : Z;
}.

End Settings.

(** * pricecheck.ts *)
Module PriceCheck.
Import Signals Settings.

(** What a cycle does besides rewriting signals.json, in order:
    [tryAutoSell] was called for a mint, [closeByWalletMintWithExit] was
    called and closed so many signals, a notification was sent. *)
Inductive Effect : Type :=
| AutoSell (m : string)
| CloseWithExit (w m : string) (exitPrice : Qc) (reason : string) (closed : nat)
| Notify (reason : string) (traded : bool) (w m : string).

(** signals.json, the number of [Date.now()] readings taken so far, and the
    effects so far. *)
Record World : Type := mkWorld {
  file : list Signal;
  reads : nat;
  log : list Effect;
}.

(** The collaborators of a cycle: the price lookup (one answer per mint and
    cycle, [None] for a failed lookup), the clock, the [AUTO_TRADE] switch,
    whether an attempted auto-sell of a mint goes through, the arithmetic
    of the machine ([fl x] is the double that the real [x] is rounded to),
    and Telegram: whether the notification that is sent as effect number
    [n] of the log is delivered, or [sendTelegram] rejects. *)
Record Env : Type := mkEnv {
  getPrice : string → option Qc;
  clock : nat → Z;
  AUTO_TRADE : bool;
  sells : string → bool;
  fl : Qc → Qc;
  sendTelegram : nat → bool;
}.

(** [s.status === "open" && typeof s.entryPriceUsd === "number" && s.entryPriceUsd > 0] *)
Definition watched (s : Signal) : bool :=
  bool_decide (status s = open)
  && match entryPriceUsd s with
     | Some e => bool_decide (0 < e)%Qc
     | None => false
     end.

(** [(current - entry) / entry]: a subtraction and a division on doubles. *)
Definition pnlPct (env : Env) (current entry : Qc) : Qc :=
  fl env (fl env (current - entry) / entry)%Qc.

(** [tryAutoSell]: errors are swallowed, the result says whether a sale
    went through. *)
Definition tryAutoSell (env : Env) (s : Signal) : bool :=
  if negb (AUTO_TRADE env) then false else sells env (mint s).

(** The body shared by the two exits: auto-sell, close with the exit price,
    notify when something was closed.  The result says whether the loop
    goes on: [await sendTelegram(...)] has no [catch] of its own, so a
    rejected notification leaves the loop for the [catch] of the cycle. *)
Definition closeAndReport (env : Env) (s : Signal) (current : Qc)
    (reason : string) (w : World) : World * bool :=
  let traded := tryAutoSell env s in
  let r := closeByWalletMintWithExit (λ k, clock env (reads w + k)%nat)
             (wallet s) (mint s) current reason (file w) in
  ({| file := r.2;
      reads := (reads w + r.1)%nat;
      log := log w ++ [AutoSell (mint s);
                       CloseWithExit (wallet s) (mint s) current reason r.1]
                   ++ (if bool_decide (0 < r.1)%nat
                       then [Notify reason traded (wallet s) (mint s)] else []) |},
   if bool_decide (0 < r.1)%nat then sendTelegram env (length (log w) + 2) else true).

(** One turn of the loop over the open signals. *)
Definition evaluate (env : Env) (settings : Settings) (s : Signal) (w : World)
    : World * bool :=
  match getPrice env (mint s) with
  | Some current =>
      if bool_decide (current ≤ 0)%Qc then (w, true)
      else
        let entry := default 0%Qc (entryPriceUsd s) in
        if bool_decide (pnlPct env current entry ≤ stopLossPct s)%Qc
        then closeAndReport env s current "stop_loss" w
        else
          match takeProfitPct settings with
          | Some tp =>
              if bool_decide (tp ≤ pnlPct env current entry)%Qc
              then closeAndReport env s current "take_profit" w
              else (w, true)
          | None => (w, true)
          end
  | None => (w, true)
  end.

(** The loop over the open signals, inside the [try] of the cycle: it ends
    with the first turn that throws. *)
Fixpoint evaluateAll (env : Env) (settings : Settings) (snapshot : list Signal)
    (w : World) : World :=
  match snapshot with
  | [] => w
  | s :: rest =>
      if (evaluate env settings s w).2
      then evaluateAll env settings rest (evaluate env settings s w).1
      else (evaluate env settings s w).1
  end.

(** One cycle: the open signals are read once, then evaluated in order;
    what a turn throws is caught, and ends the cycle. *)
Definition tick (env : Env) (settings : Settings) (w : World) : World :=
  evaluateAll env settings (List.filter watched (file w)) w.

(** The delay before the next cycle. *)
Definition nextDelay (settings : Settings) : Z :=
  Z.max 3000 (if bool_decide (pricecheckIntervalMs settings = 0) then 15000
              else pricecheckIntervalMs settings).

End PriceCheck.

(** * index.ts: the in-memory idempotency guards *)
Module Index.

Definition SEEN_TTL_MS : Z := 5 * 60000.

Definition BUY_LOCK_MS : Z := 60000.

(** [seenEventKeys] maps an event key to the time it was first seen;
    [buyLocks] maps a mint to the time its lock expires. *)
Record Guards : Type := mkGuards {
  seenEventKeys : gmap string Z;
  buyLocks : gmap string Z;
}.

Definition noGuards : Guards := mkGuards ∅ ∅.

(** [cleanMapsNow], run by a timer every 60 seconds. *)
Definition cleanMapsNow (now : Z) (g : Guards) : Guards :=
  {| seenEventKeys := filter (λ kt, ¬ (now - kt.2 > SEEN_TTL_MS)) (seenEventKeys g);
     buyLocks := filter (λ mt, ¬ (now > mt.2)) (buyLocks g) |}.

(** The key of an event: the signature when there is one, else a key made
    of the actor and the amount (already rounded and printed). *)
Definition eventKey (signature : option string) (actor mint side amt : string)
    : string :=
  match signature with
  | Some sig =>
      if String.eqb sig "" then actor +:+ ":" +:+ mint +:+ ":" +:+ side +:+ ":" +:+ amt
      else sig +:+ ":" +:+ mint +:+ ":" +:+ side
  | None => actor +:+ ":" +:+ mint +:+ ":" +:+ side +:+ ":" +:+ amt
  end.

(** The per-event de-dupe of the webhook handler:
    [if (seenEventKeys.has(key)) continue; seenEventKeys.set(key, Date.now())].
    The result says whether the event goes on to be processed. *)
Definition firstSeen (now : Z) (key : string) (g : Guards) : bool * Guards :=
  if bool_decide (is_Some (seenEventKeys g !! key)) then (false, g)
  else (true, {| seenEventKeys := <[key := now]> (seenEventKeys g);
                 buyLocks := buyLocks g |}).

End Index.

(** * trader.ts *)
Module TraderBot.

(** ** Matching error messages *)

Definition lowerAscii (c : ascii) : ascii :=
  let n := nat_of_ascii c in
  if (65 <=? n)%nat && (n <=? 90)%nat then ascii_of_nat (n + 32) else c.

Fixpoint lowercase (s : string) : string :=
  match s with
  | EmptyString => EmptyString
  | String c rest => String (lowerAscii c) (lowercase rest)
  end.

Fixpoint startsWith (p s : string) : bool :=
  match p, s with
  | EmptyString, _ => true
  | String a p', String b s' => Ascii.eqb a b && startsWith p' s'
  | String _ _, EmptyString => false
  end.

(** [s.includes(p)] *)
Fixpoint includes (p s : string) : bool :=
  startsWith p s
  || match s with
     | EmptyString => false
     | String _ rest => includes p rest
     end.

Definition isDigit (c : ascii) : bool :=
  let n := nat_of_ascii c in (48 <=? n)%nat && (n <=? 57)%nat.

(** [/5\d\d/.test(s)] *)
Fixpoint has5xx (s : string) : bool :=
  match s with
  | EmptyString => false
  | String a rest =>
      (Ascii.eqb a "5"
       && match rest with
          | String b (String c _) => isDigit b && isDigit c
          | _ => false
          end)
      || has5xx rest
  end.

(** [/noviableroute/i.test(msg)] *)
Definition noViableRoute (msg : string) : bool :=
  includes "noviableroute" (lowercase msg).

(** The test of the buy loop for a failure worth another attempt. *)
Definition retryable (msg : string) : bool :=
  noViableRoute msg
  || includes "429" msg
  || has5xx msg
  || existsb (λ p, includes p (lowercase msg))
       ["deadline"; "timeout"; "fetch failed"; "eai_again"; "econnreset"; "etimedout"].

(** ** Configuration, requests and replies *)

(** The constants of config.ts that trader.ts reads.  [JUP_PROBE_SOL] is
    imported by trader.ts but the config.ts at hand does not export it: it
    is a parameter here, [None] standing for a value that is not finite. *)
Record Config : Type := mkConfig {
  AUTO_TRADE : bool;
  JUP_SLIPPAGE_BPS : Z;
  MAX_SLIPPAGE_BPS : Z;
  JUP_PROBE_SOL : option Qc;
}.

Definition SOL_MINT : string := "So11111111111111111111111111111111111111112".

Definition USDC_MINT : string := "EPjFWdd5AufqSSqeM2qN1xzybapC8G4wEGGkZwyTDt1v".

Record JupQuote : Type := mkQuote {
  inputMint : string;
  outputMint : string;
  inAmount : Z;
  outAmount : Z;
  otherAmountThreshold : Z;
  slippageBps : Z;
  priceImpactPct : Qc;
  routePlan : list string;
}.

(** The parameters of [getQuote]. *)
Record QuoteRequest : Type := mkRequest {
  q_inputMint : string;
  q_outputMint : string;
  q_amount : Z;
  q_slippageBps : Z;
  q_onlyDirectRoutes : option bool;
  q_maxAccounts : option Z;
}.

(** What the quote endpoint can answer: the fetch fails, the status is not
    ok, the body is not JSON, or a payload arrives ([failed] when it
    carries an error or the message "No route found"). *)
Inductive QuoteReply : Type :=
| QuoteFetchFails (msg : string)
| QuoteNotOk
| QuoteNotJson
| QuotePayload (failed : bool) (payload : JupQuote).

(** What a swap can come to: an http error, a body without transaction, a
    failure while signing, sending or confirming, or a confirmed
    signature. *)
Inductive SwapReply : Type :=
| SwapHttpError (status text : string)
| SwapNoTransaction
| SwapChainError (msg : string)
| SwapConfirmed (sig : string).

(** What the balance lookup of the RPC node can come to: the call fails,
    or an amount arrives (0 when the account or its amount is missing). *)
Inductive BalanceReply : Type :=
| BalanceFails (msg : string)
| Balance (amountRaw : Z).

(** The calls that leave the process, in order, with their answers. *)
Inductive Event : Type :=
| EvQuote (req : QuoteRequest) (reply : QuoteReply)
| EvSwap (quote : JupQuote) (reply : SwapReply)
| EvBalance (m : string) (reply : BalanceReply)
| EvSleep (ms : Z).

(** The outside world: the answer to a call depends on the call and on how
    many events came before it.  [fl] is the arithmetic of the machine: the
    double that a real result is rounded to. *)
Record Env : Type := mkEnv {
  quoteNet : nat → QuoteRequest → QuoteReply;
  swapNet : nat → JupQuote → SwapReply;
  balanceNet : nat → string → BalanceReply;
  fl : Qc → Qc;
}.

(** The state of the module: the trace so far and the mints under a buy
    lock (the timer that drops a lock after its duration is not modelled). *)
Record World : Type := mkWorld {
  trace : list Event;
  buyLocks : gset string;
}.

(** ** Computations that may throw *)

Inductive Result (A : Type) : Type :=
| Ok (a : A)
| Throw (msg : string).

Arguments Ok {A} a.
Arguments Throw {A} msg.

Definition M (A : Type) : Type := World → Result A * World.

#[global] Instance M_ret : MRet M := λ A a w, (Ok a, w).

#[global] Instance M_bind : MBind M := λ A B f m w,
  match m w with
  | (Ok a, w') => f a w'
  | (Throw msg, w') => (Throw msg, w')
  end.

Definition throw {A} (msg : string) : M A := λ w, (Throw msg, w).

(** [try { m } catch (e) { handler(e.message) }] *)
Definition tryCatch {A} (m : M A) (handler : string → M A) : M A := λ w,
  match m w with
  | (Ok a, w') => (Ok a, w')
  | (Throw msg, w') => handler msg w'
  end.

(** [try { m } finally { cleanup }] *)
Definition finally {A} (m : M A) (cleanup : World → World) : M A := λ w,
  match m w with
  | (r, w') => (r, cleanup w')
  end.

Definition emit (e : Event) (w : World) : World :=
  mkWorld (trace w ++ [e]) (buyLocks w).

(** What [getQuote] makes of the answer: [null] unless a payload with a
    non-empty route plan arrived; a failed fetch throws. *)
Definition quoteOutcome (reply : QuoteReply) : Result (option JupQuote) :=
  match reply with
  | QuoteFetchFails msg => Throw msg
  | QuoteNotOk => Ok None
  | QuoteNotJson => Ok None
  | QuotePayload failed payload =>
      if failed then Ok None
      else if bool_decide (routePlan payload = []) then Ok None
      else Ok (Some payload)
  end.

(** What [doSwap] makes of the answer. *)
Definition swapOutcome (reply : SwapReply) : Result string :=
  match reply with
  | SwapHttpError status text => Throw ("swap http " +:+ status +:+ ": " +:+ text)
  | SwapNoTransaction => Throw "swap missing swapTransaction"
  | SwapChainError msg => Throw msg
  | SwapConfirmed sig => Ok sig
  end.

(** What [getTokenBalance] makes of the answer.  The balance of SOL is
    read by [getBalance], whose failure throws; the balance of a token is
    read by [getTokenAccountBalance(ata).catch(() => null)], whose failure
    counts as a balance of 0.  (An address that is not a public key is
    outside the model.) *)
Definition balanceOutcome (m : string) (reply : BalanceReply) : Result Z :=
  match reply with
  | BalanceFails msg => if String.eqb m SOL_MINT then Throw msg else Ok 0
  | Balance amountRaw => Ok amountRaw
  end.

Section WithEnv.

Variables (cfg : Config) (env : Env).

(** [getQuote] *)
Definition getQuote (req : QuoteRequest) : M (option JupQuote) := λ w,
  let reply := quoteNet env (length (trace w)) req in
  (quoteOutcome reply, emit (EvQuote req reply) w).

(** [doSwap]: request the transaction, sign, send, confirm. *)
Definition doSwap (quote : JupQuote) : M string := λ w,
  let reply := swapNet env (length (trace w)) quote in
  (swapOutcome reply, emit (EvSwap quote reply) w).

(** [getTokenBalance], the raw amount. *)
Definition getTokenBalance (m : string) : M Z := λ w,
  let reply := balanceNet env (length (trace w)) m in
  (balanceOutcome m reply, emit (EvBalance m reply) w).

Definition sleep (ms : Z) : M unit := λ w, (Ok (), emit (EvSleep ms) w).

(** ** BUY *)

Definition lockMint (m : string) (w : World) : World :=
  mkWorld (trace w) ({[m]} ∪ buyLocks w).

Definition unlockMint (m : string) (w : World) : World :=
  mkWorld (trace w) (buyLocks w ∖ {[m]}).

Definition isLocked (m : string) (w : World) : bool :=
  bool_decide (m ∈ buyLocks w).

(** [JUP_SLIPPAGE_BPS || 200] *)
Definition slippageOr200 : Z :=
  if bool_decide (JUP_SLIPPAGE_BPS cfg = 0) then 200 else JUP_SLIPPAGE_BPS cfg.

(** [Math.max(1, Math.floor(solBudget * 1e9))]: the product is a double. *)
Definition lamportsBudget (solBudget : Qc) : Z :=
  Z.max 1 (Qfloor (fl env (solBudget * Q2Qc 1000000000)%Qc)).

(** [Math.min(MAX_SLIPPAGE_BPS, Math.max(JUP_SLIPPAGE_BPS || 200, 200))] *)
Definition buySlippage : Z :=
  Z.min (MAX_SLIPPAGE_BPS cfg) (Z.max slippageOr200 200).

(** [Math.max(lamportsBudget,
              Math.floor((isFinite(JUP_PROBE_SOL) ? JUP_PROBE_SOL : 0.02) * 1e9))] *)
Definition probeLamports (solBudget : Qc) : Z :=
  Z.max (lamportsBudget solBudget)
    (Qfloor (fl env (default (Q2Qc (1 # 50)) (JUP_PROBE_SOL cfg) * Q2Qc 1000000000)%Qc)).

Definition buyRequest (m : string) (amountRaw : Z) : QuoteRequest :=
  mkRequest SOL_MINT m amountRaw buySlippage None (Some 64).

(** The body of the [try] inside the retry loop. *)
Definition buyAttempt (m : string) (solBudget : Qc) : M string :=
  q ← getQuote (buyRequest m (lamportsBudget solBudget));
  match q with
  | Some q => doSwap q
  | None =>
      probe ← tryCatch (getQuote (buyRequest m (probeLamports solBudget)))
                (λ _, mret None);
      match probe with
      | None => throw "noviableroute"
      | Some _ =>
          q ← getQuote (buyRequest m (lamportsBudget solBudget));
          match q with
          | None => throw "noviableroute"
          | Some q => doSwap q
          end
      end
  end.

Definition delays : list Z :=
  [5000; 7000; 8000; 10000; 12000; 15000; 15000; 15000; 15000; 15000].

(** The retry loop: [remaining] holds [delays[i..]], so that the last
    attempt is the one made with no delay left. *)
Fixpoint buyLoop (attempt : M string) (remaining : list Z) : M string := λ w,
  match attempt w with
  | (Ok sig, w') => (Ok sig, w')
  | (Throw msg, w') =>
      if negb (retryable msg) then (Throw msg, w')
      else
        match remaining with
        | [] => (Throw msg, w')
        | d :: rest => buyLoop attempt rest (emit (EvSleep d) w')
        end
  end.

(** [buyTokenWithSol] *)
Definition buyTokenWithSol (m : string) (solBudget : Qc) : M string := λ w,
  if negb (AUTO_TRADE cfg) then (Throw "AUTO_TRADE is disabled", w)
  else if isLocked m w then (Throw "buy lock active for this mint", w)
  else
    finally (buyLoop (buyAttempt m solBudget) delays) (unlockMint m) (lockMint m w).

(** ** SELL *)

(** [Array.from(new Set(xs))]: first occurrences, in order. *)
Fixpoint uniq (seen xs : list Z) : list Z :=
  match xs with
  | [] => []
  | x :: rest =>
      if bool_decide (x ∈ seen) then uniq seen rest else x :: uniq (x :: seen) rest
  end.

(** The slippage ladder of the sell path. *)
Definition sellLadder : list Z :=
  let cap := Z.min (MAX_SLIPPAGE_BPS cfg) 1100 in
  let base := Z.max slippageOr200 200 in
  uniq [] [base; 400; 700; 900; cap].

(** One pass over the ladder:
    [for (const s of slips) try { return await f(s) }
     catch (e) { if (!/noviableroute/i.test(e.message)) throw e }].
    [None] when every rung failed with a no-route error. *)
Fixpoint overLadder (f : Z → M string) (slips : list Z) : M (option string) := λ w,
  match slips with
  | [] => (Ok None, w)
  | s :: rest =>
      match f s w with
      | (Ok sig, w') => (Ok (Some sig), w')
      | (Throw msg, w') =>
          if noViableRoute msg then overLadder f rest w' else (Throw msg, w')
      end
  end.

Definition tryDirect (m : string) (amt slip : Z) : M string :=
  q ← getQuote (mkRequest m SOL_MINT amt slip None (Some 64));
  match q with
  | None => throw "noviableroute"
  | Some q => doSwap q
  end.

Definition toUSDC (m : string) (amt slip : Z) : M string :=
  q ← getQuote (mkRequest m USDC_MINT amt slip None (Some 64));
  match q with
  | None => throw "noviableroute"
  | Some q => doSwap q
  end.

(** A rung of the third tier: into USDC, then a best-effort second hop
    into SOL whose errors are ignored. *)
Definition viaUSDC (m : string) (amt slip : Z) : M string :=
  sig1 ← toUSDC m amt slip;
  usdcBal ← getTokenBalance USDC_MINT;
  if bool_decide (0 < usdcBal) then
    both ← tryCatch
              (q2 ← getQuote (mkRequest USDC_MINT SOL_MINT usdcBal slip None (Some 64));
               match q2 with
               | Some q2 => sig2 ← doSwap q2; mret (Some (sig1 +:+ " , " +:+ sig2))
               | None => mret None
               end)
              (λ _, mret None);
    match both with
    | Some sigs => mret sigs
    | None => mret sig1
    end
  else mret sig1.

Definition exhausted : string := "noviableroute: token illiquid or dust too small".

(** [sellTokenForSol]; [amountRaw * 95n / 100n] is bigint division. *)
Definition sellTokenForSol (m : string) (amountRaw : Z) : M string :=
  if String.eqb m SOL_MINT then throw "nothing to sell: mint is SOL"
  else if bool_decide (amountRaw ≤ 0) then throw "nothing to sell: zero balance"
  else
    let slips := sellLadder in
    r1 ← overLadder (tryDirect m amountRaw) slips;
    match r1 with
    | Some sig => mret sig
    | None =>
        let ninetyFive := Z.quot (amountRaw * 95) 100 in
        r2 ← (if bool_decide (0 < ninetyFive)
              then overLadder (tryDirect m ninetyFive) slips else mret None);
        match r2 with
        | Some sig => mret sig
        | None =>
            r3 ← overLadder
                   (viaUSDC m (if bool_decide (0 < ninetyFive) then ninetyFive
                               else amountRaw)) slips;
            match r3 with
            | Some sig => mret sig
            | None => throw exhausted
            end
        end
    end.

End WithEnv.

End TraderBot.

(** * qualifier.ts *)
Module Qualifier.
Import Signals.

Definition SOL_MINT : string := "So11111111111111111111111111111111111111112".

(** [STABLECOIN_MINTS]: USDC and USDT. *)
Definition STABLECOIN_MINTS : list string :=
  ["EPjFWdd5AufqSSqeM2qN1xzybapC8G4wEGGkZwyTDt1v";
   "Es9vMFrzaCERZ8i9hPq6qA4C2811aYkGf5Z9Wj9kRGwA"].

Definition isStablecoin (mint : string) : bool :=
  bool_decide (mint ∈ STABLECOIN_MINTS).

(** [SafetyResult]: safe, or unsafe for a reason, and who said so. *)
Inductive SafetyResult : Type :=
| Safe (source : Source)
| Unsafe (source : Source) (reason : string).

(** What the checks read in the [data] of the token security answer: a
    flag is set when the test of the code on its field succeeds. *)
Record SecurityFlags : Type := mkSecurity {
  isHoneypot : bool;
  freeze : bool;
  freezeable : bool;
  freezeAuthority : bool;
  nonTransferable : bool;
  transferFeeEnable : bool;
}.

(** What the token security endpoint can answer: the fetch fails or the
    body is not JSON (both throw), a status that is not ok, or data. *)
Inductive SecurityReply : Type :=
| SecurityThrows
| SecurityHttp (status : string)
| SecurityAnswer (data : SecurityFlags).

(** What the checks read in the parsed mint account. *)
Record MintInfo : Type := mkMintInfo {
  mintFreezeAuthority : bool;
  mintAuthority : bool;
  isToken2022 : bool;
}.

Inductive AccountReply : Type :=
| RpcError (msg : string)
| MintAccount (info : MintInfo).

Record Snapshot : Type := mkSnapshot {
  priceUsd : option Qc;
  symbol : option string;
  name : option string;
}.

(** The result of [qualifyAndSnapshot]. *)
Record Qualification : Type := mkQualification {
  qualified : bool;
  reason : option string;
  source : option Source;
  snapshot : option Snapshot;
}.

(** The collaborators: the two safety sources, the price and meta-data
    snapshots ([birdeyePrice], [birdeyeMeta], which never throw), the
    route probe ([jupHasRoute], which never throws) and the switch that
    asks for it. *)
Record Env : Type := mkEnv {
  security : string → SecurityReply;
  account : string → AccountReply;
  birdeyePrice : string → option Qc;
  birdeyeMeta : string → option string * option string;
  jupHasRoute : string → bool;
  REQUIRE_JUP_ROUTE : bool;
}.

(** [birdeyeSecurityCheck]; [None] when it throws. *)
Definition birdeyeSecurityCheck (env : Env) (mint : string) : option SafetyResult :=
  match security env mint with
  | SecurityThrows => None
  | SecurityHttp status => Some (Unsafe birdeye ("http_" +:+ status))
  | SecurityAnswer data =>
      if isHoneypot data then Some (Unsafe birdeye "honeypot")
      else if freeze data || freezeable data || freezeAuthority data
      then Some (Unsafe birdeye "freeze_authority_present")
      else if nonTransferable data then Some (Unsafe birdeye "non_transferable")
      else if transferFeeEnable data then Some (Unsafe birdeye "transfer_fee_enabled")
      else Some (Safe birdeye)
  end.

(** [onchainSafetyCheck]: it catches its own errors. *)
Definition onchainSafetyCheck (env : Env) (mint : string) : SafetyResult :=
  match account env mint with
  | RpcError msg => Unsafe onchain ("rpc_error: " +:+ msg)
  | MintAccount info =>
      if mintFreezeAuthority info then Unsafe onchain "freeze_authority_present"
      else if mintAuthority info then Unsafe onchain "mint_authority_present"
      else if isToken2022 info then Unsafe onchain "token2022_risk"
      else Safe onchain
  end.

(** The safety verdict of step 2: Birdeye first, the chain when Birdeye
    threw or answered with an http error. *)
Definition safetyOf (env : Env) (mint : string) : SafetyResult :=
  match birdeyeSecurityCheck env mint with
  | Some (Unsafe src reason) =>
      if TraderBot.startsWith "http_" reason then onchainSafetyCheck env mint
      else Unsafe src reason
  | Some (Safe src) => Safe src
  | None => onchainSafetyCheck env mint
  end.

(** [qualifyAndSnapshot] *)
Definition qualifyAndSnapshot (env : Env) (wallet mint : string) (amount : Qc)
    : Qualification :=
  if String.eqb mint SOL_MINT then mkQualification false (Some "sol_ignored") None None
  else if isStablecoin mint
  then mkQualification false (Some "stablecoin_ignored") None None
  else
    match safetyOf env mint with
    | Unsafe src reason => mkQualification false (Some reason) (Some src) None
    | Safe src =>
        let priceUsd := birdeyePrice env mint in
        let meta := birdeyeMeta env mint in
        if REQUIRE_JUP_ROUTE env && negb (jupHasRoute env mint)
        then mkQualification false (Some "no_route") None None
        else mkQualification true None (Some src)
               (Some (mkSnapshot priceUsd meta.1 meta.2))
    end.

End Qualifier.

(** * index.ts: the webhook handler *)
Module Webhook.
Import Signals Index.

(** A token transfer of an event, as the handler reads it: [mint],
    [tokenAmount] when it is a number that is not NaN, [toUserAccount]
    and [fromUserAccount]. *)
Record Transfer : Type := mkTransfer {
  t_mint : option string;
  tokenAmount : option Qc;
  toUserAccount : option string;
  fromUserAccount : option string;
}.

(** An event of the webhook body. *)
Record SwapEvent : Type := mkEvent {
  e_type : option string;
  feePayer : option string;
  e_account : option string;
  e_signature : option string;
  txHash : option string;
  e_sig : option string;
  tokenTransfers : list Transfer;
}.

(** [a || b || ... || undefined] over optional strings. *)
Fixpoint firstTruthy (xs : list (option string)) : option string :=
  match xs with
  | [] => None
  | x :: rest => if nonEmpty x then x else firstTruthy rest
  end.

(** [totals.set(mint, (totals.get(mint) || 0) + amt)] on a [Map], which
    keeps its keys in the order of their first insertion. *)
Fixpoint bump (mint : string) (amt : Qc) (totals : list (string * Qc))
    : list (string * Qc) :=
  match totals with
  | [] => [(mint, amt)]
  | (k, v) :: rest =>
      if String.eqb k mint then (k, (v + amt)%Qc) :: rest
      else (k, v) :: bump mint amt rest
  end.

(** One turn of the loop over the transfers; the state is [(buys, sells)]. *)
Definition addTransfer (actor : string)
    (acc : list (string * Qc) * list (string * Qc)) (t : Transfer)
    : list (string * Qc) * list (string * Qc) :=
  match t_mint t, tokenAmount t with
  | Some mint, Some amt =>
      if String.eqb mint "" || bool_decide (amt = 0%Qc) then acc
      else if bool_decide (toUserAccount t = Some actor)
      then (bump mint amt acc.1, acc.2)
      else if bool_decide (fromUserAccount t = Some actor)
      then (acc.1, bump mint amt acc.2)
      else acc
  | _, _ => acc
  end.

Definition aggregate (actor : string) (txfers : list Transfer)
    : list (string * Qc) * list (string * Qc) :=
  foldl (addTransfer actor) ([], []) txfers.

(** The messages the handler sends, by kind. *)
Inductive Note : Type :=
| DuplicateIgnored (mint : string)
| LockSkipped (mint : string)
| AutoBuyExecuted (mint jupSig : string)
| AutoBuyFailed (mint msg : string)
| QualifiedNote (actor mint : string) (amt : Qc)
| NotQualified (actor mint : string) (amt : Qc) (reason : option string)
| SellSeen (actor mint : string) (amt : Qc)
| AutoSellDone (mint jupSig : string)
| CloseNoPosition (mint : string)
| AutoSellFailed (mint msg : string)
| CloseAutoTradeOff (mint : string).

(** The collaborators of the handler: the clock, the qualifier's own
    collaborators, the settings, the constants of config.ts, the three
    entry points of trader.ts with what they return or throw, the
    printing of [Math.round(amt * 1e6)], and Telegram: what becomes of the
    message that is sent when [n] messages were sent before it, delivered
    or rejected with the error of the fetch. *)
Record Env : Type := mkEnv {
  clock : nat → Z;
  qualifierEnv : Qualifier.Env;
  settings : Settings.Settings;
  AUTO_TRADE : bool;
  TRADE_SOL_BUDGET : Qc;
  buyTokenWithSol : string → Qc → TraderBot.Result string;
  getTokenBalance : string → TraderBot.Result Z;
  sellTokenForSol : string → Z → TraderBot.Result string;
  roundedAmount : Qc → string;
  sendTelegram : nat → TraderBot.Result unit;
}.

(** The in-memory guards, signals.json, the number of [Date.now()]
    readings taken so far, the messages sent so far. *)
Record State : Type := mkState {
  guards : Guards;
  file : list Signal;
  reads : nat;
  notes : list Note;
}.

(** A piece of the handler: it changes the state and returns, or throws. *)
Definition Handler : Type := State → TraderBot.Result unit * State.

Definition skip : Handler := λ st, (TraderBot.Ok (), st).

(** [m; k] *)
Definition andThen (m k : Handler) : Handler := λ st,
  match m st with
  | (TraderBot.Ok _, st') => k st'
  | (TraderBot.Throw msg, st') => (TraderBot.Throw msg, st')
  end.

(** [try { m } catch (err) { handler(err.message) }] *)
Definition tryCatch (m : Handler) (handler : string → Handler) : Handler := λ st,
  match m st with
  | (TraderBot.Ok _, st') => (TraderBot.Ok (), st')
  | (TraderBot.Throw msg, st') => handler msg st'
  end.

(** [for (const x of xs) { body(x) }]: a turn that throws ends the loop. *)
Fixpoint forEach {A} (body : A → Handler) (xs : list A) : Handler := λ st,
  match xs with
  | [] => (TraderBot.Ok (), st)
  | x :: rest =>
      match body x st with
      | (TraderBot.Ok _, st') => forEach body rest st'
      | (TraderBot.Throw msg, st') => (TraderBot.Throw msg, st')
      end
  end.

(** [await sendTelegram(...)]: the message goes out; the call returns when
    it is delivered and throws when the fetch rejects. *)
Definition note (env : Env) (n : Note) : Handler := λ st,
  (sendTelegram env (length (notes st)),
   mkState (guards st) (file st) (reads st) (notes st ++ [n])).

(** The buy branch for one aggregated [(mint, amt)] of an event. *)
Definition handleBuy (env : Env) (signature : option string) (actor mint : string)
    (amt : Qc) : Handler := λ st,
  if String.eqb mint TraderBot.SOL_MINT then skip st
  else if bool_decide (amt = 0%Qc) then skip st
  else
    let key := eventKey signature actor mint "BUY" (roundedAmount env amt) in
    match firstSeen (clock env (reads st)) key (guards st) with
    | (false, _) => skip st
    | (true, g1) =>
        let st1 := mkState g1 (file st) (S (reads st)) (notes st) in
        if hasOpenSignalForMint mint (file st1) then note env (DuplicateIgnored mint) st1
        else
          let lockUntil := default 0 (buyLocks g1 !! mint) in
          let now := clock env (reads st1) in
          let st2 := mkState g1 (file st1) (S (reads st1)) (notes st1) in
          if bool_decide (now < lockUntil) then note env (LockSkipped mint) st2
          else
            let g2 := mkGuards (seenEventKeys g1)
                        (<[mint := now + BUY_LOCK_MS]> (buyLocks g1)) in
            let q := Qualifier.qualifyAndSnapshot (qualifierEnv env) actor mint amt in
            if Qualifier.qualified q then
              let p := mkBuy actor mint amt
                         (Settings.stopLossPctDefault (settings env))
                         (Qualifier.source q)
                         (Qualifier.snapshot q ≫= Qualifier.priceUsd)
                         (Qualifier.snapshot q ≫= Qualifier.symbol) in
              let r := upsertBuy (clock env (reads st2)) p (file st2) in
              let st3 := mkState g2 r.2 (S (reads st2)) (notes st2) in
              andThen
                (if AUTO_TRADE env then
                   tryCatch
                     (λ st,
                        match buyTokenWithSol env mint (TRADE_SOL_BUDGET env) with
                        | TraderBot.Ok jupSig =>
                            note env (AutoBuyExecuted mint jupSig)
                              (mkState (guards st)
                                 (attachTraderBuy r.1 jupSig (Some (TRADE_SOL_BUDGET env))
                                    (file st))
                                 (reads st) (notes st))
                        | TraderBot.Throw msg => (TraderBot.Throw msg, st)
                        end)
                     (λ msg, note env (AutoBuyFailed mint msg))
                 else skip)
                (note env (QualifiedNote actor mint amt))
                st3
            else
              note env (NotQualified actor mint amt (Qualifier.reason q))
                (mkState g2 (file st2) (reads st2) (notes st2))
    end.

(** [signals.find(s => s.wallet === actor && s.mint === mint && s.status === "closed")] *)
Definition recentClosed (actor mint : string) (l : list Signal) : option Signal :=
  snd <$> list_find (λ s, wallet s = actor ∧ Signals.mint s = mint ∧ status s = closed) l.

(** What follows the announcement in the sell branch: the close, then the
    sale of the bot's own balance. *)
Definition closeAndSell (env : Env) (actor mint : string) : Handler := λ st1,
  let r := closeByWalletAndMint (λ k, clock env (reads st1 + k)%nat)
             actor mint (Some "sold_by_wallet") (file st1) in
  let st2 := mkState (guards st1) r.2 (reads st1 + r.1)%nat (notes st1) in
  if AUTO_TRADE env && bool_decide (0 < r.1)%nat then
    tryCatch
      (λ st,
         match getTokenBalance env mint with
         | TraderBot.Ok bal =>
             if bool_decide (0 < bal) then
               match sellTokenForSol env mint bal with
               | TraderBot.Ok jupSig =>
                   note env (AutoSellDone mint jupSig)
                     (mkState (guards st)
                        (match recentClosed actor mint (file st) with
                         | Some s => attachTraderSell s jupSig (file st)
                         | None => file st
                         end)
                        (reads st) (notes st))
               | TraderBot.Throw msg => (TraderBot.Throw msg, st)
               end
             else note env (CloseNoPosition mint) st
         | TraderBot.Throw msg => (TraderBot.Throw msg, st)
         end)
      (λ msg, note env (AutoSellFailed mint msg))
      st2
  else if bool_decide (0 < r.1)%nat then note env (CloseAutoTradeOff mint) st2
  else skip st2.

(** The sell branch for one aggregated [(mint, amt)] of an event: the key
    is marked, the sell is announced, and only then the signals of the
    pair are closed. *)
Definition handleSell (env : Env) (signature : option string) (actor mint : string)
    (amt : Qc) : Handler := λ st,
  if String.eqb mint TraderBot.SOL_MINT then skip st
  else if bool_decide (amt = 0%Qc) then skip st
  else
    let key := eventKey signature actor mint "SELL" (roundedAmount env amt) in
    match firstSeen (clock env (reads st)) key (guards st) with
    | (false, _) => skip st
    | (true, g1) =>
        andThen (note env (SellSeen actor mint amt)) (closeAndSell env actor mint)
          (mkState g1 (file st) (S (reads st)) (notes st))
    end.

(** One event of the body: the buys of the actor, then the sells. *)
Definition handleEvent (env : Env) (e : SwapEvent) : Handler := λ st,
  if negb (bool_decide (e_type e = Some "SWAP")
           || bool_decide (e_type e = Some "SWAP_EVENT")) then skip st
  else
    match firstTruthy [feePayer e; e_account e] with
    | None => skip st
    | Some actor =>
        let signature := firstTruthy [e_signature e; txHash e; e_sig e] in
        let totals := aggregate actor (tokenTransfers e) in
        andThen
          (forEach (λ ma, handleBuy env signature actor ma.1 ma.2) totals.1)
          (forEach (λ ma, handleSell env signature actor ma.1 ma.2) totals.2)
          st
    end.

(** The handler: the events of the body in order, up to the first throw;
    the state it leaves. *)
Definition webhook (env : Env) (events : list SwapEvent) (st : State) : State :=
  (forEach (handleEvent env) events st).2.

End Webhook.

(** * jobs.ts *)
Module Jobs.

Record Trader : Type := mkTrader {
  wallet : string;
  realized : Qc;
  total : Qc;
  winPercentage : Qc;
}.

Definition MAX_ADDRESSES_PER_WEBHOOK : nat := 20.

(** One turn of the loop of [dedupeTraders]; the state is [(seen, unique)]. *)
Definition dedupeStep (acc : gset string * list Trader) (t : Trader)
    : gset string * list Trader :=
  if bool_decide (wallet t ∈ acc.1) then acc
  else ({[wallet t]} ∪ acc.1, acc.2 ++ [t]).

(** [dedupeTraders]: the unique traders and the number dropped. *)
Definition dedupeTraders (traders : list Trader) : list Trader * nat :=
  let unique := (foldl dedupeStep (∅, []) traders).2 in
  (unique, (length traders - length unique)%nat).

(** What SolanaTracker can answer: the request or the parsing throws, a
    status that is not ok, or a body whose [wallets] are mapped to traders
    (the empty list when [wallets] is not an array). *)
Inductive TrackerReply : Type :=
| TrackerThrows (msg : string)
| TrackerHttp (status text : string)
| TrackerWallets (wallets : list Trader).

(** [listHeliusWebhooks]: the ids of the webhooks, or it throws. *)
Inductive HooksReply : Type :=
| HooksThrow (msg : string)
| Hooks (ids : list string).

(** A request to Helius: the listing of the webhooks ([GET]), or the
    request that updates ([PUT]) or creates ([POST]) the webhook, with its
    [accountAddresses]. *)
Inductive Request : Type :=
| ListHooks
| Put (webhookID : string) (accountAddresses : list string)
| Post (accountAddresses : list string).

Inductive HookReply : Type :=
| HookThrows (msg : string)
| HookReplied (ok : bool).

(** The messages of the job, by kind. *)
Inductive Note : Type :=
| TrackerError (status : string)
| NoTraders
| NoUnique
| Updating (candidates dupDropped capDropped kept : nat)
| UpdateFailed
| CreateFailed
| Truncated (by_ : nat)
| Updated (webhookID : string)
| Created
| ErrorNote (msg : string).

(** The collaborators of the job: the answers of SolanaTracker and of
    Helius, and what becomes of the message sent when [n] messages of the
    run were sent before it, delivered or rejected with the error of the
    fetch. *)
Record Env : Type := mkEnv {
  tracker : TrackerReply;
  hooks : HooksReply;
  send : Request → HookReply;
  sendTelegram : nat → TraderBot.Result unit;
}.

(** What a run of the job has done so far: the requests it sent to Helius
    and the messages it sent. *)
Record Run : Type := mkRun {
  sent : list Request;
  notes : list Note;
}.

(** A piece of the job: it returns a value or throws. *)
Definition Job (A : Type) : Type := Run → TraderBot.Result A * Run.

(** [return a] *)
Definition ret {A} (a : A) : Job A := λ r, (TraderBot.Ok a, r).

(** [await sendTelegram(...)], then the rest: a rejected message throws. *)
Definition say {A} (env : Env) (n : Note) (k : Job A) : Job A := λ r,
  match sendTelegram env (length (notes r)) with
  | TraderBot.Ok _ => k (mkRun (sent r) (notes r ++ [n]))
  | TraderBot.Throw msg => (TraderBot.Throw msg, mkRun (sent r) (notes r ++ [n]))
  end.

(** [updateHeliusWebhook] and [createHeliusWebhook]: the list is trimmed to
    the cap and the request is sent; the result is the request, its answer
    and [truncatedBy]. *)
Definition sendWallets (env : Env) (mk : list string → Request) (wallets : list string)
    : Request * HookReply * nat :=
  let trimmed := take MAX_ADDRESSES_PER_WEBHOOK wallets in
  let truncatedBy := (length wallets - length trimmed)%nat in
  (mk trimmed, send env (mk trimmed), truncatedBy).

(** The [try] block of [updateTopWallets]. *)
Definition attempt (env : Env) : Job (list Trader) :=
  match tracker env with
  | TrackerThrows msg => λ r, (TraderBot.Throw msg, r)
  | TrackerHttp status _ => say env (TrackerError status) (ret [])
  | TrackerWallets all =>
      if bool_decide (all = []) then say env NoTraders (ret [])
      else
        let traders := take 10 all in
        let beforeCount := length traders in
        let d := dedupeTraders traders in
        let kept := take MAX_ADDRESSES_PER_WEBHOOK d.1 in
        let capDropped := (length d.1 - length kept)%nat in
        if bool_decide (kept = []) then say env NoUnique (ret [])
        else
          let wallets := wallet <$> kept in
          say env (Updating beforeCount d.2 capDropped (length wallets))
            (λ r,
               let r1 := mkRun (sent r ++ [ListHooks]) (notes r) in
               match hooks env with
               | HooksThrow msg => (TraderBot.Throw msg, r1)
               | Hooks ids =>
                   let mk := match ids with
                             | target :: _ => Put target
                             | [] => Post
                             end in
                   let s := sendWallets env mk wallets in
                   let r2 := mkRun (sent r1 ++ [s.1.1]) (notes r1) in
                   match s.1.2 with
                   | HookThrows msg => (TraderBot.Throw msg, r2)
                   | HookReplied false =>
                       say env
                         (match ids with _ :: _ => UpdateFailed | [] => CreateFailed end)
                         (ret []) r2
                   | HookReplied true =>
                       (if bool_decide (0 < s.2)%nat
                        then say env (Truncated s.2) else λ k, k)
                         (say env
                            (match ids with
                             | target :: _ => Updated target
                             | [] => Created
                             end)
                            (ret kept))
                         r2
                   end
               end)
  end.

(** [updateTopWallets]: the [try] block, and the [catch] that reports the
    error and returns the empty list. *)
Definition updateTopWallets (env : Env) : TraderBot.Result (list Trader) * Run :=
  match attempt env (mkRun [] []) with
  | (TraderBot.Ok traders, r) => (TraderBot.Ok traders, r)
  | (TraderBot.Throw msg, r) => say env (ErrorNote msg) (ret []) r
  end.

End Jobs.

(** * settings.ts and the [/set stoploss] command of index.ts *)
Module Commands.
Import Signals Settings.

(** [Partial<Settings>]: the fields an update names. *)
Record Partial : Type := mkPartial {
  new_stopLossPctDefault : option Qc;
  new_takeProfitPct : option (option Qc);
  new_pricecheckIntervalMs : option Z;
}.

(** [updateSettings]: [{ ...cur, ...partial }], saved and returned. *)
Definition updateSettings (partial : Partial) (cur : Settings) : Settings :=
  mkSettings
    (default (stopLossPctDefault cur) (new_stopLossPctDefault partial))
    (default (takeProfitPct cur) (new_takeProfitPct partial))
    (default (pricecheckIntervalMs cur) (new_pricecheckIntervalMs partial)).

(** [Number(val)] for the text of the command: [NaN] when the text is
    not a number, an infinity for the text [Infinity] with or without a
    sign, a finite number otherwise. *)
Inductive JsNumber : Type :=
| NaN
| PlusInfinity
| MinusInfinity
| Finite (x : Qc).

(** The message the command answers with. *)
Inductive Reply : Type :=
| StopLossRejected
| StopLossUpdated (pct : Qc) (changed : nat).

(** What the command leaves: the settings, signals.json and the message;
    or, for [-Infinity], which passes the check of the command, a default
    and a stop-loss of [changed] open signals that are no number of this
    model ([JSON.stringify] writes them as [null]). *)
Inductive Outcome : Type :=
| Stored (settings : Settings) (file : list Signal) (reply : Reply)
| StoredMinusInfinity (changed : nat).

(** The branch of the [/set] command for the key [stoploss]:
    [if (Number.isNaN(n) || n >= 0)] rejects, everything else is applied. *)
Definition setStopLoss (n : JsNumber) (settings : Settings) (file : list Signal)
    : Outcome :=
  match n with
  | NaN => Stored settings file StopLossRejected
  | PlusInfinity => Stored settings file StopLossRejected
  | MinusInfinity =>
      StoredMinusInfinity (length (filter (λ s, status s = open) file))
  | Finite n =>
      if bool_decide (0 ≤ n)%Qc then Stored settings file StopLossRejected
      else
        let next := updateSettings (mkPartial (Some n) None None) settings in
        let r := updateOpenSignalsStopLoss n file in
        Stored next r.2 (StopLossUpdated (stopLossPctDefault next) r.1)
  end.

End Commands.

(** * Vocabulary for the statements about the store *)
Module SignalsSpec.
Import Signals.

(** At most one open signal per (wallet, mint): two positions of the store
    that both hold an open signal of the same pair are the same position. *)
Definition oneOpenPerPair (file : list Signal) : Prop :=
  ∀ i j si sj,
    file !! i = Some si → file !! j = Some sj →
    status si = open → status sj = open →
    wallet si = wallet sj → mint si = mint sj → i = j.

(** The last update of a signal, as [upsertBuy] reads it. *)
Definition lastUpdate (s : Signal) : Z := default (ts s) (updatedTs s).

(** Every open signal of the buyer's pair was updated within the merge
    window before [now]. *)
Definition freshAt (now : Z) (p : BuyParams) (file : list Signal) : Prop :=
  ∀ i s, file !! i = Some s → openFor (p_wallet p) (p_mint p) s →
         now - lastUpdate s ≤ MERGE_WINDOW_MS.

(** A run of buys: each call of [upsertBuy] works on the store the call
    before left; the result is the signal the last call returned. *)
Fixpoint upsertAll (evs : list (Z * BuyParams)) (file : list Signal)
    (ret : option Signal) : option Signal * list Signal :=
  match evs with
  | [] => (ret, file)
  | (now, p) :: rest =>
      upsertAll rest (upsertBuy now p file).2 (Some (upsertBuy now p file).1)
  end.

(** All events come from wallet [w] and buy mint [m]. *)
Definition sameBuyer (w m : string) (evs : list (Z * BuyParams)) : Prop :=
  Forall (λ e, p_wallet e.2 = w ∧ p_mint e.2 = m) evs.

(** Each event arrives within the merge window of the one before it. *)
Fixpoint inWindow (prev : Z) (evs : list (Z * BuyParams)) : Prop :=
  match evs with
  | [] => True
  | (now, _) :: rest => now - prev ≤ MERGE_WINDOW_MS ∧ inWindow now rest
  end.

Definition sumAmounts (evs : list (Z * BuyParams)) : Qc :=
  foldr (λ e acc, (p_amount e.2 + acc)%Qc) 0%Qc evs.

(** The amount and the entry price of a signal after a run of merges,
    computed the way [upsertBuy] computes them: one buy after the other in
    the order of arrival, the amount by the code's [s.amount += amount] and
    the price by the code's [mergeVWAP] on the amount the signal has
    reached.  No identity of arithmetic is applied: in doubles the same
    recurrence holds with each operation rounded. *)
Fixpoint mergedFrom (a : Qc) (pr : option Qc) (evs : list (Z * BuyParams))
    : Qc * option Qc :=
  match evs with
  | [] => (a, pr)
  | e :: rest =>
      mergedFrom (a + p_amount e.2)%Qc
        (mergeVWAP a pr (p_amount e.2) (p_priceUsd e.2)) rest
  end.

(** The amount alone: the running total, added up from the left. *)
Definition runningAmount (a : Qc) (evs : list (Z * BuyParams)) : Qc :=
  foldl (λ acc e, (acc + p_amount e.2)%Qc) a evs.

(** An event is unpriced when its price snapshot is missing. *)
Definition unpricedEvent (e : Z * BuyParams) : Prop := p_priceUsd e.2 = None.

(** A priced event carries a positive price and a positive amount. *)
Definition pricedEvent (e : Z * BuyParams) : Prop :=
  (0 < p_amount e.2)%Qc ∧ ∃ pr, p_priceUsd e.2 = Some pr ∧ (0 < pr)%Qc.

(** The volume-weighted average price of the priced events only, in the
    words of the specification: unpriced events carry no weight. *)
Definition pricedVolume (evs : list (Z * BuyParams)) : Qc :=
  foldr (λ e acc, match p_priceUsd e.2 with
                  | Some _ => (p_amount e.2 + acc)%Qc
                  | None => acc
                  end) 0%Qc evs.

Definition pricedValue (evs : list (Z * BuyParams)) : Qc :=
  foldr (λ e acc, match p_priceUsd e.2 with
                  | Some pr => (pr * p_amount e.2 + acc)%Qc
                  | None => acc
                  end) 0%Qc evs.

Definition vwapPriced (evs : list (Z * BuyParams)) : option Qc :=
  if forallb (λ e, negb (bool_decide (is_Some (p_priceUsd e.2)))) evs then None
  else Some (pricedValue evs / pricedVolume evs)%Qc.

(** The signal carries none of the fields a close sets. *)
Definition neverClosed (s : Signal) : Prop :=
  closedTs s = None ∧ closeReason s = None
  ∧ exitPriceUsd s = None ∧ exitPnlPct s = None.

(** No open signal of the store carries a field a close sets. *)
Definition openAreFresh (file : list Signal) : Prop :=
  ∀ i s, file !! i = Some s → status s = open → neverClosed s.

(** The stores the operations of signals.ts build from the empty file. *)
Inductive Built : list Signal → Prop :=
| built_empty : Built []
| built_upsertBuy now p file :
    Built file → Built (upsertBuy now p file).2
| built_attachTraderBuy sig jupSig spent file :
    Built file → Built (attachTraderBuy sig jupSig spent file)
| built_attachTraderSell sig jupSig file :
    Built file → Built (attachTraderSell sig jupSig file)
| built_closeByWalletAndMint clock w m reason file :
    Built file → Built (closeByWalletAndMint clock w m reason file).2
| built_closeByWalletMintWithExit clock w m px reason file :
    Built file → Built (closeByWalletMintWithExit clock w m px reason file).2
| built_updateOpenSignalsStopLoss newPct file :
    Built file → Built (updateOpenSignalsStopLoss newPct file).2.

End SignalsSpec.

(** * Vocabulary for the statements about the monitor *)
Module PriceCheckSpec.
Import Signals Settings PriceCheck.

(** The effect is not a take-profit close request for the pair. *)
Definition notTakeProfitFor (w m : string) (e : Effect) : Prop :=
  match e with
  | CloseWithExit w' m' _ reason _ => ¬ (w' = w ∧ m' = m ∧ reason = "take_profit")
  | _ => True
  end.

(** The signal as a stop-loss exit at price [current] leaves it: what
    [closeByWalletMintWithExit] makes of it, closed for [stop_loss] at that
    exit price. *)
Definition stoppedOut (env : Env) (s : Signal) (current : Qc) (s' : Signal) : Prop :=
  (∃ k, s' = exitBody (clock env) current "stop_loss" k s)
  ∧ status s' = closed
  ∧ closeReason s' = Some "stop_loss"
  ∧ exitPriceUsd s' = Some current.

(** The only open signal of its pair in the store sits at position [i]. *)
Definition onlyOpenOfPair (l : list Signal) (i : nat) (s : Signal) : Prop :=
  ∀ j sj, l !! j = Some sj → status sj = open →
          wallet sj = wallet s → mint sj = mint s → j = i.

(** Position [i] holds the stop-loss exit of [s]. *)
Definition stoppedAt (env : Env) (l : list Signal) (i : nat) (s : Signal)
    (current : Qc) : Prop :=
  ∃ s', l !! i = Some s' ∧ stoppedOut env s current s'.

(** Position [i] still holds [s], or already its stop-loss exit. *)
Definition pendingOrStopped (env : Env) (l : list Signal) (i : nat) (s : Signal)
    (current : Qc) : Prop :=
  l !! i = Some s ∨ stoppedAt env l i s current.

(** The log grew, and by no take-profit close request for the pair. *)
Definition quietAbout (w m : string) (before after : list Effect) : Prop :=
  ∃ news, after = before ++ news ∧ Forall (notTakeProfitFor w m) news.

(** The cycle was cut short: the last effect since [before] is a
    notification, and Telegram rejected it. *)
Definition cutShort (env : Env) (before after : list Effect) : Prop :=
  ∃ pre reason traded w m,
    after = before ++ pre ++ [Notify reason traded w m]
    ∧ sendTelegram env (length (before ++ pre)) = false.

End PriceCheckSpec.

(** * Vocabulary for the statements about the de-duplication cache *)
Module IndexSpec.
Import Index.

(** What happens to the cache over time: a sweep, or a delivery of a key. *)
Inductive CacheOp : Type :=
| Sweep (now : Z)
| Delivery (now : Z) (key : string).

Definition timeOf (op : CacheOp) : Z :=
  match op with
  | Sweep now => now
  | Delivery now _ => now
  end.

Definition step (g : Guards) (op : CacheOp) : Guards :=
  match op with
  | Sweep now => cleanMapsNow now g
  | Delivery now key => (firstSeen now key g).2
  end.

Definition run (ops : list CacheOp) (g : Guards) : Guards := foldl step g ops.

End IndexSpec.

(** * Vocabulary for the statements about route resolution *)
Module TraderSpec.
Import TraderBot.

(** The events a computation adds to the trace of [w]. *)
Definition appended (w w' : World) (evs : list Event) : Prop :=
  trace w' = trace w ++ evs.

(** Every quote request among the events asks for slippage [slip]. *)
Definition quotesAt (slip : Z) (evs : list Event) : Prop :=
  Forall (λ e, match e with
               | EvQuote req _ => q_slippageBps req = slip
               | _ => True
               end) evs.

(** The slippage values the quote requests among the events ask for. *)
Definition slippagesAsked (evs : list Event) : list Z :=
  omap (λ e, match e with
             | EvQuote req _ => Some (q_slippageBps req)
             | _ => None
             end) evs.

(** Every swap among the events comes right after a quote request [req]
    whose answer was the quote it executes; [prev] is the event before the
    first one. *)
Fixpoint swapsFollow (req : QuoteRequest) (prev : option Event)
    (evs : list Event) : Prop :=
  match evs with
  | [] => True
  | e :: rest =>
      match e with
      | EvSwap q _ =>
          ∃ reply, prev = Some (EvQuote req reply) ∧ quoteOutcome reply = Ok (Some q)
      | _ => True
      end
      ∧ swapsFollow req (Some e) rest
  end.

(** The shapes one buy attempt can take, with its result: the quote at the
    budget, then either the swap, or the probe, the re-quote at the budget
    and the swap. *)
Inductive AttemptTrace (budgetReq probeReq : QuoteRequest)
    : list Event → Result string → Prop :=
| attempt_quote_throws r1 msg :
    quoteOutcome r1 = Throw msg →
    AttemptTrace budgetReq probeReq [EvQuote budgetReq r1] (Throw msg)
| attempt_direct r1 q sr :
    quoteOutcome r1 = Ok (Some q) →
    AttemptTrace budgetReq probeReq
      [EvQuote budgetReq r1; EvSwap q sr] (swapOutcome sr)
| attempt_probe_fails r1 r2 :
    quoteOutcome r1 = Ok None →
    (quoteOutcome r2 = Ok None ∨ ∃ msg, quoteOutcome r2 = Throw msg) →
    AttemptTrace budgetReq probeReq
      [EvQuote budgetReq r1; EvQuote probeReq r2] (Throw "noviableroute")
| attempt_requote_throws r1 r2 p r3 msg :
    quoteOutcome r1 = Ok None → quoteOutcome r2 = Ok (Some p) →
    quoteOutcome r3 = Throw msg →
    AttemptTrace budgetReq probeReq
      [EvQuote budgetReq r1; EvQuote probeReq r2; EvQuote budgetReq r3] (Throw msg)
| attempt_requote_fails r1 r2 p r3 :
    quoteOutcome r1 = Ok None → quoteOutcome r2 = Ok (Some p) →
    quoteOutcome r3 = Ok None →
    AttemptTrace budgetReq probeReq
      [EvQuote budgetReq r1; EvQuote probeReq r2; EvQuote budgetReq r3]
      (Throw "noviableroute")
| attempt_requote_swap r1 r2 p r3 q sr :
    quoteOutcome r1 = Ok None → quoteOutcome r2 = Ok (Some p) →
    quoteOutcome r3 = Ok (Some q) →
    AttemptTrace budgetReq probeReq
      [EvQuote budgetReq r1; EvQuote probeReq r2; EvQuote budgetReq r3; EvSwap q sr]
      (swapOutcome sr).

(** The quote request of a buy at the configured budget, and the probe. *)
Definition budgetRequest (cfg : Config) (env : Env) (m : string) (solBudget : Qc)
    : QuoteRequest :=
  buyRequest cfg m (lamportsBudget env solBudget).

Definition probeRequest (cfg : Config) (env : Env) (m : string) (solBudget : Qc)
    : QuoteRequest :=
  buyRequest cfg m (probeLamports cfg env solBudget).

(** One buy attempt in the words of the specification, for an attempt that
    starts when the trace holds [n] events: the calls it makes, each with
    the answer the outside world gives at that point, and what the attempt
    returns or throws.  The budget is quoted; with a route the quote is
    executed; with no route the probe is quoted; when the probe finds no
    route, or fails, the attempt fails with [noviableroute]; when it finds
    one the budget is quoted again, and the answer to that request is the
    one executed. *)
Definition attemptScript (cfg : Config) (env : Env) (m : string) (solBudget : Qc)
    (n : nat) : list Event * Result string :=
  let budgetReq := budgetRequest cfg env m solBudget in
  let probeReq := probeRequest cfg env m solBudget in
  let r1 := quoteNet env n budgetReq in
  match quoteOutcome r1 with
  | Throw msg => ([EvQuote budgetReq r1], Throw msg)
  | Ok (Some q) =>
      let sr := swapNet env (n + 1) q in
      ([EvQuote budgetReq r1; EvSwap q sr], swapOutcome sr)
  | Ok None =>
      let r2 := quoteNet env (n + 1) probeReq in
      match quoteOutcome r2 with
      | Ok (Some _) =>
          let r3 := quoteNet env (n + 2) budgetReq in
          match quoteOutcome r3 with
          | Throw msg =>
              ([EvQuote budgetReq r1; EvQuote probeReq r2; EvQuote budgetReq r3],
               Throw msg)
          | Ok None =>
              ([EvQuote budgetReq r1; EvQuote probeReq r2; EvQuote budgetReq r3],
               Throw "noviableroute")
          | Ok (Some q) =>
              let sr := swapNet env (n + 3) q in
              ([EvQuote budgetReq r1; EvQuote probeReq r2; EvQuote budgetReq r3;
                EvSwap q sr],
               swapOutcome sr)
          end
      | _ => ([EvQuote budgetReq r1; EvQuote probeReq r2], Throw "noviableroute")
      end
  end.

(** The shapes the retry loop can take: attempts separated by sleeps, each
    attempt but the last one failed. *)
Inductive LoopTrace (budgetReq probeReq : QuoteRequest)
    : list Event → Result string → Prop :=
| loop_last evs res :
    AttemptTrace budgetReq probeReq evs res →
    LoopTrace budgetReq probeReq evs res
| loop_retry evs msg d rest res :
    AttemptTrace budgetReq probeReq evs (Throw msg) → retryable msg = true →
    LoopTrace budgetReq probeReq rest res →
    LoopTrace budgetReq probeReq (evs ++ EvSleep d :: rest) res.

(** The sell cascade in the order the code runs it: the full amount over
    the ladder, 95% of the amount over the ladder, the two-hop route over
    the ladder. *)
Definition sellRungs (cfg : Config) (env : Env) (m : string) (amountRaw : Z)
    : list (M string) :=
  let slips := sellLadder cfg in
  let ninetyFive := Z.quot (amountRaw * 95) 100 in
  map (tryDirect env m amountRaw) slips
  ++ (if bool_decide (0 < ninetyFive) then map (tryDirect env m ninetyFive) slips
      else [])
  ++ map (viaUSDC env m (if bool_decide (0 < ninetyFive) then ninetyFive
                         else amountRaw)) slips.

(** The cascade as the specification words it: a rung that succeeds ends
    it, a no-route failure moves on to the next rung, any other failure
    ends it with that failure, and running out of rungs is [exhausted]. *)
Fixpoint cascade (rungs : list (M string)) : M string := λ w,
  match rungs with
  | [] => (Throw exhausted, w)
  | r :: rest =>
      match r w with
      | (Ok sig, w') => (Ok sig, w')
      | (Throw msg, w') =>
          if noViableRoute msg then cascade rest w' else (Throw msg, w')
      end
  end.

(** Every rung, run in turn from [w], fails with a no-route error, and the
    last one leaves [w1]. *)
Fixpoint allNoRoute (rungs : list (M string)) (w w1 : World) : Prop :=
  match rungs with
  | [] => w1 = w
  | r :: rest =>
      ∃ msg w', r w = (Throw msg, w') ∧ noViableRoute msg = true
                ∧ allNoRoute rest w' w1
  end.

(** The event carries the answer the outside world gave to its call. *)
Definition answeredBy (env : Env) (e : Event) : Prop :=
  match e with
  | EvQuote req reply => ∃ n, reply = quoteNet env n req
  | EvSwap q reply => ∃ n, reply = swapNet env n q
  | EvBalance m reply => ∃ n, reply = balanceNet env n m
  | EvSleep _ => True
  end.

(** The quote service echoes the requested amount in [inAmount]. *)
Definition echoesAmount (env : Env) : Prop :=
  ∀ n req failed payload,
    quoteNet env n req = QuotePayload failed payload → inAmount payload = q_amount req.

(** The amounts the quote requests among the events ask for. *)
Definition amountsAsked (evs : list Event) : list Z :=
  omap (λ e, match e with
             | EvQuote req _ => Some (q_amount req)
             | _ => None
             end) evs.

(** The input amounts of the quotes the swaps among the events execute. *)
Definition swappedAmounts (evs : list Event) : list Z :=
  omap (λ e, match e with
             | EvSwap q _ => Some (inAmount q)
             | _ => None
             end) evs.

End TraderSpec.

(** * Vocabulary for further statements about the store and the monitor *)
Module StoreSpec.
Import Signals.

(** The signal is the same position: time of creation, wallet and mint. *)
Definition sameIdentity (s s' : Signal) : Prop :=
  ts s' = ts s ∧ wallet s' = wallet s ∧ mint s' = mint s.

(** [file'] holds every signal of [file] at its old position, possibly
    updated, and at most one signal more. *)
Definition extendsStore (file file' : list Signal) : Prop :=
  (length file ≤ length file' ≤ S (length file))%nat
  ∧ ∀ i s, file !! i = Some s → ∃ s', file' !! i = Some s' ∧ sameIdentity s s'.

(** Every signal of [file] sits at its old position in [file'] with the
    amount and the entry price it had. *)
Definition keepsAmounts (file file' : list Signal) : Prop :=
  ∀ i s, file !! i = Some s →
    ∃ s', file' !! i = Some s' ∧ amount s' = amount s
          ∧ entryPriceUsd s' = entryPriceUsd s.

(** The trail [attachTraderBuy] leaves on a signal. *)
Definition withBuy (jupSig : string) (spent : option Qc) (s : Signal) : Signal :=
  let t := default emptyTrader (trader s) in
  set_trader
    (Some (mkTrader (Some (default [] (buySigs t) ++ [jupSig])) (sellSigs t)
             (match spent with
              | Some v => Some (default 0%Qc (solSpent t) + v)%Qc
              | None => solSpent t
              end))) s.

(** Every open signal carries the stop-loss [pct]. *)
Definition uniformStops (pct : Qc) (file : list Signal) : Prop :=
  ∀ s, s ∈ file → status s = open → stopLossPct s = pct.

(** The book-keeping fields of a stored signal are in place: a closed
    signal carries the time and the reason of its close, and every signal
    carries the time of its last update and a count of at least one
    occurrence. *)
Definition stamped (s : Signal) : Prop :=
  (status s = closed → is_Some (closedTs s) ∧ is_Some (closeReason s))
  ∧ is_Some (updatedTs s)
  ∧ ∃ c, occurrences s = Some c ∧ 1 ≤ c.

End StoreSpec.

(** * Vocabulary for further statements about the monitor *)
Module MonitorSpec.
Import Signals Settings PriceCheck.

(** What a cycle can make of a signal [s]: the exit of an open signal at
    the price its mint resolved to, for one of the two reasons. *)
Definition exitedBy (env : Env) (s s' : Signal) : Prop :=
  status s = open
  ∧ ∃ cur reason k,
      getPrice env (mint s) = Some cur ∧ (0 < cur)%Qc
      ∧ (reason = "stop_loss" ∨ reason = "take_profit")
      ∧ s' = exitBody (clock env) cur reason k s.

(** Neither test of the cycle fires for the signal: its mint has no usable
    price, or the change since entry, as the cycle computes it, lies
    strictly between the stop-loss of the signal and the take-profit of the
    settings. *)
Definition withinThresholds (env : Env) (settings : Settings) (s : Signal) : Prop :=
  match getPrice env (mint s) with
  | Some cur =>
      (cur ≤ 0)%Qc
      ∨ ((stopLossPct s < pnlPct env cur (default 0%Qc (entryPriceUsd s)))%Qc
         ∧ match takeProfitPct settings with
           | Some tp => (pnlPct env cur (default 0%Qc (entryPriceUsd s)) < tp)%Qc
           | None => True
           end)
  | None => True
  end.

(** The signal as an exit for [reason] at price [current] leaves it: what
    [closeByWalletMintWithExit] makes of it, closed for that reason at that
    exit price. *)
Definition exitedOut (env : Env) (reason : string) (s : Signal) (current : Qc)
    (s' : Signal) : Prop :=
  (∃ k, s' = exitBody (clock env) current reason k s)
  ∧ status s' = closed
  ∧ closeReason s' = Some reason
  ∧ exitPriceUsd s' = Some current.

Definition exitedAt (env : Env) (reason : string) (l : list Signal) (i : nat)
    (s : Signal) (current : Qc) : Prop :=
  ∃ s', l !! i = Some s' ∧ exitedOut env reason s current s'.

(** Since [before] the log gained the three effects of an exit of [s] that
    closed something: the auto-sell attempt, the close request and the
    notification. *)
Definition reported (reason : string) (traded : bool) (s : Signal) (current : Qc)
    (before after : list Effect) : Prop :=
  ∃ pre n post,
    (0 < n)%nat
    ∧ after = before ++ pre
              ++ [AutoSell (mint s);
                  CloseWithExit (wallet s) (mint s) current reason n;
                  Notify reason traded (wallet s) (mint s)]
              ++ post.

(** The effects of a cycle come in blocks, one per exit: the auto-sell
    attempt for the mint, the close request for the pair at the positive
    price the mint resolved to and for one of the two reasons and, exactly
    when the close closed something, the notification; an exit is reported
    as traded only when auto-trading is on. *)
Inductive ExitBlocks (env : Env) : list Effect → Prop :=
| blocks_nil : ExitBlocks env []
| blocks_nothing_closed w m cur reason rest :
    getPrice env m = Some cur → (0 < cur)%Qc →
    reason = "stop_loss" ∨ reason = "take_profit" →
    ExitBlocks env rest →
    ExitBlocks env (AutoSell m :: CloseWithExit w m cur reason 0 :: rest)
| blocks_closed w m cur reason n traded rest :
    getPrice env m = Some cur → (0 < cur)%Qc →
    reason = "stop_loss" ∨ reason = "take_profit" →
    (0 < n)%nat → (traded = true → AUTO_TRADE env = true) →
    ExitBlocks env rest →
    ExitBlocks env (AutoSell m :: CloseWithExit w m cur reason n
                    :: Notify reason traded w m :: rest).

(** The number of signals the close requests among the effects closed. *)
Definition closedTotal (news : list Effect) : nat :=
  foldr (λ e acc, match e with
                  | CloseWithExit _ _ _ _ n => (n + acc)%nat
                  | _ => acc
                  end) 0%nat news.

End MonitorSpec.

(** * Vocabulary for further statements about the trader *)
Module TraceSpec.
Import TraderBot.

(** The delays slept among the events, in order. *)
Definition sleepsOf (evs : list Event) : list Z :=
  omap (λ e, match e with EvSleep d => Some d | _ => None end) evs.

(** The quote requests among the events, in order. *)
Definition quotesOf (evs : list Event) : list QuoteRequest :=
  omap (λ e, match e with EvQuote req _ => Some req | _ => None end) evs.

(** The quotes for which a swap was requested, in order. *)
Definition swapsOf (evs : list Event) : list JupQuote :=
  omap (λ e, match e with EvSwap q _ => Some q | _ => None end) evs.

(** The signatures of the swaps that were confirmed, in order. *)
Definition confirmedSwaps (evs : list Event) : list string :=
  omap (λ e, match e with EvSwap _ (SwapConfirmed sig) => Some sig | _ => None end) evs.

(** The balance lookups among the events, in order. *)
Definition balancesOf (evs : list Event) : list string :=
  omap (λ e, match e with EvBalance m _ => Some m | _ => None end) evs.

(** A quote request of the sell path for [amountRaw] units of [m]: a
    ladder slippage, 64 accounts, and either the token into SOL or USDC for
    a positive amount no larger than [amountRaw], or USDC into SOL for a
    positive amount. *)
Definition sellRequest (cfg : Config) (m : string) (amountRaw : Z)
    (req : QuoteRequest) : Prop :=
  q_slippageBps req ∈ sellLadder cfg
  ∧ q_maxAccounts req = Some 64 ∧ q_onlyDirectRoutes req = None
  ∧ ((q_inputMint req = m
      ∧ (q_outputMint req = SOL_MINT ∨ q_outputMint req = USDC_MINT)
      ∧ 0 < q_amount req ≤ amountRaw)
     ∨ (q_inputMint req = USDC_MINT ∧ q_outputMint req = SOL_MINT
        ∧ 0 < q_amount req)).

(** An event the sell path may produce: a sell request, a swap, a lookup of
    the USDC balance; never a sleep. *)
Definition sellEvent (cfg : Config) (m : string) (amountRaw : Z) (e : Event)
    : Prop :=
  match e with
  | EvQuote req _ => sellRequest cfg m amountRaw req
  | EvSwap _ _ => True
  | EvBalance m' _ => m' = USDC_MINT
  | EvSleep _ => False
  end.

(** From [w] to [w'] the trace grew by events that satisfy [P], at most
    [nq] quote requests, [ns] swaps and [nb] balance lookups among them,
    and the locks are what they were. *)
Definition grewBy (P : Event → Prop) (nq ns nb : nat) (w w' : World) : Prop :=
  ∃ evs, trace w' = trace w ++ evs
         ∧ buyLocks w' = buyLocks w
         ∧ Forall P evs
         ∧ (length (quotesOf evs) ≤ nq)%nat
         ∧ (length (swapsOf evs) ≤ ns)%nat
         ∧ (length (balancesOf evs) ≤ nb)%nat.

(** Whatever the world, the computation adds such events only. *)
Definition bounded {A} (P : Event → Prop) (nq ns nb : nat) (m : M A) : Prop :=
  ∀ w, grewBy P nq ns nb w (m w).2.

End TraceSpec.

(** * Vocabulary for the statements about the qualifier *)
Module QualifierSpec.
Import Signals Qualifier.

(** None of the flags the Birdeye check tests is set. *)
Definition cleanOnBirdeye (d : SecurityFlags) : Prop :=
  isHoneypot d = false ∧ freeze d = false ∧ freezeable d = false
  ∧ freezeAuthority d = false ∧ nonTransferable d = false
  ∧ transferFeeEnable d = false.

(** None of the flags the on-chain check tests is set. *)
Definition cleanOnChain (i : MintInfo) : Prop :=
  mintFreezeAuthority i = false ∧ mintAuthority i = false ∧ isToken2022 i = false.

(** Birdeye gave no verdict: the request threw or came back with a status
    that is not ok. *)
Definition birdeyeDown (r : SecurityReply) : Prop :=
  r = SecurityThrows ∨ ∃ status, r = SecurityHttp status.

(** The source that vouches for the mint: Birdeye when it answered with
    clean flags, the chain when Birdeye gave no verdict and the account is
    clean. *)
Definition vouchedBy (env : Env) (mint : string) (src : Source) : Prop :=
  (src = birdeye ∧ ∃ d, security env mint = SecurityAnswer d ∧ cleanOnBirdeye d)
  ∨ (src = onchain ∧ birdeyeDown (security env mint)
     ∧ ∃ i, account env mint = MintAccount i ∧ cleanOnChain i).

(** The same collaborators with another on-chain source. *)
Definition withAccount (env : Env) (acc : string → AccountReply) : Env :=
  mkEnv (security env) acc (birdeyePrice env) (birdeyeMeta env)
    (jupHasRoute env) (REQUIRE_JUP_ROUTE env).

End QualifierSpec.

(** * Vocabulary for the statements about the webhook handler *)
Module WebhookSpec.
Import Signals Index Webhook.

(** At most one open signal per mint, whatever the wallet. *)
Definition oneOpenPerMint (l : list Signal) : Prop :=
  ∀ i j si sj,
    l !! i = Some si → l !! j = Some sj →
    status si = open → status sj = open → mint si = mint sj → i = j.

(** The transfer as a buy of the actor: the mint and the amount, when the
    loop over the transfers counts it as one. *)
Definition buyOf (actor : string) (t : Transfer) : option (string * Qc) :=
  match t_mint t, tokenAmount t with
  | Some mint, Some amt =>
      if negb (String.eqb mint "") && negb (bool_decide (amt = 0%Qc))
         && bool_decide (toUserAccount t = Some actor)
      then Some (mint, amt) else None
  | _, _ => None
  end.

(** The transfer as a sell of the actor. *)
Definition sellOf (actor : string) (t : Transfer) : option (string * Qc) :=
  match t_mint t, tokenAmount t with
  | Some mint, Some amt =>
      if negb (String.eqb mint "") && negb (bool_decide (amt = 0%Qc))
         && negb (bool_decide (toUserAccount t = Some actor))
         && bool_decide (fromUserAccount t = Some actor)
      then Some (mint, amt) else None
  | _, _ => None
  end.

(** The sum of the amounts listed for a mint. *)
Definition totalOf (mint : string) (xs : list (string * Qc)) : Qc :=
  foldr (λ x acc, if String.eqb x.1 mint then (x.2 + acc)%Qc else acc) 0%Qc xs.

(** The last character of a string. *)
Fixpoint lastChar (s : string) : option ascii :=
  match s with
  | EmptyString => None
  | String c rest =>
      match lastChar rest with
      | Some d => Some d
      | None => Some c
      end
  end.

(** The totals after the listed amounts were added in order. *)
Definition bumpAll (xs acc : list (string * Qc)) : list (string * Qc) :=
  foldl (λ acc x, bump x.1 x.2 acc) acc xs.

(** The message is the verdict of the qualifier on a buy of the mint. *)
Definition verdictOn (mint : string) (n : Note) : bool :=
  match n with
  | QualifiedNote _ m _ => String.eqb m mint
  | NotQualified _ m _ _ => String.eqb m mint
  | _ => false
  end.

(** The number of verdicts on the mint among the messages. *)
Definition verdictsOn (mint : string) (ns : list Note) : nat :=
  length (List.filter (verdictOn mint) ns).

(** The buy reached the qualifier: its verdict was sent, or, when a
    rejected message kept the verdict from being sent, the store shows the
    signal of the qualified buy. *)
Definition reachedQualifier (mint : string) (before after : State) : Prop :=
  verdictsOn mint (notes after) ≠ verdictsOn mint (notes before)
  ∨ file after ≠ file before.

(** The state after the timer swept the guards at the given times. *)
Definition swept (times : list Z) (st : State) : State :=
  mkState (foldl (λ g now, cleanMapsNow now g) (guards st) times)
    (file st) (reads st) (notes st).


End WebhookSpec.

(** * Vocabulary for the statements about the subscription job *)
Module JobsSpec.
Import Jobs.

(** The first trader of each wallet that is not among [seen], in order. *)
Fixpoint firsts (seen : gset string) (ts : list Trader) : list Trader :=
  match ts with
  | [] => []
  | t :: rest =>
      if bool_decide (wallet t ∈ seen) then firsts seen rest
      else t :: firsts ({[wallet t]} ∪ seen) rest
  end.

(** The addresses a request carries. *)
Definition addressesOf (r : Request) : list string :=
  match r with
  | ListHooks => []
  | Put _ accountAddresses => accountAddresses
  | Post accountAddresses => accountAddresses
  end.

(** The request changes the subscription. *)
Definition subscribes (r : Request) : Prop :=
  match r with
  | ListHooks => False
  | _ => True
  end.

(** The traders a run hands to its caller: none when it throws. *)
Definition returned (out : TraderBot.Result (list Trader) * Run) : list Trader :=
  match out.1 with
  | TraderBot.Ok traders => traders
  | TraderBot.Throw _ => []
  end.

(** The message reports that the list was cut: a truncation, or a summary
    with a positive number of wallets dropped by the cap. *)
Definition reportsCut (n : Note) : Prop :=
  match n with
  | Truncated _ => True
  | Updating _ _ capDropped _ => (0 < capDropped)%nat
  | _ => False
  end.

End JobsSpec.

(** * Sample data used by the worked examples *)
Module Samples.
Import Signals.

Definition q (n : Z) (d : positive) : Qc := Q2Qc (n # d).

(** The arithmetic of the worked examples: their numbers are chosen so
    that no operation on them needs rounding. *)
Definition exactly : Qc → Qc := λ x, x.

(** The arithmetic of JavaScript on a result in the normal range of
    binary64: the nearest number with 53 significant bits, ties to even. *)
Definition binary64 (x : Qc) : Qc :=
  let n := Z.abs (Qnum x) in
  let d := Z.pos (Qden x) in
  if bool_decide (n = 0) then x
  else
    let e0 := Z.log2 n - Z.log2 d in
    let e := if bool_decide (n * 2 ^ Z.max 0 (- e0) < d * 2 ^ Z.max 0 e0)
             then e0 - 1 else e0 in
    let num := n * 2 ^ Z.max 0 (52 - e) in
    let den := d * 2 ^ Z.max 0 (e - 52) in
    let m := num / den in
    let r := num mod den in
    let m' := if bool_decide (den < 2 * r) || (bool_decide (2 * r = den) && Z.odd m)
              then m + 1 else m in
    Q2Qc ((Z.sgn (Qnum x) * m' * 2 ^ Z.max 0 (e - 52))
          # Z.to_pos (2 ^ Z.max 0 (52 - e))).

(** A buy of 100 units at $1.00 by wallet W1 of mint M1, stop-loss -50%. *)
Definition buyA : BuyParams :=
  mkBuy "W1" "M1" (q 100 1) (q (-1) 2) (Some birdeye) (Some (q 1 1)) (Some "TKN").

(** A later buy of 50 units at $2.00 by the same wallet of the same mint. *)
Definition buyB : BuyParams :=
  mkBuy "W1" "M1" (q 50 1) (q (-1) 2) (Some birdeye) (Some (q 2 1)) (Some "TKN").

(** A buy of 50 units at $1.20. *)
Definition buyC : BuyParams :=
  mkBuy "W1" "M1" (q 50 1) (q (-1) 2) (Some birdeye) (Some (q 6 5)) None.

(** A buy of 50 units with no price snapshot. *)
Definition buyNoPrice : BuyParams :=
  mkBuy "W1" "M1" (q 50 1) (q (-1) 2) (Some birdeye) None None.

Definition openA : Signal := newSig 0 buyA.

Definition closedA : Signal := closeBody (fun _ => 5000) "sold_by_wallet" 0 openA.

(** Three buys of M1 by W1, ten seconds apart: 100 at $1.00, 50 with no
    price, 50 at $2.00. *)
Definition mixedRun : list (Z * BuyParams) :=
  [(0, buyA); (10000, buyNoPrice); (20000, buyB)].

(** The two priced buys alone, ten seconds apart. *)
Definition pricedRun : list (Z * BuyParams) := [(0, buyA); (10000, buyB)].

(** Settings whose take-profit threshold (-90%) lies below the stop-loss
    threshold of the sample buys (-50%), as [/set takeprofit -0.9] leaves
    them: a loss between 50% and 90% breaches both. *)
Definition lowTakeProfit : Settings.Settings :=
  Settings.mkSettings (q (-4) 5) (Some (q (-9) 10)) 15000.

(** Collaborators of a monitor cycle in which every mint is priced at
    [price], auto-trading is off and the clock starts at 90 000 ms. *)
Definition pricedAt (price : Qc) : PriceCheck.Env :=
  PriceCheck.mkEnv (λ _, Some price) (λ k, 90000 + Z.of_nat k) false (λ _, false)
    exactly (λ _, true).

(** The same in binary64 arithmetic. *)
Definition pricedInBinary64 (price : Qc) : PriceCheck.Env :=
  PriceCheck.mkEnv (λ _, Some price) (λ k, 90000 + Z.of_nat k) false (λ _, false)
    binary64 (λ _, true).

(** A buy at $5.6 (the binary64 number nearest to it) with a stop-loss of
    -75%, and the signal it opens. *)
Definition buyAtFivePointSix : BuyParams :=
  mkBuy "W1" "M1" (q 100 1) (q (-3) 4) (Some birdeye) (Some (binary64 (q 56 10))) None.

Definition openAtFivePointSix : Signal := newSig 0 buyAtFivePointSix.

(** The same with Telegram out of reach: every notification is rejected. *)
Definition telegramDown (price : Qc) : PriceCheck.Env :=
  PriceCheck.mkEnv (λ _, Some price) (λ k, 90000 + Z.of_nat k) false (λ _, false)
    exactly (λ _, false).

(** A buy of 10 units at $1.00 by wallet W2 of mint M2, stop-loss -50%. *)
Definition buyOther : BuyParams :=
  mkBuy "W2" "M2" (q 10 1) (q (-1) 2) (Some birdeye) (Some (q 1 1)) None.

Definition openOther : Signal := newSig 1000 buyOther.

(** The sweeps of the first five minutes of the process. *)
Definition fiveSweeps : list IndexSpec.CacheOp :=
  [IndexSpec.Sweep 60000; IndexSpec.Sweep 120000; IndexSpec.Sweep 180000;
   IndexSpec.Sweep 240000; IndexSpec.Sweep 300000].

Definition someKey : string := Index.eventKey (Some "5h3sig") "W1" "M1" "BUY" "".

(** The shipped defaults: base slippage 200 bps, maximum 1100 bps. *)
Definition cfgDefault : TraderBot.Config := TraderBot.mkConfig true 200 1100 None.

(** [MAX_SLIPPAGE_BPS=300] in the environment, the rest as shipped. *)
Definition cfgTight : TraderBot.Config := TraderBot.mkConfig true 200 300 None.

Definition idle : TraderBot.World := TraderBot.mkWorld [] ∅.

(** The quote the service gives for a request when it has a route. *)
Definition echoQuote (req : TraderBot.QuoteRequest) : TraderBot.JupQuote :=
  TraderBot.mkQuote (TraderBot.q_inputMint req) (TraderBot.q_outputMint req)
    (TraderBot.q_amount req) 1 1 (TraderBot.q_slippageBps req) (q 0 1) ["hop"].

(** No route for anything. *)
Definition noRoutes : TraderBot.Env :=
  TraderBot.mkEnv (λ _ _, TraderBot.QuoteNotOk)
    (λ _ _, TraderBot.SwapNoTransaction) (λ _ _, TraderBot.Balance 0) exactly.

(** No route for anything, in binary64 arithmetic. *)
Definition noRoutesInBinary64 : TraderBot.Env :=
  TraderBot.mkEnv (λ _ _, TraderBot.QuoteNotOk)
    (λ _ _, TraderBot.SwapNoTransaction) (λ _ _, TraderBot.Balance 0) binary64.

(** No route for the first request, routes and confirmed swaps after it. *)
Definition routeAfterProbe : TraderBot.Env :=
  TraderBot.mkEnv
    (λ n req, if bool_decide (n = 0%nat) then TraderBot.QuoteNotOk
              else TraderBot.QuotePayload false (echoQuote req))
    (λ _ _, TraderBot.SwapConfirmed "5h3sig") (λ _ _, TraderBot.Balance 0) exactly.

(** Routes for everything, and a swap endpoint that answers 400. *)
Definition swapRejected : TraderBot.Env :=
  TraderBot.mkEnv (λ _ req, TraderBot.QuotePayload false (echoQuote req))
    (λ _ _, TraderBot.SwapHttpError "400" "bad request") (λ _ _, TraderBot.Balance 0)
    exactly.

(** The first hop into USDC goes through; the second hop's swap is
    rejected with an http 500. *)
Definition secondHopRejected : TraderBot.Env :=
  TraderBot.mkEnv
    (λ _ req, if String.eqb (TraderBot.q_outputMint req) TraderBot.SOL_MINT
                 && negb (String.eqb (TraderBot.q_inputMint req) TraderBot.USDC_MINT)
              then TraderBot.QuoteNotOk
              else TraderBot.QuotePayload false (echoQuote req))
    (λ _ quote, if String.eqb (TraderBot.inputMint quote) TraderBot.USDC_MINT
                then TraderBot.SwapHttpError "500" "upstream"
                else TraderBot.SwapConfirmed "hop1sig")
    (λ _ _, TraderBot.Balance 42) exactly.

End Samples.

(** * Sample data for the handler, the qualifier and the monitor *)
Module MoreSamples.
Import Samples.

(** Settings with a stop-loss default of -80% and a take-profit of +100%. *)
Definition holdSettings : Settings.Settings :=
  Settings.mkSettings (q (-4) 5) (Some (q 1 1)) 15000.

(** A token whose security answer sets no flag. *)
Definition cleanFlags : Qualifier.SecurityFlags :=
  Qualifier.mkSecurity false false false false false false.

(** Collaborators of the qualifier for which Birdeye vouches for every
    mint, prices it at $1.00 and names it TKN; routes are not required. *)
Definition cleanQualifier : Qualifier.Env :=
  Qualifier.mkEnv (λ _, Qualifier.SecurityAnswer cleanFlags)
    (λ _, Qualifier.RpcError "unreachable") (λ _, Some (q 1 1))
    (λ _, (Some "TKN", None)) (λ _, true) false.

(** The same with a Birdeye that flags every mint as a honeypot. *)
Definition honeypotQualifier : Qualifier.Env :=
  Qualifier.mkEnv
    (λ _, Qualifier.SecurityAnswer (Qualifier.mkSecurity true false false false false false))
    (λ _, Qualifier.RpcError "unreachable") (λ _, Some (q 1 1))
    (λ _, (Some "TKN", None)) (λ _, true) false.

(** Collaborators of the webhook handler with auto-trading off and a clock
    that advances one second per reading. *)
Definition paperTrading : Webhook.Env :=
  Webhook.mkEnv (λ k, 1000 * Z.of_nat k) cleanQualifier holdSettings false (q 1 100)
    (λ _ _, TraderBot.Throw "AUTO_TRADE is disabled")
    (λ _, TraderBot.Ok 0)
    (λ _ _, TraderBot.Throw "nothing to sell: zero balance")
    (λ _, "100000000") (λ _, TraderBot.Ok ()).

(** The state of a process that has just started, with an empty store. *)
Definition startState : Webhook.State := Webhook.mkState Index.noGuards [] 0 [].

(** A swap in which W1 receives 100 units of M1 from a pool. *)
Definition buyEvent : Webhook.SwapEvent :=
  Webhook.mkEvent (Some "SWAP") (Some "W1") None (Some "5h3sig") None None
    [Webhook.mkTransfer (Some "M1") (Some (q 100 1)) (Some "W1") (Some "POOL")].

(** The same collaborators with a Telegram that rejects every message. *)
Definition telegramOff : Webhook.Env :=
  Webhook.mkEnv (λ k, 1000 * Z.of_nat k) cleanQualifier holdSettings false (q 1 100)
    (λ _ _, TraderBot.Throw "AUTO_TRADE is disabled")
    (λ _, TraderBot.Ok 0)
    (λ _ _, TraderBot.Throw "nothing to sell: zero balance")
    (λ _, "100000000") (λ _, TraderBot.Throw "fetch failed").

(** A swap in which W1 sends 100 units of M1 to a pool. *)
Definition sellEvent : Webhook.SwapEvent :=
  Webhook.mkEvent (Some "SWAP") (Some "W1") None (Some "7k9sig") None None
    [Webhook.mkTransfer (Some "M1") (Some (q 100 1)) (Some "POOL") (Some "W1")].

End MoreSamples.

(** Equalities and comparisons between concrete rationals, by evaluation. *)
Ltac by_evaluation := apply (bool_decide_unpack _); vm_compute; exact I.

(** * Properties of the Position Store *)
Section SignalsFacts.
Import Signals SignalsSpec.

Implicit Types (s x : Signal) (l file : list Signal) (i j k n : nat).

(** ** The shared loop *)

Lemma forEachWhere_length cond body l n :
  length (forEachWhere cond body l n).1 = length l.
Proof.
  revert n. induction l as [|s l IH]; intros n; simpl; [done|].
  destruct (cond s); simpl; by rewrite IH.
Qed.

Lemma forEachWhere_count_ge cond body l n :
  (n ≤ (forEachWhere cond body l n).2)%nat.
Proof.
  revert n. induction l as [|s l IH]; intros n; simpl; [lia|].
  destruct (cond s); simpl; [specialize (IH (S n))|specialize (IH n)]; lia.
Qed.

(** When no element satisfies the condition the loop changes nothing. *)
Lemma forEachWhere_none cond body l n :
  (∀ s, s ∈ l → cond s = false) → forEachWhere cond body l n = (l, n).
Proof.
  revert n. induction l as [|s l IH]; intros n H; simpl; [done|].
  rewrite (H s) by apply list_elem_of_here.
  rewrite IH; [done|]. intros y Hy. apply H. by apply list_elem_of_further.
Qed.

(** The counter stays put only if no element satisfied the condition. *)
Lemma forEachWhere_count_same cond body l n :
  (forEachWhere cond body l n).2 = n → ∀ s, s ∈ l → cond s = false.
Proof.
  revert n. induction l as [|s l IH]; intros n H y Hy.
  - by apply elem_of_nil in Hy.
  - simpl in H. destruct (cond s) eqn:Hc; simpl in H.
    + pose proof (forEachWhere_count_ge cond body l (S n)). lia.
    + apply elem_of_cons in Hy as [->|Hy]; [done|]. by apply (IH n).
Qed.

Lemma forEachWhere_count_pos cond body l n i s :
  l !! i = Some s → cond s = true → (n < (forEachWhere cond body l n).2)%nat.
Proof.
  intros Hi Hc.
  destruct (decide ((forEachWhere cond body l n).2 = n)) as [Heq|Hne].
  - assert (cond s = false); [|congruence].
    apply (forEachWhere_count_same cond body l n Heq). apply list_elem_of_lookup. eauto.
  - pose proof (forEachWhere_count_ge cond body l n). lia.
Qed.

(** Each position holds the old element, or its image under the body. *)
Lemma forEachWhere_lookup cond body l n i s :
  l !! i = Some s →
  ∃ s', (forEachWhere cond body l n).1 !! i = Some s'
        ∧ if cond s then ∃ k, (n ≤ k)%nat ∧ s' = body k s else s' = s.
Proof.
  revert n i. induction l as [|y l IH]; intros n i H; [done|].
  destruct i as [|i]; simpl in H.
  - injection H as ->. simpl. destruct (cond s) eqn:Hc; simpl.
    + eexists. split; [done|]. eauto.
    + by eexists.
  - simpl. destruct (cond y); simpl.
    + destruct (IH (S n) i H) as (s' & Hs' & Hb). exists s'. split; [done|].
      destruct (cond s); [|done]. destruct Hb as (k & ? & ->). exists k. split; [lia|done].
    + by apply IH.
Qed.

Lemma forEachWhere_lookup_inv cond body l n i s' :
  (forEachWhere cond body l n).1 !! i = Some s' →
  ∃ s, l !! i = Some s
       ∧ if cond s then ∃ k, (n ≤ k)%nat ∧ s' = body k s else s' = s.
Proof.
  intros H.
  assert (i < length l)%nat as Hlt.
  { rewrite <-(forEachWhere_length cond body l n). by eapply lookup_lt_Some. }
  destruct (lookup_lt_is_Some_2 l i Hlt) as [s Hs].
  destruct (forEachWhere_lookup cond body l n i s Hs) as (s'' & Hs'' & Hb).
  exists s. split; [done|]. rewrite H in Hs''. by injection Hs'' as <-.
Qed.

(** What is saved is what the loop produced. *)
Lemma saveIfChanged_list cond body file :
  (saveIfChanged file (forEachWhere cond body file 0)).2
  = (forEachWhere cond body file 0).1.
Proof.
  unfold saveIfChanged. simpl. case_bool_decide as Hc; [done|].
  rewrite forEachWhere_none; [done|].
  apply (forEachWhere_count_same cond body file 0).
  pose proof (forEachWhere_count_ge cond body file 0). lia.
Qed.

(** ** Closed signals are frozen *)

Lemma forEachWhere_keeps cond body l n i s :
  l !! i = Some s → cond s = false →
  (forEachWhere cond body l n).1 !! i = Some s.
Proof.
  intros Hi Hc. destruct (forEachWhere_lookup cond body l n i s Hi) as (s' & Hs' & Hb).
  rewrite Hc in Hb. by subst.
Qed.

Lemma openFor_closed w m s : status s = closed → bool_decide (openFor w m s) = false.
Proof. intros H. apply bool_decide_eq_false. intros [Ho _]. congruence. Qed.

Lemma upsertBuy_keeps_closed now p file i s :
  file !! i = Some s → status s = closed → (upsertBuy now p file).2 !! i = Some s.
Proof.
  intros Hi Hc. unfold upsertBuy.
  assert ((file ++ [newSig now p]) !! i = Some s) as Hpush.
  { by apply lookup_app_l_Some. }
  destruct (list_find _ file) as [[idx s0]|] eqn:Hf; [|done].
  case_bool_decide; [|done]. simpl.
  apply list_find_Some in Hf as (Hidx & [Ho _] & _).
  rewrite list_lookup_insert_ne; [done|]. intros ->. congruence.
Qed.

Lemma closeByWalletAndMint_keeps_closed clock w m reason file i s :
  file !! i = Some s → status s = closed →
  (closeByWalletAndMint clock w m reason file).2 !! i = Some s.
Proof.
  intros Hi Hc. unfold closeByWalletAndMint. rewrite saveIfChanged_list.
  apply forEachWhere_keeps; [done|]. by apply openFor_closed.
Qed.

Lemma closeByWalletMintWithExit_keeps_closed clock w m px reason file i s :
  file !! i = Some s → status s = closed →
  (closeByWalletMintWithExit clock w m px reason file).2 !! i = Some s.
Proof.
  intros Hi Hc. unfold closeByWalletMintWithExit. rewrite saveIfChanged_list.
  apply forEachWhere_keeps; [done|]. by apply openFor_closed.
Qed.

Lemma updateOpenSignalsStopLoss_keeps_closed newPct file i s :
  file !! i = Some s → status s = closed →
  (updateOpenSignalsStopLoss newPct file).2 !! i = Some s.
Proof.
  intros Hi Hc. unfold updateOpenSignalsStopLoss. rewrite saveIfChanged_list.
  apply forEachWhere_keeps; [done|].
  apply andb_false_iff. left. apply bool_decide_eq_false. congruence.
Qed.

(** [attachTraderBuy] looks its target up by status as well, so a call made
    with the open signal [upsertBuy] returned cannot reach a closed one. *)
Lemma attachTraderBuy_keeps_closed sig jupSig spent file i s :
  status sig = open → file !! i = Some s → status s = closed →
  attachTraderBuy sig jupSig spent file !! i = Some s.
Proof.
  intros Ho Hi Hc. unfold attachTraderBuy.
  destruct (list_find _ file) as [[idx x]|] eqn:Hf; [|done].
  apply list_find_Some in Hf as (Hidx & (_ & _ & _ & Hst) & _).
  rewrite list_lookup_insert_ne; [done|]. intros ->. congruence.
Qed.

(** The one thing [attachTraderBuy] assigns is [trader], on the first signal
    that matches the one it is given, status included. *)
Lemma attachTraderBuy_lookup sig jupSig spent file i s :
  file !! i = Some s →
  attachTraderBuy sig jupSig spent file !! i = Some s
  ∨ (sameBuyTarget sig s
     ∧ attachTraderBuy sig jupSig spent file !! i
       = Some (StoreSpec.withBuy jupSig spent s)).
Proof.
  intros Hi. unfold attachTraderBuy.
  destruct (list_find _ file) as [[idx x]|] eqn:Hf; [|by left].
  apply list_find_Some in Hf as (Hidx & Hx & _).
  destruct (decide (idx = i)) as [->|Hne].
  - right. rewrite Hi in Hidx. injection Hidx as <-. split; [done|].
    rewrite list_lookup_insert_eq by by eapply lookup_lt_Some.
    unfold StoreSpec.withBuy. by destruct spent.
  - left. by rewrite list_lookup_insert_ne.
Qed.

(** The one thing [attachTraderSell] assigns is [trader.sellSigs]. *)
Lemma attachTraderSell_lookup sig jupSig file i s :
  file !! i = Some s →
  attachTraderSell sig jupSig file !! i = Some s
  ∨ attachTraderSell sig jupSig file !! i
    = Some (set_trader
              (Some (mkTrader (buySigs (default emptyTrader (trader s)))
                       (Some (default [] (sellSigs (default emptyTrader (trader s)))
                              ++ [jupSig]))
                       (solSpent (default emptyTrader (trader s))))) s).
Proof.
  intros Hi. unfold attachTraderSell.
  destruct (list_find _ file) as [[idx x]|] eqn:Hf; [|by left].
  apply list_find_Some in Hf as (Hidx & _ & _).
  destruct (decide (idx = i)) as [->|Hne].
  - right. rewrite Hi in Hidx. injection Hidx as <-.
    apply list_lookup_insert_eq. by eapply lookup_lt_Some.
  - left. by rewrite list_lookup_insert_ne.
Qed.

(** ** Closing *)

Lemma closeByWalletAndMint_nothing_open clock w m reason file :
  (∀ s, s ∈ file → wallet s = w → mint s = m → status s = closed) →
  closeByWalletAndMint clock w m reason file = (0%nat, file).
Proof.
  intros H. unfold closeByWalletAndMint.
  rewrite forEachWhere_none; [done|].
  intros s Hs. apply bool_decide_eq_false. intros (Ho & Hw & Hm).
  specialize (H s Hs Hw Hm). congruence.
Qed.

Lemma closeBody_status clock reason k s : status (closeBody clock reason k s) = closed.
Proof. done. Qed.

Lemma exitBody_status clock px reason k s : status (exitBody clock px reason k s) = closed.
Proof.
  unfold exitBody. simpl. destruct (entryPriceUsd s); [|done]. by case_bool_decide.
Qed.

(** After a close, no signal of the pair is open. *)
Lemma closeByWalletAndMint_closes clock w m reason file s :
  s ∈ (closeByWalletAndMint clock w m reason file).2 →
  wallet s = w → mint s = m → status s = closed.
Proof.
  unfold closeByWalletAndMint. rewrite saveIfChanged_list.
  intros Hs Hw Hm. apply list_elem_of_lookup in Hs as [i Hi].
  apply forEachWhere_lookup_inv in Hi as (s0 & _ & Hb).
  case_bool_decide as Hc.
  - destruct Hb as (k & _ & ->). apply closeBody_status.
  - subst s0. destruct (status s) eqn:Hst; [|done]. by destruct Hc.
Qed.

(** ** At most one open signal per pair *)

(** A store whose open signals all sit where an open signal of the same
    pair sat before inherits the invariant. *)
Lemma oneOpenPerPair_refine l l' :
  (∀ i s', l' !! i = Some s' → status s' = open →
     ∃ s, l !! i = Some s ∧ status s = open ∧ wallet s = wallet s' ∧ mint s = mint s') →
  oneOpenPerPair l → oneOpenPerPair l'.
Proof.
  intros Href Hl i j si sj Hi Hj Hoi Hoj Hw Hm.
  destruct (Href i si Hi Hoi) as (ti & Hti & ? & ? & ?).
  destruct (Href j sj Hj Hoj) as (tj & Htj & ? & ? & ?).
  apply (Hl i j ti tj); congruence.
Qed.

Lemma oneOpenPerPair_forEachWhere cond body l n :
  (∀ k s, wallet (body k s) = wallet s ∧ mint (body k s) = mint s
          ∧ (status (body k s) = open → status s = open)) →
  oneOpenPerPair l → oneOpenPerPair (forEachWhere cond body l n).1.
Proof.
  intros Hbody. apply oneOpenPerPair_refine. intros i s' Hi Ho.
  apply forEachWhere_lookup_inv in Hi as (s & Hs & Hb). exists s. split; [done|].
  destruct (cond s).
  - destruct Hb as (k & _ & ->). destruct (Hbody k s) as (? & ? & ?). auto.
  - by subst.
Qed.

Lemma oneOpenPerPair_insert (f : Signal → Signal) l i x :
  l !! i = Some x →
  wallet (f x) = wallet x → mint (f x) = mint x → status (f x) = status x →
  oneOpenPerPair l → oneOpenPerPair (<[i := f x]> l).
Proof.
  intros Hi Hw Hm Hs. apply oneOpenPerPair_refine. intros j s' Hj Ho.
  apply list_lookup_insert_Some in Hj as [(-> & <- & _)|(Hne & Hj)].
  - exists x. repeat split; [done|congruence..].
  - by exists s'.
Qed.

Lemma mergeInto_key now p s :
  wallet (mergeInto now p s) = wallet s ∧ mint (mergeInto now p s) = mint s
  ∧ status (mergeInto now p s) = status s.
Proof.
  unfold mergeInto.
  destruct (nonEmpty (p_symbol p) && negb (nonEmpty _));
    destruct (bool_decide (is_Some (p_source p)) && negb (bool_decide _)); done.
Qed.

Lemma upsertBuy_keeps_oneOpen now p file :
  freshAt now p file → oneOpenPerPair file → oneOpenPerPair (upsertBuy now p file).2.
Proof.
  intros Hfresh Hinv. unfold upsertBuy.
  destruct (list_find _ file) as [[idx s]|] eqn:Hf.
  - apply list_find_Some in Hf as (Hidx & Ho & _).
    rewrite bool_decide_eq_true_2 by exact (Hfresh idx s Hidx Ho). simpl.
    destruct (mergeInto_key now p s) as (? & ? & ?).
    by apply (oneOpenPerPair_insert (mergeInto now p)).
  - simpl. pose proof (proj1 (list_find_None _ file) Hf) as Hnone.
    rewrite Forall_lookup in Hnone.
    intros i j si sj Hi Hj Hoi Hoj Hw Hm.
    apply lookup_snoc_Some in Hi as [[Hli Hi]|[-> <-]];
      apply lookup_snoc_Some in Hj as [[Hlj Hj]|[-> <-]].
    + by apply (Hinv i j si sj).
    + exfalso. apply (Hnone i si Hi). by repeat split.
    + exfalso. apply (Hnone j sj Hj). by repeat split.
    + done.
Qed.

Lemma attachTraderBuy_keeps_oneOpen sig jupSig spent file :
  oneOpenPerPair file → oneOpenPerPair (attachTraderBuy sig jupSig spent file).
Proof.
  intros Hinv. unfold attachTraderBuy.
  destruct (list_find _ file) as [[idx x]|] eqn:Hf; [|done].
  apply list_find_Some in Hf as (Hidx & _ & _).
  by apply (oneOpenPerPair_insert (set_trader _)).
Qed.

Lemma attachTraderSell_keeps_oneOpen sig jupSig file :
  oneOpenPerPair file → oneOpenPerPair (attachTraderSell sig jupSig file).
Proof.
  intros Hinv. unfold attachTraderSell.
  destruct (list_find _ file) as [[idx x]|] eqn:Hf; [|done].
  apply list_find_Some in Hf as (Hidx & _ & _).
  by apply (oneOpenPerPair_insert (set_trader _)).
Qed.

Lemma closeByWalletAndMint_keeps_oneOpen clock w m reason file :
  oneOpenPerPair file → oneOpenPerPair (closeByWalletAndMint clock w m reason file).2.
Proof.
  intros Hinv. unfold closeByWalletAndMint. rewrite saveIfChanged_list.
  apply oneOpenPerPair_forEachWhere; [|done]. intros k s. by repeat split.
Qed.

Lemma closeByWalletMintWithExit_keeps_oneOpen clock w m px reason file :
  oneOpenPerPair file →
  oneOpenPerPair (closeByWalletMintWithExit clock w m px reason file).2.
Proof.
  intros Hinv. unfold closeByWalletMintWithExit. rewrite saveIfChanged_list.
  apply oneOpenPerPair_forEachWhere; [|done]. intros k s.
  rewrite exitBody_status. unfold exitBody. simpl.
  destruct (entryPriceUsd s); [case_bool_decide|]; by repeat split.
Qed.

Lemma updateOpenSignalsStopLoss_keeps_oneOpen newPct file :
  oneOpenPerPair file → oneOpenPerPair (updateOpenSignalsStopLoss newPct file).2.
Proof.
  intros Hinv. unfold updateOpenSignalsStopLoss. rewrite saveIfChanged_list.
  apply oneOpenPerPair_forEachWhere; [|done]. intros k s. by repeat split.
Qed.

(** The guard of the webhook handler: with no open signal for the mint
    under any wallet, [upsertBuy] has nothing to merge with. *)
Lemma hasOpenSignalForMint_false_fresh now p file :
  hasOpenSignalForMint (p_mint p) file = false → freshAt now p file.
Proof.
  intros Hg i s Hi (Ho & _ & Hm). exfalso.
  unfold hasOpenSignalForMint in Hg.
  assert (existsb (λ s, bool_decide (status s = open ∧ mint s = p_mint p)) file = true)
    as Ht; [|congruence].
  apply existsb_exists. exists s. split.
  - apply list_elem_of_In, list_elem_of_lookup. eauto.
  - by apply bool_decide_eq_true.
Qed.

(** ** Merging buys *)

Lemma priced_pos pr : (0 < pr)%Qc → priced (Some pr) = true.
Proof.
  intros H. unfold priced. apply negb_true_iff, bool_decide_eq_false.
  intros ->. by apply (Qclt_not_eq _ _ H).
Qed.

Lemma mergeVWAP_unpriced A a : mergeVWAP A None a None = None.
Proof. done. Qed.

Lemma mergeVWAP_priced A pr a pp :
  (0 < pr)%Qc → (0 < pp)%Qc → (0 < A)%Qc → (0 < a)%Qc →
  mergeVWAP A (Some pr) a (Some pp) = Some ((pr * A + pp * a) / (A + a))%Qc.
Proof.
  intros Hpr Hpp HA Ha. unfold mergeVWAP.
  rewrite !priced_pos by done. simpl.
  rewrite bool_decide_eq_false_2; [done|].
  apply Qclt_not_le. by apply Qcplus_pos_pos.
Qed.

(** An unpriced buy leaves a known entry price as it is. *)
Lemma mergeVWAP_keeps A pr a :
  pr ≠ 0%Qc → mergeVWAP A (Some pr) a None = Some pr.
Proof.
  intros H. unfold mergeVWAP, priced. by rewrite bool_decide_eq_false_2.
Qed.

Lemma mergeInto_fields now p s :
  amount (mergeInto now p s) = (amount s + p_amount p)%Qc
  ∧ occurrences (mergeInto now p s) = Some (default 1 (occurrences s) + 1)
  ∧ updatedTs (mergeInto now p s) = Some now
  ∧ entryPriceUsd (mergeInto now p s)
    = mergeVWAP (amount s) (entryPriceUsd s) (p_amount p) (p_priceUsd p).
Proof.
  unfold mergeInto.
  destruct (nonEmpty (p_symbol p) && negb (nonEmpty _));
    destruct (bool_decide (is_Some (p_source p)) && negb (bool_decide _)); done.
Qed.

Lemma list_find_insert_same {A} (P : A → Prop) `{∀ a, Decision (P a)}
    (xs : list A) i u v :
  list_find P xs = Some (i, u) → P v → list_find P (<[i := v]> xs) = Some (i, v).
Proof.
  intros Hf Hy. apply list_find_Some in Hf as (Hi & _ & Hbefore).
  apply list_find_Some. split; [|split; [done|]].
  - apply list_lookup_insert_eq. by eapply lookup_lt_Some.
  - intros j z Hj Hlt. rewrite list_lookup_insert_ne in Hj by lia. by eapply Hbefore.
Qed.

(** A buy that finds the open signal of its pair inside the window merges. *)
Lemma upsertBuy_merges now p file idx s tlast :
  list_find (openFor (p_wallet p) (p_mint p)) file = Some (idx, s) →
  updatedTs s = Some tlast → now - tlast ≤ MERGE_WINDOW_MS →
  upsertBuy now p file = (mergeInto now p s, <[idx := mergeInto now p s]> file).
Proof.
  intros Hf Hts Hwin. unfold upsertBuy. rewrite Hf, Hts. simpl.
  by rewrite bool_decide_eq_true_2.
Qed.

(** A buy that finds no open signal of its pair appends a new one. *)
Lemma upsertBuy_creates now p file :
  list_find (openFor (p_wallet p) (p_mint p)) file = None →
  upsertBuy now p file = (newSig now p, file ++ [newSig now p]).
Proof. intros Hf. unfold upsertBuy. by rewrite Hf. Qed.

(** Once the pair has an open signal, a run of buys inside the window
    keeps merging into it. *)
Lemma upsertAll_merges w m evs : ∀ file idx s tlast (c : Z),
  list_find (openFor w m) file = Some (idx, s) →
  updatedTs s = Some tlast → occurrences s = Some c →
  sameBuyer w m evs → inWindow tlast evs →
  ∃ s', (upsertAll evs file (Some s)).1 = Some s'
    ∧ amount s' = (amount s + sumAmounts evs)%Qc
    ∧ occurrences s' = Some (c + Z.of_nat (length evs))
    ∧ (entryPriceUsd s = None → Forall unpricedEvent evs → entryPriceUsd s' = None)
    ∧ (∀ pr, entryPriceUsd s = Some pr → (0 < pr)%Qc → (0 < amount s)%Qc →
         Forall pricedEvent evs →
         entryPriceUsd s'
         = Some ((pr * amount s + pricedValue evs) / (amount s + sumAmounts evs))%Qc).
Proof.
  induction evs as [|[now p] evs IH]; intros file idx s tlast c Hf Hts Hocc Hsame Hwin.
  - exists s. simpl. rewrite !Qcplus_0_r, Z.add_0_r. repeat split; [done..|].
    intros pr Hpr Hpos HA _. rewrite Hpr. f_equal. field.
    intros Hz. rewrite Hz in HA. by apply (Qclt_not_eq _ _ HA).
  - apply Forall_cons in Hsame as [[Hw Hm] Hsame]. simpl in Hw, Hm, Hwin.
    destruct Hwin as [Hgap Hwin]. subst w m.
    destruct (mergeInto_fields now p s) as (Ham & Hoc & Hup & Hen).
    destruct (mergeInto_key now p s) as (Hkw & Hkm & Hks).
    pose proof Hf as Hopen. apply list_find_Some in Hopen as (_ & (Hso & Hsw & Hsm) & _).
    simpl. rewrite (upsertBuy_merges now p file idx s tlast) by done. simpl.
    destruct (IH (<[idx := mergeInto now p s]> file) idx (mergeInto now p s) now (c + 1))
      as (s' & Hret & Ham' & Hoc' & Hnone & Hsome); [| |by rewrite Hoc, Hocc|done..|].
    { apply (list_find_insert_same _ _ _ s); [done|].
      repeat split; congruence. }
    { done. }
    exists s'. split; [done|]. split; [|split; [|split]].
    + rewrite Ham', Ham. ring.
    + rewrite Hoc'. f_equal. lia.
    + intros Hn Hall. apply Forall_cons in Hall as [Hp Hall]. unfold unpricedEvent in Hp.
      simpl in Hp. apply Hnone; [|done]. by rewrite Hen, Hn, Hp.
    + intros pr Hpr Hpos HA Hall. apply Forall_cons in Hall as [[Ha (pp & Hpp & Hppos)] Hall].
      simpl in Ha, Hpp.
      assert (0 < amount s + p_amount p)%Qc as Htot by by apply Qcplus_pos_pos.
      assert (0 < pr * amount s + pp * p_amount p)%Qc as Hval.
      { apply Qcplus_pos_pos; by apply Qcmult_pos_pos. }
      rewrite (Hsome ((pr * amount s + pp * p_amount p) / (amount s + p_amount p))%Qc).
      * f_equal. rewrite Ham. rewrite Hpp.
        assert (amount s + p_amount p ≠ 0)%Qc as Hne.
        { intros Hz. rewrite Hz in Htot. by apply (Qclt_not_eq _ _ Htot). }
        assert (amount s + p_amount p + sumAmounts evs
                = amount s + (p_amount p + sumAmounts evs))%Qc as -> by ring.
        f_equal. field. done.
      * rewrite Hen, Hpr, Hpp. by apply mergeVWAP_priced.
      * apply Qcmult_pos_pos; [done|]. by apply Qcinv_pos.
      * by rewrite Ham.
      * done.
Qed.

Lemma sumAmounts_priced evs : Forall pricedEvent evs → pricedVolume evs = sumAmounts evs.
Proof.
  induction 1 as [|e evs [_ (pr & Hpr & _)] _ IH]; [done|].
  simpl. by rewrite Hpr, IH.
Qed.

Lemma vwapPriced_unpriced evs : Forall unpricedEvent evs → vwapPriced evs = None.
Proof.
  intros H. unfold vwapPriced.
  rewrite (proj2 (forallb_forall _ evs)); [done|].
  intros e He. apply list_elem_of_In in He. rewrite Forall_forall in H.
  rewrite (H e He). done.
Qed.

Lemma vwapPriced_priced e evs :
  Forall pricedEvent (e :: evs) →
  vwapPriced (e :: evs) = Some (pricedValue (e :: evs) / sumAmounts (e :: evs))%Qc.
Proof.
  intros H. rewrite <-(sumAmounts_priced _ H). unfold vwapPriced.
  apply Forall_cons in H as [[_ (pr & Hpr & _)] _]. simpl. by rewrite Hpr.
Qed.

(** A run of buys for one pair, starting from a store with no open signal
    of that pair. *)
Lemma upsertAll_run w m file t0 p0 rest :
  Forall (λ s, ¬ openFor w m s) file →
  sameBuyer w m ((t0, p0) :: rest) → inWindow t0 rest →
  ∃ s, (upsertAll ((t0, p0) :: rest) file None).1 = Some s
    ∧ amount s = sumAmounts ((t0, p0) :: rest)
    ∧ occurrences s = Some (Z.of_nat (length ((t0, p0) :: rest)))
    ∧ (Forall unpricedEvent ((t0, p0) :: rest) → entryPriceUsd s = None)
    ∧ (Forall pricedEvent ((t0, p0) :: rest) →
         entryPriceUsd s
         = Some (pricedValue ((t0, p0) :: rest) / sumAmounts ((t0, p0) :: rest))%Qc).
Proof.
  intros Hnone Hsame Hwin.
  pose proof Hsame as Hsame'. apply Forall_cons in Hsame' as [[Hw Hm] Hrest].
  simpl in Hw, Hm. subst w m.
  apply (proj2 (list_find_None _ file)) in Hnone.
  simpl. rewrite (upsertBuy_creates t0 p0 file Hnone). simpl.
  destruct (upsertAll_merges (p_wallet p0) (p_mint p0) rest (file ++ [newSig t0 p0])
              (length file) (newSig t0 p0) t0 1)
    as (s & Hret & Ham & Hoc & Hun & Hpr); [|done..|].
  { rewrite list_find_app_r by done. simpl.
    rewrite decide_True by by repeat split. done. }
  exists s. split; [done|]. split; [done|]. split; [|split].
  - rewrite Hoc. f_equal. lia.
  - intros Hall. apply Forall_cons in Hall as [H0 Hall]. by apply Hun.
  - intros Hall. apply Forall_cons in Hall as [[Ha (pr & Hp0 & Hpos)] Hall].
    simpl in Ha, Hp0. rewrite (Hpr pr); simpl; rewrite ?Hp0; done.
Qed.

(** ** A run of merges, as the code computes it *)

Lemma mergedFrom_amount a pr evs : (mergedFrom a pr evs).1 = runningAmount a evs.
Proof.
  revert a pr. induction evs as [|e evs IH]; intros a pr; simpl; [done|]. apply IH.
Qed.

Lemma mergedFrom_app a pr evs more :
  mergedFrom a pr (evs ++ more)
  = mergedFrom (mergedFrom a pr evs).1 (mergedFrom a pr evs).2 more.
Proof.
  revert a pr. induction evs as [|e evs IH]; intros a pr; simpl; [done|]. apply IH.
Qed.

(** Unpriced buys leave an undefined entry price undefined ... *)
Lemma mergedFrom_none a evs :
  Forall unpricedEvent evs → (mergedFrom a None evs).2 = None.
Proof.
  revert a. induction evs as [|e evs IH]; intros a Hall; simpl; [done|].
  apply Forall_cons in Hall as [He Hall]. unfold unpricedEvent in He. rewrite He.
  by apply IH.
Qed.

(** ... and a known one as it is, while their amounts add up. *)
Lemma mergedFrom_keeps a pr evs :
  pr ≠ 0%Qc → Forall unpricedEvent evs → (mergedFrom a (Some pr) evs).2 = Some pr.
Proof.
  intros Hpr. revert a. induction evs as [|e evs IH]; intros a Hall; simpl; [done|].
  apply Forall_cons in Hall as [He Hall]. unfold unpricedEvent in He. rewrite He.
  rewrite mergeVWAP_keeps by done. by apply IH.
Qed.

(** Two priced sides and a positive total: the weighted expression. *)
Lemma mergeVWAP_weighted A pr a pp :
  pr ≠ 0%Qc → pp ≠ 0%Qc → (0 < A + a)%Qc →
  mergeVWAP A (Some pr) a (Some pp) = Some ((pr * A + pp * a) / (A + a))%Qc.
Proof.
  intros Hpr Hpp Htot. unfold mergeVWAP, priced.
  rewrite !bool_decide_eq_false_2 by done. simpl.
  rewrite bool_decide_eq_false_2; [done|]. by apply Qclt_not_le.
Qed.

(** Once the pair has an open signal, a run of buys inside the window keeps
    merging into it, at its position. *)
Lemma upsertAll_merged w m evs : ∀ file idx s tlast (c : Z),
  list_find (openFor w m) file = Some (idx, s) →
  updatedTs s = Some tlast → occurrences s = Some c →
  sameBuyer w m evs → inWindow tlast evs →
  ∃ s', upsertAll evs file (Some s) = (Some s', <[idx := s']> file)
    ∧ openFor w m s'
    ∧ occurrences s' = Some (c + Z.of_nat (length evs))
    ∧ (amount s', entryPriceUsd s') = mergedFrom (amount s) (entryPriceUsd s) evs.
Proof.
  induction evs as [|[now p] evs IH]; intros file idx s tlast c Hf Hts Hocc Hsame Hwin.
  - exists s. simpl. apply list_find_Some in Hf as (Hidx & Ho & _).
    rewrite list_insert_id by done. by rewrite Z.add_0_r.
  - apply Forall_cons in Hsame as [[Hw Hm] Hsame]. simpl in Hw, Hm, Hwin.
    destruct Hwin as [Hgap Hwin]. subst w m.
    destruct (mergeInto_fields now p s) as (Ham & Hoc & Hup & Hen).
    destruct (mergeInto_key now p s) as (Hkw & Hkm & Hks).
    pose proof Hf as Hopen. apply list_find_Some in Hopen as (_ & (Hso & Hsw & Hsm) & _).
    simpl. rewrite (upsertBuy_merges now p file idx s tlast) by done. simpl.
    destruct (IH (<[idx := mergeInto now p s]> file) idx (mergeInto now p s) now (c + 1))
      as (s' & Hret & Ho' & Hoc' & Hm'); [| |by rewrite Hoc, Hocc|done..|].
    { apply (list_find_insert_same _ _ _ s); [done|].
      repeat split; congruence. }
    { done. }
    exists s'. rewrite Hret, list_insert_insert_eq. split; [done|]. split; [done|]. split.
    + rewrite Hoc'. f_equal. lia.
    + by rewrite Hm', Ham, Hen.
Qed.

(** ** Open signals carry no exit fields *)

Lemma openAreFresh_forEachWhere cond body l n :
  (∀ k s, status (body k s) = open → status s = open ∧ (neverClosed s → neverClosed (body k s))) →
  openAreFresh l → openAreFresh (forEachWhere cond body l n).1.
Proof.
  intros Hbody Hl i s' Hi Ho.
  apply forEachWhere_lookup_inv in Hi as (s & Hs & Hb). destruct (cond s).
  - destruct Hb as (k & _ & ->). destruct (Hbody k s Ho) as [Hso Hkeep].
    apply Hkeep. by apply (Hl i).
  - subst s'. by apply (Hl i).
Qed.

Lemma openAreFresh_insert (f : Signal → Signal) l i x :
  l !! i = Some x → (status (f x) = open → status x = open) →
  (neverClosed x → neverClosed (f x)) →
  openAreFresh l → openAreFresh (<[i := f x]> l).
Proof.
  intros Hi Hst Hkeep Hl j s' Hj Ho.
  apply list_lookup_insert_Some in Hj as [(<- & <- & _)|(Hne & Hj)].
  - apply Hkeep, (Hl i x Hi). by apply Hst.
  - by apply (Hl j).
Qed.

Lemma mergeInto_neverClosed now p s : neverClosed s → neverClosed (mergeInto now p s).
Proof.
  unfold mergeInto, neverClosed.
  destruct (nonEmpty (p_symbol p) && negb (nonEmpty _));
    destruct (bool_decide (is_Some (p_source p)) && negb (bool_decide _)); done.
Qed.

Lemma Built_openAreFresh file : Built file → openAreFresh file.
Proof.
  induction 1 as [|now p file _ IH|sig jupSig spent file _ IH|sig jupSig file _ IH
                  |clock w m reason file _ IH|clock w m px reason file _ IH
                  |newPct file _ IH].
  - intros i s Hi. done.
  - unfold upsertBuy.
    assert (openAreFresh (file ++ [newSig now p])) as Hpush.
    { intros i s Hi Ho. apply lookup_snoc_Some in Hi as [[_ Hi]|[_ <-]];
        [by apply (IH i)|done]. }
    destruct (list_find _ file) as [[idx s]|] eqn:Hf; [|done].
    case_bool_decide; [|done]. simpl.
    apply list_find_Some in Hf as (Hidx & _ & _).
    apply (openAreFresh_insert (mergeInto now p)); [done| | |done].
    + by destruct (mergeInto_key now p s) as (_ & _ & ->).
    + apply mergeInto_neverClosed.
  - unfold attachTraderBuy.
    destruct (list_find _ file) as [[idx x]|] eqn:Hf; [|done].
    apply list_find_Some in Hf as (Hidx & _ & _).
    by apply (openAreFresh_insert (set_trader _)).
  - unfold attachTraderSell.
    destruct (list_find _ file) as [[idx x]|] eqn:Hf; [|done].
    apply list_find_Some in Hf as (Hidx & _ & _).
    by apply (openAreFresh_insert (set_trader _)).
  - unfold closeByWalletAndMint. rewrite saveIfChanged_list.
    apply openAreFresh_forEachWhere; [|done]. intros k s Ho. done.
  - unfold closeByWalletMintWithExit. rewrite saveIfChanged_list.
    apply openAreFresh_forEachWhere; [|done]. intros k s Ho.
    by rewrite exitBody_status in Ho.
  - unfold updateOpenSignalsStopLoss. rewrite saveIfChanged_list.
    apply openAreFresh_forEachWhere; [|done]. intros k s Ho. done.
Qed.

End SignalsFacts.

Section SignalsClaims.
Import Signals SignalsSpec Samples.

(** C1, as the code has it.  Every operation of the Position Store keeps
    "at most one open signal per (wallet, mint)" except one case of
    [upsertBuy]: the buy is merged, and the invariant kept, when the open
    signal of the pair was last updated within the 60-second merge window
    (and there is nothing to merge with, hence nothing to break, when the
    webhook handler's guard [hasOpenSignalForMint] found no open signal for
    the mint).  The case left out, an open signal older than the window, is
    [upsertBuy_opens_second_signal] below. *)
Theorem one_open_per_pair_kept :
  ∀ (file : list Signal), oneOpenPerPair file →
    (∀ now p, freshAt now p file → oneOpenPerPair (upsertBuy now p file).2)
    ∧ (∀ now p, hasOpenSignalForMint (p_mint p) file = false →
         oneOpenPerPair (upsertBuy now p file).2)
    ∧ (∀ clock w m reason, oneOpenPerPair (closeByWalletAndMint clock w m reason file).2)
    ∧ (∀ clock w m px reason,
         oneOpenPerPair (closeByWalletMintWithExit clock w m px reason file).2)
    ∧ (∀ newPct, oneOpenPerPair (updateOpenSignalsStopLoss newPct file).2)
    ∧ (∀ sig jupSig spent, oneOpenPerPair (attachTraderBuy sig jupSig spent file))
    ∧ (∀ sig jupSig, oneOpenPerPair (attachTraderSell sig jupSig file)).
Proof.
  intros file Hinv. repeat split; intros.
  - by apply upsertBuy_keeps_oneOpen.
  - apply upsertBuy_keeps_oneOpen; [|done]. by apply hasOpenSignalForMint_false_fresh.
  - by apply closeByWalletAndMint_keeps_oneOpen.
  - by apply closeByWalletMintWithExit_keeps_oneOpen.
  - by apply updateOpenSignalsStopLoss_keeps_oneOpen.
  - by apply attachTraderBuy_keeps_oneOpen.
  - by apply attachTraderSell_keeps_oneOpen.
Qed.

Lemma oneOpenPerPair_singleton (s : Signal) : oneOpenPerPair [s].
Proof.
  intros i j si sj Hi Hj _ _ _ _.
  apply list_lookup_singleton_Some in Hi as [-> _].
  by apply list_lookup_singleton_Some in Hj as [-> _].
Qed.

Lemma freshAt_sample : freshAt 10000 buyB [openA].
Proof.
  intros i s Hi _. apply list_lookup_singleton_Some in Hi as [_ <-].
  unfold lastUpdate, MERGE_WINDOW_MS. simpl. lia.
Qed.

Lemma one_open_per_pair_kept_witness :
  oneOpenPerPair [openA] ∧ freshAt 10000 buyB [openA]
  ∧ oneOpenPerPair (upsertBuy 10000 buyB [openA]).2.
Proof.
  split; [apply oneOpenPerPair_singleton|]. split; [apply freshAt_sample|].
  exact (proj1 (one_open_per_pair_kept [openA] (oneOpenPerPair_singleton openA))
           10000 buyB freshAt_sample).
Defined.

(** C1 as stated fails: wallet W1 holds an open signal for M1 last updated
    at time 0; its next buy of M1 arrives at 70 000 ms, outside the 60 000 ms
    window.  [upsertBuy] does not merge and appends a second open signal
    for the same pair. *)
Lemma upsertBuy_opens_second_signal :
  oneOpenPerPair [openA]
  ∧ (upsertBuy 70000 buyB [openA]).2 = [openA; newSig 70000 buyB]
  ∧ ¬ oneOpenPerPair (upsertBuy 70000 buyB [openA]).2.
Proof.
  split; [apply oneOpenPerPair_singleton|].
  assert ((upsertBuy 70000 buyB [openA]).2 = [openA; newSig 70000 buyB]) as Heq
    by reflexivity.
  split; [exact Heq|]. rewrite Heq. intros H.
  by specialize (H 0%nat 1%nat openA (newSig 70000 buyB)
                   eq_refl eq_refl eq_refl eq_refl eq_refl eq_refl).
Qed.

(** C2, as the code has it.  Take a run of buys by one wallet of one mint,
    each within the merge window of the one before, starting where the
    pair has no open signal.  The run leaves one signal, appended to the
    store and returned by the last [upsertBuy]: open, of the pair, with
    [occurrences] equal to the number of events.  Its [amount] and
    [entryPriceUsd] are the ones of [mergedFrom]: the amounts added one by
    one in the order of arrival, and the price folded through [mergeVWAP],
    whose weight for the old price is the whole amount reached so far.  So
    when no event is priced [entryPriceUsd] is undefined; and when a priced
    buy is followed by unpriced ones and then by a priced one, the unpriced
    amounts are part of the weight A of the old price in
    (old * A + new * a) / (A + a): they are not left out of the weighting,
    see [mixed_run_is_not_priced_vwap].  The statement applies no identity
    of arithmetic to the code's expressions. *)
Theorem merged_buys_amount_and_vwap :
  ∀ (w m : string) (file : list Signal) (t0 : Z) (p0 : BuyParams)
    (rest : list (Z * BuyParams)),
    Forall (λ s, ¬ openFor w m s) file →
    sameBuyer w m ((t0, p0) :: rest) → inWindow t0 rest →
    ∃ s, upsertAll ((t0, p0) :: rest) file None = (Some s, file ++ [s])
      ∧ openFor w m s
      ∧ occurrences s = Some (Z.of_nat (length ((t0, p0) :: rest)))
      ∧ (amount s, entryPriceUsd s) = mergedFrom (p_amount p0) (p_priceUsd p0) rest
      ∧ amount s = runningAmount (p_amount p0) rest
      ∧ (Forall unpricedEvent ((t0, p0) :: rest) → entryPriceUsd s = None)
      ∧ (∀ unpr tn pn pr0 prn,
           rest = unpr ++ [(tn, pn)] → Forall unpricedEvent unpr →
           p_priceUsd p0 = Some pr0 → pr0 ≠ 0%Qc →
           p_priceUsd pn = Some prn → prn ≠ 0%Qc →
           (0 < runningAmount (p_amount p0) unpr + p_amount pn)%Qc →
           entryPriceUsd s
           = Some ((pr0 * runningAmount (p_amount p0) unpr + prn * p_amount pn)
                   / (runningAmount (p_amount p0) unpr + p_amount pn))%Qc).
Proof.
  intros w m file t0 p0 rest Hnone Hsame Hwin.
  pose proof Hsame as Hsame'. apply Forall_cons in Hsame' as [[Hw Hm] Hrest].
  simpl in Hw, Hm. subst w m.
  apply (proj2 (list_find_None _ file)) in Hnone.
  simpl. rewrite (upsertBuy_creates t0 p0 file Hnone). simpl.
  destruct (upsertAll_merged (p_wallet p0) (p_mint p0) rest (file ++ [newSig t0 p0])
              (length file) (newSig t0 p0) t0 1)
    as (s & Hret & Ho & Hoc & Hm); [|done..|].
  { rewrite list_find_app_r by done. simpl.
    rewrite decide_True by by repeat split. done. }
  simpl in Hm. exists s. rewrite Hret.
  rewrite insert_app_r_alt, Nat.sub_diag by lia. simpl.
  split; [done|]. split; [done|]. split; [rewrite Hoc; f_equal; lia|].
  split; [done|]. split; [|split].
  - by rewrite <-(mergedFrom_amount _ (p_priceUsd p0)), <-Hm.
  - intros Hall. apply Forall_cons in Hall as [H0 Hall]. unfold unpricedEvent in H0.
    simpl in H0. assert (entryPriceUsd s = (mergedFrom (p_amount p0) (p_priceUsd p0) rest).2)
      as -> by by rewrite <-Hm.
    rewrite H0. by apply mergedFrom_none.
  - intros unpr tn pn pr0 prn -> Hun Hp0 Hpr0 Hpn Hprn Htot.
    assert (entryPriceUsd s
            = (mergedFrom (p_amount p0) (p_priceUsd p0) (unpr ++ [(tn, pn)])).2)
      as -> by by rewrite <-Hm.
    rewrite mergedFrom_app, mergedFrom_amount, Hp0, mergedFrom_keeps by done.
    simpl. rewrite Hpn. by apply mergeVWAP_weighted.
Qed.

Lemma pricedRun_sameBuyer : sameBuyer "W1" "M1" pricedRun.
Proof. by repeat constructor. Qed.

Lemma pricedRun_inWindow : inWindow 0 [(10000, buyB)].
Proof. simpl. unfold MERGE_WINDOW_MS. split; [lia|done]. Qed.

Lemma merged_buys_amount_and_vwap_witness :
  Forall (λ s, ¬ openFor "W1" "M1" s) [] ∧ sameBuyer "W1" "M1" pricedRun
  ∧ inWindow 0 [(10000, buyB)]
  ∧ ∃ s, upsertAll pricedRun [] None = (Some s, [s])
      ∧ (amount s, entryPriceUsd s) = mergedFrom (p_amount buyA) (p_priceUsd buyA)
                                        [(10000, buyB)]
      ∧ occurrences s = Some 2.
Proof.
  split; [constructor|]. split; [apply pricedRun_sameBuyer|].
  split; [apply pricedRun_inWindow|].
  destruct (merged_buys_amount_and_vwap "W1" "M1" [] 0 buyA [(10000, buyB)]
              (Forall_nil_2 _) pricedRun_sameBuyer pricedRun_inWindow)
    as (s & Hret & _ & Hoc & Hm & _).
  exists s. by repeat split.
Defined.

(** In the exact arithmetic of the model the fold of [mergedFrom] has a
    closed form: the amount is the sum of the amounts and, when every event
    is priced (positive price, positive amount), the entry price is the
    volume-weighted average of the events.  The code reaches the same
    values up to the rounding of each of its steps. *)
Lemma merged_buys_in_exact_arithmetic :
  ∀ (w m : string) (file : list Signal) (t0 : Z) (p0 : BuyParams)
    (rest : list (Z * BuyParams)),
    Forall (λ s, ¬ openFor w m s) file →
    sameBuyer w m ((t0, p0) :: rest) → inWindow t0 rest →
    ∃ s, (upsertAll ((t0, p0) :: rest) file None).1 = Some s
      ∧ amount s = sumAmounts ((t0, p0) :: rest)
      ∧ (Forall pricedEvent ((t0, p0) :: rest) →
           entryPriceUsd s = vwapPriced ((t0, p0) :: rest)
           ∧ vwapPriced ((t0, p0) :: rest)
             = Some (pricedValue ((t0, p0) :: rest) / sumAmounts ((t0, p0) :: rest))%Qc).
Proof.
  intros w m file t0 p0 rest Hnone Hsame Hwin.
  destruct (upsertAll_run w m file t0 p0 rest Hnone Hsame Hwin)
    as (s & Hret & Ham & Hoc & Hun & Hpr).
  exists s. repeat split; try done.
  - rewrite vwapPriced_priced by done. by apply Hpr.
  - by apply vwapPriced_priced.
Qed.

(** The scenario of the specification: 100 at $1.00, then 50 at $1.20 ten
    seconds later, gives amount 150, entry price 16/15 = 1.0667 and two
    occurrences. *)
Example merge_scenario :
  amount <$> (upsertAll [(0, buyA); (10000, buyC)] [] None).1 = Some (q 150 1)
  ∧ entryPriceUsd <$> (upsertAll [(0, buyA); (10000, buyC)] [] None).1
    = Some (Some (q 16 15))
  ∧ occurrences <$> (upsertAll [(0, buyA); (10000, buyC)] [] None).1 = Some (Some 2).
Proof. by_evaluation. Qed.

(** C2 as stated fails on a mixed run.  W1 buys 100 of M1 at $1.00, then 50
    with no price snapshot, then 50 at $2.00, ten seconds apart.  The
    unpriced 50 are added to [amount] and so weigh on the old price at the
    third merge: the entry price comes out as (1.00 * 150 + 2.00 * 50) / 200
    = 5/4, where the average of the priced events only is
    (1.00 * 100 + 2.00 * 50) / 150 = 4/3. *)
Lemma mixed_run_is_not_priced_vwap :
  sameBuyer "W1" "M1" mixedRun ∧ inWindow 0 (tail mixedRun)
  ∧ entryPriceUsd <$> (upsertAll mixedRun [] None).1 = Some (Some (q 5 4))
  ∧ vwapPriced mixedRun = Some (q 4 3)
  ∧ entryPriceUsd <$> (upsertAll mixedRun [] None).1 ≠ Some (vwapPriced mixedRun).
Proof.
  split; [by repeat constructor|].
  split; [simpl; unfold MERGE_WINDOW_MS; lia|].
  split; [by_evaluation|]. split; by_evaluation.
Qed.

(** C3. [closeByWalletAndMint] is idempotent on closed positions: in a
    store where every signal of the pair (wallet, mint) is already closed
    the call returns a closed count of 0 and the store it leaves is the
    store it found, so that no [closedTs] and no [closeReason] moves.  The
    second conjunct is the "twice in a row" reading: whatever the first
    call did, a second call finds nothing to close. *)
Theorem closeByWalletAndMint_idempotent :
  ∀ (clock : nat → Z) (w m : string) (reason : option string) (file : list Signal),
    (∀ s, s ∈ file → wallet s = w → mint s = m → status s = closed) →
    closeByWalletAndMint clock w m reason file = (0%nat, file)
    ∧ ∀ clock' reason',
        closeByWalletAndMint clock' w m reason'
          (closeByWalletAndMint clock w m reason file).2
        = (0%nat, file).
Proof.
  intros clock w m reason file H.
  rewrite (closeByWalletAndMint_nothing_open clock w m reason file H).
  split; [done|]. intros clock' reason'. simpl.
  by apply closeByWalletAndMint_nothing_open.
Qed.

Lemma closeByWalletAndMint_idempotent_witness :
  (∀ s, s ∈ [closedA] → wallet s = "W1" → mint s = "M1" → status s = closed)
  ∧ closeByWalletAndMint (fun _ => 9000) "W1" "M1" (Some "again") [closedA]
    = (0%nat, [closedA]).
Proof.
  assert (∀ s, s ∈ [closedA] → wallet s = "W1" → mint s = "M1" → status s = closed) as H.
  { intros s Hs _ _. apply list_elem_of_singleton in Hs. subst s. reflexivity. }
  split; [exact H|].
  exact (proj1 (closeByWalletAndMint_idempotent (fun _ => 9000) "W1" "M1"
                  (Some "again") [closedA] H)).
Defined.

(** Two calls in a row, from any store: the second closes nothing. *)
Lemma closeByWalletAndMint_twice clock1 clock2 w m reason1 reason2 (file : list Signal) :
  closeByWalletAndMint clock2 w m reason2 (closeByWalletAndMint clock1 w m reason1 file).2
  = (0%nat, (closeByWalletAndMint clock1 w m reason1 file).2).
Proof.
  apply closeByWalletAndMint_nothing_open.
  intros s Hs Hw Hm. by eapply closeByWalletAndMint_closes.
Qed.

(** C9, as the code has it.  A closed signal is frozen under [upsertBuy],
    [closeByWalletAndMint], [closeByWalletMintWithExit] and
    [updateOpenSignalsStopLoss]: they leave it, at its position in the
    store, exactly as it was (every field, the status included).  The two
    trail operations are the ones that can touch it, and both write the
    [trader] sub-record only.  [attachTraderSell] appends the confirmation
    id to [trader.sellSigs].  [attachTraderBuy] looks its target up by
    [ts], [wallet], [mint] and [status]: handed an open signal, as the
    webhook handler hands it the one [upsertBuy] returned, it leaves every
    closed signal alone; handed a closed signal it appends to
    [trader.buySigs] and adds to [trader.solSpent] of a closed signal, see
    [attachTraderBuy_rewrites_closed_signal]. *)
Theorem closed_signal_frozen :
  ∀ (file : list Signal) (i : nat) (s : Signal),
    file !! i = Some s → status s = closed →
    (∀ now p, (upsertBuy now p file).2 !! i = Some s)
    ∧ (∀ clock w m reason, (closeByWalletAndMint clock w m reason file).2 !! i = Some s)
    ∧ (∀ clock w m px reason,
         (closeByWalletMintWithExit clock w m px reason file).2 !! i = Some s)
    ∧ (∀ newPct, (updateOpenSignalsStopLoss newPct file).2 !! i = Some s)
    ∧ (∀ sig jupSig spent, status sig = open →
         attachTraderBuy sig jupSig spent file !! i = Some s)
    ∧ (∀ sig jupSig spent,
         attachTraderBuy sig jupSig spent file !! i = Some s
         ∨ (status sig = closed
            ∧ attachTraderBuy sig jupSig spent file !! i
              = Some (set_trader
                        (Some (mkTrader
                                 (Some (default [] (buySigs (default emptyTrader (trader s)))
                                        ++ [jupSig]))
                                 (sellSigs (default emptyTrader (trader s)))
                                 (match spent with
                                  | Some v =>
                                      Some (default 0%Qc
                                              (solSpent (default emptyTrader (trader s)))
                                            + v)%Qc
                                  | None => solSpent (default emptyTrader (trader s))
                                  end))) s)))
    ∧ (∀ sig jupSig,
         attachTraderSell sig jupSig file !! i = Some s
         ∨ attachTraderSell sig jupSig file !! i
           = Some (set_trader
                     (Some (mkTrader (buySigs (default emptyTrader (trader s)))
                              (Some (default [] (sellSigs (default emptyTrader (trader s)))
                                     ++ [jupSig]))
                              (solSpent (default emptyTrader (trader s))))) s)).
Proof.
  intros file i s Hi Hc. repeat split; intros.
  - by apply upsertBuy_keeps_closed.
  - by apply closeByWalletAndMint_keeps_closed.
  - by apply closeByWalletMintWithExit_keeps_closed.
  - by apply updateOpenSignalsStopLoss_keeps_closed.
  - by apply attachTraderBuy_keeps_closed.
  - destruct (attachTraderBuy_lookup sig jupSig spent file i s Hi)
      as [?|[(_ & _ & _ & Hst) ?]]; [by left|right].
    split; [congruence|done].
  - by apply attachTraderSell_lookup.
Qed.

Lemma closed_signal_frozen_witness :
  (upsertBuy 70000 buyB [closedA]).2 !! 0%nat = Some closedA
  ∧ (closeByWalletMintWithExit (fun _ => 80000) "W1" "M1" (q 2 5) "stop_loss" [closedA]).2
    !! 0%nat = Some closedA
  ∧ (updateOpenSignalsStopLoss (q (-1) 4) [closedA]).2 !! 0%nat = Some closedA
  ∧ attachTraderBuy openA "5h3sig" (Some (q 1 100)) [closedA] !! 0%nat = Some closedA.
Proof.
  pose proof (closed_signal_frozen [closedA] 0 closedA eq_refl eq_refl)
    as (Hup & _ & Hex & Hsl & Hbuy & _).
  split; [apply Hup|]. split; [apply Hex|]. split; [apply Hsl|]. by apply Hbuy.
Defined.

(** C9 as stated fails for [attachTraderBuy].  W1's signal for M1 was
    closed at 5 000 ms.  A call of [attachTraderBuy] with that closed signal
    finds it (same [ts], [wallet], [mint] and [status]) and writes the
    confirmation id to its [trader.buySigs] and the amount spent to its
    [trader.solSpent]: a closed signal was changed, and not by
    [attachTraderSell]. *)
Lemma attachTraderBuy_rewrites_closed_signal :
  status closedA = closed
  ∧ trader closedA = None
  ∧ [closedA] !! 0%nat = Some closedA
  ∧ trader <$> attachTraderBuy closedA "5h3sig" (Some (q 1 100)) [closedA] !! 0%nat
    = Some (Some (mkTrader (Some ["5h3sig"]) None (Some (q 1 100))))
  ∧ status <$> attachTraderBuy closedA "5h3sig" (Some (q 1 100)) [closedA] !! 0%nat
    = Some closed
  ∧ attachTraderBuy closedA "5h3sig" (Some (q 1 100)) [closedA] !! 0%nat ≠ Some closedA.
Proof.
  do 3 (split; [reflexivity|]). do 2 (split; [by_evaluation|]).
  assert (trader <$> attachTraderBuy closedA "5h3sig" (Some (q 1 100)) [closedA] !! 0%nat
          = Some (Some (mkTrader (Some ["5h3sig"]) None (Some (q 1 100))))) as Ht
    by by_evaluation.
  intros Heq. rewrite Heq in Ht. simpl in Ht. congruence.
Qed.

(** C10. [closeByWalletMintWithExit] closes every open signal of the pair
    with the given reason and stamps [exitPriceUsd] on it in all cases.
    [exitPnlPct] is computed, as (exit - entry) / entry, exactly when the
    entry price is a number strictly above 0; when the entry price is
    missing or not positive the signal is closed and stamped all the same
    and [exitPnlPct] is not assigned (it keeps the value it had, which is
    "undefined" whenever it was).  Nothing else about the signal changes. *)
Theorem closeByWalletMintWithExit_stamps :
  ∀ (clock : nat → Z) (w m : string) (px : Qc) (reason : string)
    (file : list Signal) (i : nat) (s : Signal),
    file !! i = Some s → openFor w m s →
    (0 < (closeByWalletMintWithExit clock w m px reason file).1)%nat
    ∧ ∃ s', (closeByWalletMintWithExit clock w m px reason file).2 !! i = Some s'
        ∧ status s' = closed
        ∧ closeReason s' = Some reason
        ∧ exitPriceUsd s' = Some px
        ∧ (∃ k, closedTs s' = Some (clock k))
        ∧ (∀ e, entryPriceUsd s = Some e → (0 < e)%Qc →
             exitPnlPct s' = Some ((px - e) / e)%Qc)
        ∧ (entryPriceUsd s = None ∨ (∃ e, entryPriceUsd s = Some e ∧ (e ≤ 0)%Qc) →
             exitPnlPct s' = exitPnlPct s ∧ (Built file → exitPnlPct s' = None))
        ∧ (ts s', wallet s', mint s', amount s', entryPriceUsd s', symbol s',
           stopLossPct s', source s', updatedTs s', occurrences s', trader s')
          = (ts s, wallet s, mint s, amount s, entryPriceUsd s, symbol s,
             stopLossPct s, source s, updatedTs s, occurrences s, trader s).
Proof.
  intros clock w m px reason file i s Hi Ho. split.
  - unfold closeByWalletMintWithExit, saveIfChanged. simpl.
    eapply forEachWhere_count_pos; [exact Hi|]. by apply bool_decide_eq_true.
  - unfold closeByWalletMintWithExit. rewrite saveIfChanged_list.
    destruct (forEachWhere_lookup (λ s, bool_decide (openFor w m s))
                (exitBody clock px reason) file 0 i s Hi) as (s' & Hs' & Hb).
    rewrite bool_decide_eq_true_2 in Hb by done. destruct Hb as (k & _ & ->).
    assert (Built file → exitPnlPct s = None) as Hfresh.
    { intros Hb. destruct Ho as [Ho _].
      by destruct (Built_openAreFresh file Hb i s Hi Ho) as (_ & _ & _ & ?). }
    eexists. split; [exact Hs'|]. unfold exitBody. simpl.
    destruct (entryPriceUsd s) as [e|] eqn:He.
    + case_bool_decide as Hpos; simpl; rewrite ?He.
      * repeat split; eauto.
        -- intros e' [= <-] _. done.
        -- destruct H as [|(e' & [= <-] & Hle)]; [done|].
           by apply Qcle_not_lt in Hle.
        -- destruct H as [|(e' & [= <-] & Hle)]; [done|].
           by apply Qcle_not_lt in Hle.
      * repeat split; eauto. intros e' [= <-] ?. done.
    + simpl. rewrite ?He. repeat split; eauto. intros e' ?. done.
Qed.

Lemma closeByWalletMintWithExit_stamps_witness :
  [openA] !! 0%nat = Some openA ∧ openFor "W1" "M1" openA
  ∧ Nat.lt 0 (closeByWalletMintWithExit (fun _ => 80000) "W1" "M1" (q 2 5)
                "stop_loss" [openA]).1.
Proof.
  split; [reflexivity|]. split; [by repeat split|].
  refine (proj1 (closeByWalletMintWithExit_stamps (fun _ => 80000) "W1" "M1" (q 2 5)
                   "stop_loss" [openA] 0 openA eq_refl _)).
  by repeat split.
Defined.

End SignalsClaims.

(** * Properties of the Price Monitor *)
Section PriceCheckFacts.
Import Signals Settings PriceCheck SignalsSpec PriceCheckSpec.

Variables (env : Env) (settings : Settings).

(** A turn either leaves the world alone, and the loop goes on, or runs
    one exit for the price of the signal's mint. *)
Lemma evaluate_cases (x : Signal) (w : World) :
  evaluate env settings x w = (w, true)
  ∨ ∃ cur reason, evaluate env settings x w = closeAndReport env x cur reason w.
Proof.
  unfold evaluate. destruct (getPrice env (mint x)) as [cur|]; [|by left].
  case_bool_decide; [by left|]. case_bool_decide; [right; eauto|].
  destruct (takeProfitPct settings) as [tp|]; [|by left].
  case_bool_decide; [right; eauto|by left].
Qed.

(** When the stop-loss test succeeds the turn is the stop-loss exit: the
    take-profit test, which sits behind it, is not reached. *)
Lemma evaluate_stop_loss (s : Signal) (w : World) current entry :
  entryPriceUsd s = Some entry → getPrice env (mint s) = Some current →
  (0 < current)%Qc → (pnlPct env current entry ≤ stopLossPct s)%Qc →
  evaluate env settings s w = closeAndReport env s current "stop_loss" w.
Proof.
  intros He Hp Hc Hsl. unfold evaluate. rewrite Hp, He. simpl.
  rewrite bool_decide_eq_false_2 by by apply Qclt_not_le.
  by rewrite bool_decide_eq_true_2.
Qed.

Lemma closeAndReport_file x cur reason (w : World) :
  file (closeAndReport env x cur reason w).1
  = (closeByWalletMintWithExit (λ k, clock env (reads w + k)%nat)
       (wallet x) (mint x) cur reason (file w)).2.
Proof. done. Qed.

Lemma closeAndReport_keeps_closed x cur reason (w : World) i (s' : Signal) :
  file w !! i = Some s' → status s' = closed →
  file (closeAndReport env x cur reason w).1 !! i = Some s'.
Proof.
  intros. rewrite closeAndReport_file. by apply closeByWalletMintWithExit_keeps_closed.
Qed.

Lemma closeAndReport_other_pair x cur reason (w : World) i (s : Signal) :
  file w !! i = Some s → ¬ (wallet s = wallet x ∧ mint s = mint x) →
  file (closeAndReport env x cur reason w).1 !! i = Some s.
Proof.
  intros Hi Hne. rewrite closeAndReport_file.
  unfold closeByWalletMintWithExit. rewrite saveIfChanged_list.
  apply forEachWhere_keeps; [done|]. apply bool_decide_eq_false.
  intros (_ & ? & ?). by apply Hne.
Qed.

(** Each position holds the signal it held, or its exit when that signal
    was an open signal of the pair. *)
Lemma closeAndReport_lookup x cur reason (w : World) i (s : Signal) :
  file w !! i = Some s →
  ∃ s', file (closeAndReport env x cur reason w).1 !! i = Some s'
        ∧ if bool_decide (openFor (wallet x) (mint x) s)
          then ∃ k, s' = exitBody (clock env) cur reason k s
          else s' = s.
Proof.
  intros Hi. rewrite closeAndReport_file.
  unfold closeByWalletMintWithExit. rewrite saveIfChanged_list.
  destruct (forEachWhere_lookup (λ y, bool_decide (openFor (wallet x) (mint x) y))
              (exitBody (λ k, clock env (reads w + k)%nat) cur reason)
              (file w) 0 i s Hi) as (s' & Hs' & Hb).
  exists s'. split; [done|]. case_bool_decide; [|done].
  destruct Hb as (k & _ & ->). by exists (reads w + k)%nat.
Qed.

Lemma exitBody_fields clock cur reason k (s : Signal) :
  status (exitBody clock cur reason k s) = closed
  ∧ closeReason (exitBody clock cur reason k s) = Some reason
  ∧ exitPriceUsd (exitBody clock cur reason k s) = Some cur.
Proof.
  unfold exitBody. simpl. destruct (entryPriceUsd s); [case_bool_decide|]; done.
Qed.

Lemma closeAndReport_stops (s : Signal) cur (w : World) i :
  file w !! i = Some s → status s = open →
  stoppedAt env (file (closeAndReport env s cur "stop_loss" w).1) i s cur.
Proof.
  intros Hi Ho.
  destruct (closeAndReport_lookup s cur "stop_loss" w i s Hi) as (s' & Hs' & Hb).
  rewrite bool_decide_eq_true_2 in Hb by done. destruct Hb as (k & ->).
  eexists. split; [exact Hs'|]. split; [eauto|apply exitBody_fields].
Qed.

Lemma closeAndReport_log x cur reason (w : World) :
  ∃ n tail, log (closeAndReport env x cur reason w).1
            = log w ++ [AutoSell (mint x); CloseWithExit (wallet x) (mint x) cur reason n]
                    ++ tail
            ∧ (tail = [] ∨ ∃ traded, tail = [Notify reason traded (wallet x) (mint x)]).
Proof.
  simpl. eexists _, _. split; [reflexivity|].
  case_bool_decide; [right; eauto|by left].
Qed.

(** An exit that ends the loop has sent a notification, the last effect of
    the log, and Telegram rejected it. *)
Lemma closeAndReport_rejected x cur reason (w : World) lg0 pre :
  log w = lg0 ++ pre → (closeAndReport env x cur reason w).2 = false →
  cutShort env lg0 (log (closeAndReport env x cur reason w).1).
Proof.
  intros Hlog. unfold closeAndReport. cbn [fst snd log].
  case_bool_decide; [|done]. intros Hrej.
  exists (pre ++ [AutoSell (mint x);
                  CloseWithExit (wallet x) (mint x) cur reason
                    (closeByWalletMintWithExit (λ k, clock env (reads w + k)%nat)
                       (wallet x) (mint x) cur reason (file w)).1]),
    reason, (tryAutoSell env x), (wallet x), (mint x).
  split.
  - rewrite Hlog, <-!app_assoc. reflexivity.
  - rewrite app_assoc, <-Hlog, length_app. exact Hrej.
Qed.

Lemma evaluate_rejected x (w : World) lg0 pre :
  log w = lg0 ++ pre → (evaluate env settings x w).2 = false →
  cutShort env lg0 (log (evaluate env settings x w).1).
Proof.
  intros Hlog. destruct (evaluate_cases x w) as [->|(cur & reason & ->)]; [done|].
  by apply (closeAndReport_rejected x cur reason w lg0 pre).
Qed.

(** What every turn keeps, the loop keeps, however it ends. *)
Lemma evaluateAll_invariant (P : World → Prop) snap : ∀ (w : World),
  (∀ x w, P w → P (evaluate env settings x w).1) →
  P w → P (evaluateAll env settings snap w).
Proof.
  induction snap as [|x snap IH]; intros w Hstep Hw; simpl; [done|].
  destruct (evaluate env settings x w).2; [apply IH|]; auto.
Qed.

(** With Telegram within reach no turn ends the loop. *)
Lemma evaluate_goes_on x (w : World) :
  (∀ n, sendTelegram env n = true) → (evaluate env settings x w).2 = true.
Proof.
  intros Hup. destruct (evaluate_cases x w) as [->|(cur & reason & ->)]; [done|].
  unfold closeAndReport. cbn [snd]. by case_bool_decide.
Qed.

Lemma cutShort_rejects lg0 lg :
  cutShort env lg0 lg → ∃ n, sendTelegram env n = false.
Proof. intros (pre & reason & traded & w & m & _ & H). eauto. Qed.

Section OneSignal.

Variables (l0 : list Signal) (i : nat) (s : Signal) (current entry : Qc).
Hypothesis Hi : l0 !! i = Some s.
Hypothesis Hopen : status s = open.
Hypothesis Hentry : entryPriceUsd s = Some entry.
Hypothesis Hentry_pos : (0 < entry)%Qc.
Hypothesis Hprice : getPrice env (mint s) = Some current.
Hypothesis Hprice_pos : (0 < current)%Qc.
Hypothesis Hsl : (pnlPct env current entry ≤ stopLossPct s)%Qc.
Hypothesis Honly : onlyOpenOfPair l0 i s.

(** A watched signal of the store with the pair of [s] is [s]. *)
Lemma same_pair_is_s x :
  x ∈ l0 → watched x = true → wallet x = wallet s → mint x = mint s → x = s.
Proof using Hi Honly.
  intros Hx Hw Hwal Hmint. apply list_elem_of_lookup in Hx as [j Hj].
  apply andb_true_iff in Hw as [Ho%bool_decide_eq_true _].
  rewrite (Honly j x Hj Ho Hwal Hmint) in Hj. congruence.
Qed.

Lemma evaluate_step x (w : World) :
  x ∈ l0 → watched x = true →
  pendingOrStopped env (file w) i s current →
  pendingOrStopped env (file (evaluate env settings x w).1) i s current
  ∧ (x = s → stoppedAt env (file (evaluate env settings x w).1) i s current)
  ∧ (stoppedAt env (file w) i s current →
     stoppedAt env (file (evaluate env settings x w).1) i s current)
  ∧ quietAbout (wallet s) (mint s) (log w) (log (evaluate env settings x w).1).
Proof using All.
  intros Hx Hw HP.
  assert (∀ w', stoppedAt env (file w') i s current →
                ∀ y cur reason,
                  stoppedAt env (file (closeAndReport env y cur reason w').1) i s current)
    as Hstay.
  { intros w' (s' & Hs' & Hst) y cur reason. exists s'. split; [|done].
    apply closeAndReport_keeps_closed; [done|]. apply Hst. }
  destruct (decide (wallet x = wallet s ∧ mint x = mint s)) as [[Hwal Hmint]|Hne].
  - assert (x = s) as -> by by apply same_pair_is_s.
    rewrite (evaluate_stop_loss s w current entry) by done.
    assert (stoppedAt env (file (closeAndReport env s current "stop_loss" w).1) i s current)
      as Hst.
    { destruct HP as [Hpend|Hst]; [|by apply Hstay].
      by apply closeAndReport_stops. }
    split; [by right|]. split; [done|]. split; [done|].
    destruct (closeAndReport_log s current "stop_loss" w) as (n & tail & -> & Htail).
    eexists. split; [reflexivity|].
    repeat constructor; [by intros (_ & _ & ?)|].
    destruct Htail as [->|[traded ->]]; by repeat constructor.
  - destruct (evaluate_cases x w) as [->|(cur & reason & ->)].
    { split; [done|]. split; [by intros ->; destruct Hne|]. split; [done|].
      exists []. by rewrite app_nil_r. }
    split; [|split; [by intros ->; destruct Hne|split; [by intros; apply Hstay|]]].
    + destruct HP as [Hpend|Hst]; [left|right; by apply Hstay].
      apply closeAndReport_other_pair; [done|]. intros [? ?]. by apply Hne.
    + destruct (closeAndReport_log x cur reason w) as (n & tail & -> & Htail).
      eexists. split; [reflexivity|].
      repeat constructor; [intros (? & ? & _); by apply Hne|].
      destruct Htail as [->|[traded ->]]; by repeat constructor.
Qed.

Lemma quietAbout_trans w m (a b c : list Effect) :
  quietAbout w m a b → quietAbout w m b c → quietAbout w m a c.
Proof.
  intros (n1 & -> & H1) (n2 & -> & H2). exists (n1 ++ n2).
  split; [by rewrite app_assoc|]. by apply Forall_app.
Qed.

(** Over the loop: the position goes from [s] to its stop-loss exit and
    stays there; when [s] is among the signals still to come, the loop
    leaves the exit behind unless it was cut short. *)
Lemma evaluate_all lg0 snap : ∀ (w : World),
  (∀ x, x ∈ snap → x ∈ l0 ∧ watched x = true) →
  pendingOrStopped env (file w) i s current →
  (∃ pre, log w = lg0 ++ pre) →
  pendingOrStopped env (file (evaluateAll env settings snap w)) i s current
  ∧ (s ∈ snap ∨ stoppedAt env (file w) i s current →
     stoppedAt env (file (evaluateAll env settings snap w)) i s current
     ∨ cutShort env lg0 (log (evaluateAll env settings snap w)))
  ∧ quietAbout (wallet s) (mint s) (log w) (log (evaluateAll env settings snap w)).
Proof using All.
  induction snap as [|x snap IH]; intros w Hsnap HP [pre Hlog]; simpl.
  - split; [done|]. split.
    + intros [Hin|?]; [by apply elem_of_nil in Hin|by left].
    + exists []. by rewrite app_nil_r.
  - destruct (Hsnap x) as [Hx Hw]; [apply list_elem_of_here|].
    destruct (evaluate_step x w Hx Hw HP) as (HP' & Hnow & Hstay & Hquiet).
    destruct (evaluate env settings x w).2 eqn:Hgo.
    + destruct (IH (evaluate env settings x w).1) as (HP'' & Hstop & Hquiet'); [|done| |].
      { intros y Hy. apply Hsnap. by apply list_elem_of_further. }
      { destruct Hquiet as (news & -> & _). exists (pre ++ news).
        by rewrite Hlog, app_assoc. }
      split; [done|]. split; [|by eapply quietAbout_trans].
      intros [Hin|Hst]; apply Hstop; [|by right; apply Hstay].
      apply elem_of_cons in Hin as [->|Hin]; [right; by apply Hnow|by left].
    + split; [done|]. split; [|done]. intros _. right.
      by apply (evaluate_rejected x w lg0 pre).
Qed.

Lemma tick_stops_out (w : World) :
  file w = l0 →
  (stoppedAt env (file (tick env settings w)) i s current
   ∨ (file (tick env settings w) !! i = Some s
      ∧ cutShort env (log w) (log (tick env settings w))))
  ∧ quietAbout (wallet s) (mint s) (log w) (log (tick env settings w)).
Proof using All.
  intros Hfile. unfold tick.
  destruct (evaluate_all (log w) (List.filter watched (file w)) w)
    as (HP & Hstop & Hquiet).
  - intros x Hx. apply list_elem_of_In, filter_In in Hx as [Hx Hw].
    rewrite Hfile in Hx. by apply list_elem_of_In in Hx.
  - left. by rewrite Hfile.
  - exists []. by rewrite app_nil_r.
  - split; [|done]. destruct HP as [Hpend|Hst]; [|by left].
    destruct Hstop as [Hst|Hcut]; [|by left|by right].
    left. apply list_elem_of_In, filter_In. split.
    + rewrite Hfile. apply list_elem_of_In, list_elem_of_lookup. eauto.
    + unfold watched. rewrite Hentry. rewrite !bool_decide_eq_true_2; done.
Qed.

End OneSignal.

End PriceCheckFacts.

Section PriceCheckClaims.
Import Signals Settings PriceCheck SignalsSpec PriceCheckSpec Samples.

(** C4, as the code has it.  Take an open signal with a positive entry
    price, the only open signal of its (wallet, mint) in the store, whose
    mint has a positive current price and whose pnlPct, the double the
    cycle computes for (current - entry) / entry, is at or below its
    stop-loss threshold, whether or not it also reaches the take-profit
    threshold.  Its turn in the cycle is the stop-loss exit and nothing
    else: the take-profit test is never reached.  After the cycle the
    signal is closed with reason [stop_loss] and exit price equal to the
    current price, unless the cycle was cut short before its turn by a
    notification that Telegram rejected, and then it is as it was; with
    Telegram within reach it is closed.  In every case the cycle has issued
    no take-profit close for its pair.  The case of the cycle cut short is
    [cut_short_cycle_leaves_signal_open]. *)
Theorem stop_loss_takes_priority :
  ∀ (env : Env) (settings : Settings) (w : World) (i : nat) (s : Signal)
    (current entry : Qc),
    file w !! i = Some s → status s = open →
    entryPriceUsd s = Some entry → (0 < entry)%Qc →
    getPrice env (mint s) = Some current → (0 < current)%Qc →
    (pnlPct env current entry ≤ stopLossPct s)%Qc →
    onlyOpenOfPair (file w) i s →
    (∀ w', evaluate env settings s w' = closeAndReport env s current "stop_loss" w')
    ∧ (stoppedAt env (file (tick env settings w)) i s current
       ∨ (file (tick env settings w) !! i = Some s
          ∧ cutShort env (log w) (log (tick env settings w))))
    ∧ ((∀ n, sendTelegram env n = true) →
       stoppedAt env (file (tick env settings w)) i s current)
    ∧ quietAbout (wallet s) (mint s) (log w) (log (tick env settings w)).
Proof.
  intros env settings w i s current entry Hi Ho He Hepos Hp Hppos Hsl Honly.
  destruct (tick_stops_out env settings (file w) i s current entry
              Hi Ho He Hepos Hp Hppos Hsl Honly w eq_refl) as [Hend Hquiet].
  split; [|split; [done|split; [|done]]].
  - intros w'. by apply (evaluate_stop_loss env settings s w' current entry).
  - intros Hup. destruct Hend as [?|[_ Hcut]]; [done|].
    apply cutShort_rejects in Hcut as [n Hn]. by rewrite Hup in Hn.
Qed.

Lemma stop_loss_takes_priority_witness :
  (pnlPct (pricedAt (q 2 5)) (q 2 5) (q 1 1) ≤ stopLossPct openA)%Qc
  ∧ (q (-9) 10 ≤ pnlPct (pricedAt (q 2 5)) (q 2 5) (q 1 1))%Qc
  ∧ stoppedAt (pricedAt (q 2 5))
      (file (tick (pricedAt (q 2 5)) lowTakeProfit (mkWorld [openA] 0 [])))
      0 openA (q 2 5).
Proof.
  assert (pnlPct (pricedAt (q 2 5)) (q 2 5) (q 1 1) ≤ stopLossPct openA)%Qc as Hsl
    by by_evaluation.
  split; [exact Hsl|]. split; [by_evaluation|].
  refine (proj1 (proj2 (proj2 (stop_loss_takes_priority (pricedAt (q 2 5)) lowTakeProfit
                          (mkWorld [openA] 0 []) 0 openA (q 2 5) (q 1 1)
                          eq_refl eq_refl eq_refl _ eq_refl _ Hsl _))) _).
  - by_evaluation.
  - by_evaluation.
  - intros j sj Hj _ _ _. by apply list_lookup_singleton_Some in Hj as [-> _].
  - done.
Defined.

(** The scenario of the specification: entry $1.00, stop-loss -50%, current
    price $0.40; pnlPct = -0.6, the signal is closed with reason
    [stop_loss] and exitPnlPct = -0.6. *)
Example stop_loss_scenario :
  closeReason <$> file (tick (pricedAt (q 2 5)) lowTakeProfit (mkWorld [openA] 0 [])) !! 0%nat
  = Some (Some "stop_loss")
  ∧ exitPnlPct <$> file (tick (pricedAt (q 2 5)) lowTakeProfit (mkWorld [openA] 0 [])) !! 0%nat
    = Some (Some (q (-3) 5)).
Proof. by_evaluation. Qed.

(** In binary64 arithmetic a price of 1.4 against an entry of 5.6 is a
    loss of 0.7499999999999999 and not of 0.75: a stop-loss of -75% is not
    reached and the signal stays open. *)
Example binary64_loss_short_of_stop :
  pnlPct (pricedInBinary64 (binary64 (q 14 10))) (binary64 (q 14 10)) (binary64 (q 56 10))
  = q (-6755399441055743) 9007199254740992
  ∧ (stopLossPct openAtFivePointSix
     < pnlPct (pricedInBinary64 (binary64 (q 14 10)))
         (binary64 (q 14 10)) (binary64 (q 56 10)))%Qc
  ∧ status <$> file (tick (pricedInBinary64 (binary64 (q 14 10)))
                       (mkSettings (q (-4) 5) None 15000)
                       (mkWorld [openAtFivePointSix] 0 []))
    = [open].
Proof. split_and!; by_evaluation. Qed.

(** C4 as stated fails in a cycle that is cut short.  The store holds two
    open signals of different pairs, both bought at $1.00 with a stop-loss
    of -50%; both mints are at $0.40, so that pnlPct = -0.6 breaches the
    stop-loss and, with take-profit at -90%, the take-profit as well.  The
    first signal is stopped out and its notification is rejected by
    Telegram: the loop is left for the [catch] of the cycle, and the second
    signal, which breaches both thresholds, ends the cycle open. *)
Lemma cut_short_cycle_leaves_signal_open :
  [openA; openOther] !! 1%nat = Some openOther
  ∧ onlyOpenOfPair [openA; openOther] 1 openOther
  ∧ status openOther = open
  ∧ entryPriceUsd openOther = Some (q 1 1)
  ∧ getPrice (telegramDown (q 2 5)) (mint openOther) = Some (q 2 5)
  ∧ (pnlPct (telegramDown (q 2 5)) (q 2 5) (q 1 1) ≤ stopLossPct openOther)%Qc
  ∧ takeProfitPct lowTakeProfit = Some (q (-9) 10)
  ∧ (q (-9) 10 ≤ pnlPct (telegramDown (q 2 5)) (q 2 5) (q 1 1))%Qc
  ∧ log (tick (telegramDown (q 2 5)) lowTakeProfit (mkWorld [openA; openOther] 0 []))
    = [AutoSell "M1"; CloseWithExit "W1" "M1" (q 2 5) "stop_loss" 1;
       Notify "stop_loss" false "W1" "M1"]
  ∧ file (tick (telegramDown (q 2 5)) lowTakeProfit (mkWorld [openA; openOther] 0 []))
      !! 1%nat = Some openOther
  ∧ ¬ stoppedAt (telegramDown (q 2 5))
        (file (tick (telegramDown (q 2 5)) lowTakeProfit
                 (mkWorld [openA; openOther] 0 [])))
        1 openOther (q 2 5).
Proof.
  assert (file (tick (telegramDown (q 2 5)) lowTakeProfit
                  (mkWorld [openA; openOther] 0 [])) !! 1%nat = Some openOther) as Hleft
    by (vm_compute; reflexivity).
  split; [reflexivity|]. split.
  { intros [|[|j]] sj Hj _ Hw _; [|done|done]. by injection Hj as <-. }
  do 3 (split; [reflexivity|]). split; [by_evaluation|]. split; [reflexivity|].
  split; [by_evaluation|]. split; [vm_compute; reflexivity|]. split; [exact Hleft|].
  intros (s' & Hs' & _ & Hst & _). rewrite Hleft in Hs'. injection Hs' as <-. done.
Qed.

End PriceCheckClaims.

(** * Properties of the de-duplication cache *)
Section IndexFacts.
Import Index IndexSpec.

Lemma firstSeen_absent now key (g : Guards) :
  seenEventKeys g !! key = None →
  (firstSeen now key g).1 = true
  ∧ seenEventKeys (firstSeen now key g).2 !! key = Some now.
Proof.
  intros H. unfold firstSeen. rewrite H.
  rewrite bool_decide_eq_false_2 by by intros [? ?].
  simpl. by rewrite lookup_insert_eq.
Qed.

Lemma firstSeen_present now key (g : Guards) T :
  seenEventKeys g !! key = Some T → firstSeen now key g = (false, g).
Proof. intros H. unfold firstSeen. rewrite H. by rewrite bool_decide_eq_true_2. Qed.

(** A delivery never touches the entry of a key that is already there. *)
Lemma firstSeen_keeps now k key (g : Guards) T :
  seenEventKeys g !! key = Some T →
  seenEventKeys (firstSeen now k g).2 !! key = Some T.
Proof.
  intros H. unfold firstSeen. case_bool_decide as Hk; [done|]. simpl.
  rewrite lookup_insert_ne; [done|]. intros ->. apply Hk. by rewrite H.
Qed.

(** A sweep keeps an entry unless it is older than the TTL. *)
Lemma cleanMapsNow_keeps now key (g : Guards) T :
  seenEventKeys g !! key = Some T → now ≤ T + SEEN_TTL_MS →
  seenEventKeys (cleanMapsNow now g) !! key = Some T.
Proof.
  intros H Hle. simpl. apply map_lookup_filter_Some. split; [done|]. simpl. lia.
Qed.

Lemma cleanMapsNow_drops now key (g : Guards) T :
  seenEventKeys g !! key = Some T → T + SEEN_TTL_MS < now →
  seenEventKeys (cleanMapsNow now g) !! key = None.
Proof.
  intros H Hlt. simpl. apply map_lookup_filter_None. right.
  intros T' HT'. rewrite H in HT'. injection HT' as <-. simpl. lia.
Qed.

Lemma run_keeps ops : ∀ (g : Guards) key T,
  seenEventKeys g !! key = Some T →
  Forall (λ op, timeOf op ≤ T + SEEN_TTL_MS) ops →
  seenEventKeys (run ops g) !! key = Some T.
Proof.
  induction ops as [|op ops IH]; intros g key T H Hall; [done|].
  apply Forall_cons in Hall as [Hop Hall]. unfold run. simpl. apply IH; [|done].
  destruct op as [now|now k]; simpl in *.
  - by apply cleanMapsNow_keeps.
  - by apply firstSeen_keeps.
Qed.

End IndexFacts.

Section IndexClaims.
Import Index IndexSpec Samples.

(** C6, as the code has it.  A key first seen at time T is accepted then;
    while nothing happens later than T + TTL, whatever sweeps and
    deliveries occur (replays of the key among them), every delivery of
    the key is rejected as a duplicate; and right after the first sweep
    that runs later than T + TTL a delivery of the key is accepted as new.
    Expiry is the sweep's work alone, the lookup does not read the time
    stamp: a delivery after T + TTL and before that sweep is still
    rejected, see [replay_after_ttl_before_sweep]. *)
Theorem dedup_window :
  ∀ (g : Guards) (T : Z) (key : string),
    seenEventKeys g !! key = None →
    (firstSeen T key g).1 = true
    ∧ (∀ ops t, Forall (λ op, timeOf op ≤ T + SEEN_TTL_MS) ops →
         firstSeen t key (run ops (firstSeen T key g).2)
         = (false, run ops (firstSeen T key g).2))
    ∧ (∀ ops sweep t, Forall (λ op, timeOf op ≤ T + SEEN_TTL_MS) ops →
         T + SEEN_TTL_MS < sweep →
         (firstSeen t key (cleanMapsNow sweep (run ops (firstSeen T key g).2))).1 = true).
Proof.
  intros g T key Hnew.
  destruct (firstSeen_absent T key g Hnew) as [Hacc Hin].
  split; [done|]. split.
  - intros ops t Hops. apply (firstSeen_present _ _ _ T). by apply run_keeps.
  - intros ops sweep t Hops Hlate. apply firstSeen_absent.
    apply (cleanMapsNow_drops _ _ _ T); [|done]. by apply run_keeps.
Qed.

Lemma dedup_window_witness :
  seenEventKeys noGuards !! someKey = None
  ∧ (firstSeen 1000 someKey noGuards).1 = true
  ∧ (firstSeen 361000 someKey
       (cleanMapsNow 360000 (run fiveSweeps (firstSeen 1000 someKey noGuards).2))).1
    = true.
Proof.
  assert (seenEventKeys noGuards !! someKey = None) as Hnew by apply lookup_empty.
  destruct (dedup_window noGuards 1000 someKey Hnew) as (Hacc & _ & Hlate).
  split; [exact Hnew|]. split; [exact Hacc|].
  apply Hlate; [|unfold SEEN_TTL_MS; lia].
  unfold fiveSweeps, SEEN_TTL_MS. repeat constructor; simpl; lia.
Defined.

(** C6 as stated fails between the end of the TTL and the next sweep.  A
    key is first seen at T = 1 000 ms; the sweeps of the timer run at
    60 000, 120 000, ... ms.  The sweep at 300 000 ms finds the entry 299 000
    ms old and keeps it; the replay at T + TTL + 1 = 301 001 ms comes before
    the sweep at 360 000 ms and is rejected as a duplicate. *)
Lemma replay_after_ttl_before_sweep :
  (firstSeen 1000 someKey noGuards).1 = true
  ∧ 1000 + SEEN_TTL_MS < 301001
  ∧ (firstSeen 301001 someKey (run fiveSweeps (firstSeen 1000 someKey noGuards).2)).1
    = false.
Proof.
  split; [by apply firstSeen_absent|]. split; [unfold SEEN_TTL_MS; lia|].
  erewrite firstSeen_present; [done|]. apply run_keeps.
  - by apply firstSeen_absent.
  - unfold fiveSweeps, SEEN_TTL_MS. repeat constructor; simpl; lia.
Qed.

End IndexClaims.

(** * Properties of route resolution *)

(** Name the answer to the next call of the quote service and split on
    what [getQuote] makes of it. *)
Ltac next_quote r H :=
  match goal with
  | |- context [TraderBot.quoteOutcome (TraderBot.quoteNet ?env ?n ?req)] =>
      set (r := TraderBot.quoteNet env n req) in *;
      destruct (TraderBot.quoteOutcome r) as [[?|]|?] eqn:H; simpl
  end.

Ltac next_swap r :=
  match goal with
  | |- context [TraderBot.swapOutcome (TraderBot.swapNet ?env ?n ?q)] =>
      set (r := TraderBot.swapNet env n q) in *
  end.

(** Exhibit the events of a straight-line run. *)
Ltac close_trace :=
  eexists; split; [rewrite <-?app_assoc; reflexivity|];
  split; [reflexivity|];
  split; [repeat constructor; eexists; reflexivity|].

Section TraderFacts.
Import TraderBot TraderSpec.

(** ** The buy path *)

Lemma appended_nil (w : World) : appended w w [].
Proof. unfold appended. by rewrite app_nil_r. Qed.

Lemma buyAttempt_trace cfg env m b (w : World) :
  ∃ evs, appended w (buyAttempt cfg env m b w).2 evs
         ∧ buyLocks (buyAttempt cfg env m b w).2 = buyLocks w
         ∧ Forall (answeredBy env) evs
         ∧ AttemptTrace (buyRequest cfg m (lamportsBudget env b))
             (buyRequest cfg m (probeLamports cfg env b)) evs (buyAttempt cfg env m b w).1.
Proof.
  unfold buyAttempt, appended, mbind, M_bind, tryCatch, throw, mret, M_ret, getQuote, doSwap.
  simpl. next_quote r1 H1.
  - next_swap sr. close_trace. by apply attempt_direct.
  - next_quote r2 H2.
    + next_quote r3 H3.
      * next_swap sr. close_trace. simpl. by eapply attempt_requote_swap.
      * close_trace. simpl. by eapply attempt_requote_fails.
      * close_trace. simpl. by eapply attempt_requote_throws.
    + close_trace. simpl. apply attempt_probe_fails; [done|by left].
    + close_trace. simpl. apply attempt_probe_fails; [done|right; eauto].
  - close_trace. simpl. by apply attempt_quote_throws.
Qed.

Lemma buyLoop_trace cfg env m b ds : ∀ (w : World),
  ∃ evs, appended w (buyLoop (buyAttempt cfg env m b) ds w).2 evs
         ∧ buyLocks (buyLoop (buyAttempt cfg env m b) ds w).2 = buyLocks w
         ∧ Forall (answeredBy env) evs
         ∧ LoopTrace (buyRequest cfg m (lamportsBudget env b))
             (buyRequest cfg m (probeLamports cfg env b)) evs
             (buyLoop (buyAttempt cfg env m b) ds w).1.
Proof.
  induction ds as [|d ds IH]; intros w;
    destruct (buyAttempt_trace cfg env m b w) as (evs & Happ & Hlock & Hans & Htr);
    simpl; destruct (buyAttempt cfg env m b w) as [[sig|msg] w'] eqn:Hatt; simpl in *.
  - exists evs. repeat (split; [done|]). by apply loop_last.
  - exists evs. destruct (retryable msg); simpl; repeat (split; [done|]);
      by apply loop_last.
  - exists evs. repeat (split; [done|]). by apply loop_last.
  - destruct (retryable msg) eqn:Hre; simpl.
    + destruct (IH (emit (EvSleep d) w')) as (rest & Happ' & Hlock' & Hans' & Htr').
      exists (evs ++ EvSleep d :: rest). split; [|split; [|split]].
      * unfold appended in *. rewrite Happ'. simpl. rewrite Happ.
        by rewrite <-!app_assoc.
      * by rewrite Hlock'.
      * apply Forall_app. split; [done|]. by constructor.
      * by eapply loop_retry.
    + exists evs. repeat (split; [done|]). by apply loop_last.
Qed.

(** [buyTokenWithSol] either refuses before any call or runs the loop. *)
Lemma buyTokenWithSol_trace cfg env m b (w : World) :
  ∃ evs, appended w (buyTokenWithSol cfg env m b w).2 evs
         ∧ Forall (answeredBy env) evs
         ∧ (evs = []
            ∨ LoopTrace (buyRequest cfg m (lamportsBudget env b))
                (buyRequest cfg m (probeLamports cfg env b)) evs
                (buyTokenWithSol cfg env m b w).1).
Proof.
  pose proof (appended_nil w) as Hnil.
  unfold buyTokenWithSol, finally.
  destruct (negb (AUTO_TRADE cfg)); [exists []; split; [done|split; [done|by left]]|].
  destruct (isLocked m w); [exists []; split; [done|split; [done|by left]]|].
  destruct (buyLoop_trace cfg env m b delays (lockMint m w))
    as (evs & Happ & _ & Hans & Htr).
  revert Happ Htr. destruct (buyLoop _ delays (lockMint m w)) as [r w'].
  intros Happ Htr. exists evs. split; [exact Happ|]. split; [done|right; exact Htr].
Qed.

(** One attempt runs the script of the specification. *)
Lemma buyAttempt_script cfg env m b (w : World) :
  buyAttempt cfg env m b w
  = ((attemptScript cfg env m b (length (trace w))).2,
     mkWorld (trace w ++ (attemptScript cfg env m b (length (trace w))).1) (buyLocks w)).
Proof.
  unfold buyAttempt, attemptScript, budgetRequest, probeRequest.
  unfold mbind, M_bind, tryCatch, throw, mret, M_ret, getQuote, doSwap, emit.
  cbn [trace buyLocks]. rewrite ?length_app. cbn [length].
  replace (length (trace w) + 1 + 1)%nat with (length (trace w) + 2)%nat by lia.
  replace (length (trace w) + 2 + 1)%nat with (length (trace w) + 3)%nat by lia.
  destruct (quoteOutcome (quoteNet env (length (trace w)) _)) as [[q1|]|msg1];
    cbn [fst snd trace buyLocks]; rewrite ?length_app; cbn [length];
    [by rewrite <-!app_assoc| |done].
  destruct (quoteOutcome (quoteNet env (length (trace w) + 1) _)) as [[p|]|msg2];
    cbn [fst snd trace buyLocks]; rewrite ?length_app; cbn [length];
    [|by rewrite <-!app_assoc..].
  replace (length (trace w) + 1 + 1)%nat with (length (trace w) + 2)%nat by lia.
  destruct (quoteOutcome (quoteNet env (length (trace w) + 2) _)) as [[q3|]|msg3];
    cbn [fst snd trace buyLocks]; rewrite ?length_app; cbn [length];
    rewrite <-?app_assoc; try done.
  replace (length (trace w) + 1 + 1 + 1)%nat with (length (trace w) + 3)%nat by lia.
  done.
Qed.

(** The retry loop begins with an attempt, and ends with it when the
    attempt succeeds or fails for a reason that is not worth a retry. *)
Lemma buyLoop_first (attempt : M string) ds (w : World) :
  (∀ w0, ∃ evs, trace (attempt w0).2 = trace w0 ++ evs) →
  ∃ rest, trace (buyLoop attempt ds w).2 = trace (attempt w).2 ++ rest
          ∧ (∀ sig, (attempt w).1 = Ok sig →
               rest = [] ∧ buyLoop attempt ds w = attempt w)
          ∧ (∀ msg, (attempt w).1 = Throw msg → retryable msg = false →
               rest = [] ∧ buyLoop attempt ds w = attempt w).
Proof.
  intros Hgrow. revert w. induction ds as [|d ds IH]; intros w; simpl;
    destruct (attempt w) as [[sig|msg] w'] eqn:Hatt; simpl.
  - exists []. rewrite app_nil_r. by split_and!.
  - exists []. rewrite app_nil_r. destruct (retryable msg); by split_and!.
  - exists []. rewrite app_nil_r. by split_and!.
  - destruct (retryable msg) eqn:Hre; simpl.
    + destruct (IH (emit (EvSleep d) w')) as (rest & Htr & _).
      destruct (Hgrow (emit (EvSleep d) w')) as (evs & Hevs).
      exists (EvSleep d :: evs ++ rest). split_and!; [|done|].
      * rewrite Htr, Hevs. simpl. by rewrite <-!app_assoc.
      * intros msg' [= <-] Hno. congruence.
    + exists []. rewrite app_nil_r. by split_and!.
Qed.

Lemma swapsFollow_app req prev (a b : list Event) :
  swapsFollow req prev a → (∀ p, swapsFollow req p b) → swapsFollow req prev (a ++ b).
Proof.
  revert prev. induction a as [|e a IH]; intros prev Ha Hb; simpl; [done|].
  destruct Ha as [He Ha]. split; [done|]. by apply IH.
Qed.

Lemma AttemptTrace_swapsFollow bReq pReq evs res :
  AttemptTrace bReq pReq evs res → ∀ prev, swapsFollow bReq prev evs.
Proof. destruct 1; intros prev; simpl; repeat split; eauto. Qed.

Lemma LoopTrace_swapsFollow bReq pReq evs res :
  LoopTrace bReq pReq evs res → ∀ prev, swapsFollow bReq prev evs.
Proof.
  induction 1 as [evs res Ha|evs msg d rest res Ha _ _ IH]; intros prev.
  - by eapply AttemptTrace_swapsFollow.
  - apply swapsFollow_app; [by eapply AttemptTrace_swapsFollow|].
    intros p. simpl. split; [done|]. apply IH.
Qed.

(** Every quote of an attempt is asked at the slippage of its two
    requests. *)
Lemma AttemptTrace_quotesAt bReq pReq evs res slip :
  q_slippageBps bReq = slip → q_slippageBps pReq = slip →
  AttemptTrace bReq pReq evs res → quotesAt slip evs.
Proof. intros Hb Hp. destruct 1; by repeat constructor. Qed.

Lemma LoopTrace_quotesAt bReq pReq evs res slip :
  q_slippageBps bReq = slip → q_slippageBps pReq = slip →
  LoopTrace bReq pReq evs res → quotesAt slip evs.
Proof.
  intros Hb Hp. induction 1 as [evs res Ha|evs msg d rest res Ha _ _ IH].
  - exact (AttemptTrace_quotesAt _ _ _ _ _ Hb Hp Ha).
  - apply Forall_app. split; [exact (AttemptTrace_quotesAt _ _ _ _ _ Hb Hp Ha)|].
    by constructor.
Qed.

Lemma buySlippage_le_max cfg : buySlippage cfg ≤ MAX_SLIPPAGE_BPS cfg.
Proof. unfold buySlippage. lia. Qed.

(** The buy path asks for one slippage only, and it is within the
    maximum. *)
Lemma buyTokenWithSol_slippage cfg env m b (w : World) :
  ∃ evs, appended w (buyTokenWithSol cfg env m b w).2 evs
         ∧ quotesAt (buySlippage cfg) evs
         ∧ Forall (λ s, s ≤ MAX_SLIPPAGE_BPS cfg) (slippagesAsked evs).
Proof.
  destruct (buyTokenWithSol_trace cfg env m b w) as (evs & Happ & _ & Htr).
  exists evs. split; [done|].
  assert (quotesAt (buySlippage cfg) evs) as Hq.
  { destruct Htr as [->|Htr]; [constructor|].
    exact (LoopTrace_quotesAt (buyRequest cfg m (lamportsBudget env b))
             (buyRequest cfg m (probeLamports cfg env b)) evs _ (buySlippage cfg)
             eq_refl eq_refl Htr). }
  split; [done|]. pose proof (buySlippage_le_max cfg) as Hle.
  clear Happ Htr. induction Hq as [|e evs He _ IH]; [constructor|].
  destruct e; simpl; try done. constructor; [lia|done].
Qed.

Lemma quoteOutcome_some reply q :
  quoteOutcome reply = Ok (Some q) → reply = QuotePayload false q.
Proof.
  destruct reply as [msg| | |failed p]; simpl; try done.
  destruct failed; [done|]. case_bool_decide; [done|]. by intros [= ->].
Qed.

(** With a quote service that echoes the requested amount, a swap that
    follows a request executes a quote for the amount of that request. *)
Lemma swaps_at_requested_amount env req evs : ∀ prev,
  echoesAmount env → swapsFollow req prev evs →
  (∀ e, prev = Some e → answeredBy env e) → Forall (answeredBy env) evs →
  Forall (λ a, a = q_amount req) (swappedAmounts evs).
Proof.
  induction evs as [|e evs IH]; intros prev Hh Hf Hprev Hall; [constructor|].
  destruct Hf as [He Hf]. apply Forall_cons in Hall as [Hae Hall].
  assert (Forall (λ a, a = q_amount req) (swappedAmounts evs)) as Hrest.
  { apply (IH (Some e)); [done..| |done]. by intros ? [= <-]. }
  destruct e as [r rp|q sr| |]; simpl; try done.
  constructor; [|done].
  destruct He as (reply & -> & Hout). apply quoteOutcome_some in Hout as ->.
  destruct (Hprev _ eq_refl) as [n Hn]. by eapply Hh.
Qed.

(** ** The sell cascade *)

Lemma uniq_subset seen xs x : x ∈ uniq seen xs → x ∈ xs.
Proof.
  revert seen. induction xs as [|y xs IH]; intros seen; simpl; [done|].
  case_bool_decide.
  - intros H'. apply list_elem_of_further. by eapply IH.
  - intros [->|H']%elem_of_cons; [apply list_elem_of_here|].
    apply list_elem_of_further. by eapply IH.
Qed.

(** When the base slippage and the fixed rungs fit under the maximum, as
    they do with the shipped defaults, so does the whole ladder. *)
Lemma sellLadder_within cfg :
  Z.max (slippageOr200 cfg) 200 ≤ MAX_SLIPPAGE_BPS cfg → 900 ≤ MAX_SLIPPAGE_BPS cfg →
  Forall (λ s, s ≤ MAX_SLIPPAGE_BPS cfg) (sellLadder cfg).
Proof.
  intros Hbase H900. apply Forall_forall. intros s Hs.
  apply uniq_subset in Hs.
  repeat (apply elem_of_cons in Hs as [->|Hs]); [lia..|].
  by apply elem_of_nil in Hs.
Qed.

Lemma overLadder_cascade (f : Z → M string) slips more : ∀ (w : World),
  cascade (map f slips ++ more) w
  = match overLadder f slips w with
    | (Ok (Some sig), w') => (Ok sig, w')
    | (Ok None, w') => cascade more w'
    | (Throw msg, w') => (Throw msg, w')
    end.
Proof.
  induction slips as [|s slips IH]; intros w; simpl; [done|].
  destruct (f s w) as [[sig|msg] w']; [done|].
  destruct (noViableRoute msg); [apply IH|done].
Qed.

(** The three loops of [sellTokenForSol] are one cascade over its rungs. *)
Lemma sellTokenForSol_cascade cfg env m amountRaw (w : World) :
  m ≠ SOL_MINT → 0 < amountRaw →
  sellTokenForSol cfg env m amountRaw w = cascade (sellRungs cfg env m amountRaw) w.
Proof.
  intros Hm Hamt. unfold sellTokenForSol, sellRungs.
  rewrite (proj2 (String.eqb_neq m SOL_MINT) Hm).
  rewrite bool_decide_eq_false_2 by lia.
  cbv zeta. generalize (sellLadder cfg) as slips. intros slips.
  rewrite overLadder_cascade. unfold mbind, M_bind, mret, M_ret, throw.
  destruct (overLadder (tryDirect env m amountRaw) slips w)
    as [[[sig|]|msg] w1]; [done| |done].
  rewrite <-(app_nil_r (map (viaUSDC env m _) slips)).
  case_bool_decide.
  - rewrite overLadder_cascade.
    destruct (overLadder (tryDirect env m _) slips w1)
      as [[[sig|]|msg] w2]; [done| |done].
    rewrite overLadder_cascade.
    by destruct (overLadder (viaUSDC env m _) slips w2)
      as [[[sig|]|msg] w3].
  - rewrite app_nil_l, overLadder_cascade.
    by destruct (overLadder (viaUSDC env m _) slips w1)
      as [[[sig|]|msg] w3].
Qed.

(** A two-hop rung fails exactly when its first hop fails, and with that
    error: the balance lookup of a token does not throw, and the second hop
    sits in its own [try] whose [catch] is empty. *)
Lemma viaUSDC_first_hop env m amt slip (w : World) :
  match toUSDC env m amt slip w with
  | (Throw msg, w1) => viaUSDC env m amt slip w = (Throw msg, w1)
  | (Ok sig1, w1) =>
      ∃ sig w2, viaUSDC env m amt slip w = (Ok sig, w2)
                ∧ (sig = sig1 ∨ ∃ sig2, sig = sig1 +:+ " , " +:+ sig2)
  end.
Proof.
  unfold viaUSDC, mbind, M_bind, tryCatch, mret, M_ret, getTokenBalance, balanceOutcome.
  destruct (toUSDC env m amt slip w) as [[sig1|msg] w1]; [|done].
  assert (String.eqb USDC_MINT SOL_MINT = false) as -> by reflexivity.
  destruct (balanceNet env (length (trace w1)) USDC_MINT) as [msg|n].
  - rewrite bool_decide_eq_false_2 by lia. eexists _, _. split; [reflexivity|by left].
  - case_bool_decide; [|eexists _, _; split; [reflexivity|by left]].
    destruct (getQuote env _ _) as [[[q2|]|msg] w3];
      [|eexists _, _; split; [reflexivity|by left]..].
    destruct (doSwap env q2 w3) as [[sig2|msg] w4];
      eexists _, _; (split; [reflexivity|]); [right; eauto|by left].
Qed.

Lemma cascade_advances pre : ∀ (w w1 : World) rest,
  allNoRoute pre w w1 → cascade (pre ++ rest) w = cascade rest w1.
Proof.
  induction pre as [|r pre IH]; intros w w1 rest H; simpl in *; [by subst|].
  destruct H as (msg & w' & -> & -> & H). by apply IH.
Qed.

Lemma cascade_aborts pre r post (w w1 w2 : World) msg :
  allNoRoute pre w w1 → r w1 = (Throw msg, w2) → noViableRoute msg = false →
  cascade (pre ++ r :: post) w = (Throw msg, w2).
Proof.
  intros Hpre Hr Hno. rewrite (cascade_advances pre w w1) by done.
  simpl. by rewrite Hr, Hno.
Qed.

Lemma cascade_succeeds pre r post (w w1 w2 : World) sig :
  allNoRoute pre w w1 → r w1 = (Ok sig, w2) →
  cascade (pre ++ r :: post) w = (Ok sig, w2).
Proof.
  intros Hpre Hr. rewrite (cascade_advances pre w w1) by done.
  simpl. by rewrite Hr.
Qed.

Lemma cascade_exhausts rungs (w w1 : World) :
  allNoRoute rungs w w1 → cascade rungs w = (Throw exhausted, w1).
Proof.
  intros H. rewrite <-(app_nil_r rungs). by rewrite (cascade_advances rungs w w1).
Qed.

End TraderFacts.

Section TraderClaims.
Import TraderBot TraderSpec Samples.

(** C5, on the sell path, at [MAX_SLIPPAGE_BPS=300].  The ladder is built
    from the base slippage, the fixed rungs 400, 700 and 900 and the cap
    min(MAX_SLIPPAGE_BPS, 1100); only the cap is bounded by the maximum.
    With a maximum of 300 the ladder is 200, 400, 700, 900, 300, and a sell
    that finds no route submits every rung of it, three times over: quote
    requests at 400, 700 and 900 bps go out although the configured maximum
    is 300.  (The buy path clamps its one slippage value to the maximum,
    see [buyTokenWithSol_slippage].) *)
Theorem sell_ladder_exceeds_max :
  MAX_SLIPPAGE_BPS cfgTight = 300
  ∧ sellLadder cfgTight = [200; 400; 700; 900; 300]
  ∧ slippagesAsked (trace (sellTokenForSol cfgTight noRoutes "M1" 1000 idle).2)
    = [200; 400; 700; 900; 300; 200; 400; 700; 900; 300; 200; 400; 700; 900; 300]
  ∧ Exists (λ s, MAX_SLIPPAGE_BPS cfgTight < s)
      (slippagesAsked (trace (sellTokenForSol cfgTight noRoutes "M1" 1000 idle).2)).
Proof. by_evaluation. Qed.

(** The same on the base rung: with [JUP_SLIPPAGE_BPS=2000] and the shipped
    maximum of 1100 the first rung of the sell ladder is 2000, where the buy
    path asks for 1100. *)
Example sell_base_exceeds_max :
  sellLadder (mkConfig true 2000 1100 None) = [2000; 400; 700; 900; 1100]
  ∧ buySlippage (mkConfig true 2000 1100 None) = 1100.
Proof. by_evaluation. Qed.

(** With the shipped defaults the ladder is 200, 400, 700, 900, 1100. *)
Example sell_ladder_default : sellLadder cfgDefault = [200; 400; 700; 900; 1100].
Proof. by_evaluation. Qed.

(** C7. The first request of a buy asks for the configured budget, the
    probe for max(budget, probe amount).  One buy attempt runs the script
    of the specification ([attemptScript]), call by call: the budget is
    quoted first; when that finds no route the probe is quoted; when the
    probe finds none either (or fails) the attempt fails with
    [noviableroute]; when the probe finds a route the budget is quoted
    again, and the swap executes the answer to that request.  A call of
    [buyTokenWithSol] that passes its two guards begins with such an
    attempt, and returns its signature, or rethrows its error when the
    error is not worth a retry, without another call.  Over the whole
    call, retries included, every swap comes right after a quote request
    at the budget and executes the quote that request returned, never the
    probe's; with a quote service that echoes the requested amount, the
    input amount of every executed quote is the budget. *)
Theorem buy_probes_then_requotes :
  ∀ (cfg : Config) (env : Env) (m : string) (solBudget : Qc) (w : World),
    q_amount (budgetRequest cfg env m solBudget) = lamportsBudget env solBudget
    ∧ q_amount (probeRequest cfg env m solBudget)
      = Z.max (lamportsBudget env solBudget)
          (Qfloor (fl env (default (Q2Qc (1 # 50)) (JUP_PROBE_SOL cfg)
                           * Q2Qc 1000000000)%Qc))
    ∧ buyAttempt cfg env m solBudget w
      = ((attemptScript cfg env m solBudget (length (trace w))).2,
         mkWorld (trace w ++ (attemptScript cfg env m solBudget (length (trace w))).1)
           (buyLocks w))
    ∧ (AUTO_TRADE cfg = true → m ∉ buyLocks w →
       ∃ rest,
         trace (buyTokenWithSol cfg env m solBudget w).2
         = trace w ++ (attemptScript cfg env m solBudget (length (trace w))).1 ++ rest
         ∧ (∀ sig, (attemptScript cfg env m solBudget (length (trace w))).2 = Ok sig →
              rest = [] ∧ (buyTokenWithSol cfg env m solBudget w).1 = Ok sig)
         ∧ (∀ msg, (attemptScript cfg env m solBudget (length (trace w))).2 = Throw msg →
              retryable msg = false →
              rest = [] ∧ (buyTokenWithSol cfg env m solBudget w).1 = Throw msg))
    ∧ (∃ evs, appended w (buyTokenWithSol cfg env m solBudget w).2 evs
         ∧ Forall (answeredBy env) evs
         ∧ swapsFollow (budgetRequest cfg env m solBudget) None evs
         ∧ (echoesAmount env →
            Forall (λ a, a = lamportsBudget env solBudget) (swappedAmounts evs))).
Proof.
  intros cfg env m solBudget w. split; [done|]. split; [done|].
  split; [apply buyAttempt_script|]. split.
  - intros Hon Hfree. unfold buyTokenWithSol, finally, isLocked.
    rewrite Hon, bool_decide_eq_false_2 by done. cbn [negb].
    destruct (buyLoop_first (buyAttempt cfg env m solBudget) delays (lockMint m w))
      as (rest & Htr & Hok & Hthrow).
    { intros w0. rewrite buyAttempt_script. eauto. }
    rewrite buyAttempt_script in Htr, Hok, Hthrow. cbn [fst snd trace lockMint] in *.
    exists rest.
    destruct (buyLoop (buyAttempt cfg env m solBudget) delays (lockMint m w))
      as [r w'] eqn:Hloop.
    cbn [fst snd trace unlockMint] in *. split_and!.
    + by rewrite Htr, <-app_assoc.
    + intros sig Hsig. destruct (Hok sig Hsig) as [-> Heq]. split; [done|].
      injection Heq as -> _. done.
    + intros msg Hmsg Hno. destruct (Hthrow msg Hmsg Hno) as [-> Heq]. split; [done|].
      injection Heq as -> _. done.
  - destruct (buyTokenWithSol_trace cfg env m solBudget w) as (evs & Happ & Hans & Htr).
    exists evs. split; [done|]. split; [done|].
    assert (swapsFollow (budgetRequest cfg env m solBudget) None evs) as Hf.
    { destruct Htr as [->|Htr]; [done|]. by eapply LoopTrace_swapsFollow. }
    split; [done|]. intros Hecho.
    by apply (swaps_at_requested_amount env
                (budgetRequest cfg env m solBudget) evs None).
Qed.

Lemma routeAfterProbe_echoes : echoesAmount routeAfterProbe.
Proof.
  intros n req failed payload. simpl. case_bool_decide; [done|].
  by intros [= _ <-].
Qed.

Lemma buy_probes_then_requotes_witness :
  AUTO_TRADE cfgDefault = true ∧ ("M1" ∉ buyLocks idle)
  ∧ echoesAmount routeAfterProbe
  ∧ (buyTokenWithSol cfgDefault routeAfterProbe "M1" (q 1 100) idle).1 = Ok "5h3sig"
  ∧ ∃ evs,
      appended idle (buyTokenWithSol cfgDefault routeAfterProbe "M1" (q 1 100) idle).2 evs
      ∧ Forall (λ a, a = lamportsBudget routeAfterProbe (q 1 100)) (swappedAmounts evs).
Proof.
  assert ("M1" ∉ buyLocks idle) as Hfree by (simpl; set_solver).
  split; [reflexivity|]. split; [exact Hfree|].
  split; [apply routeAfterProbe_echoes|].
  destruct (buy_probes_then_requotes cfgDefault routeAfterProbe "M1" (q 1 100) idle)
    as (_ & _ & _ & Hcall & evs & Happ & _ & _ & Hamt).
  split.
  - destruct (Hcall eq_refl Hfree) as (rest & _ & Hok & _).
    by destruct (Hok "5h3sig" eq_refl) as [_ ?].
  - exists evs. split; [exact Happ|]. apply Hamt, routeAfterProbe_echoes.
Defined.

(** In binary64 arithmetic a budget of 4.1 SOL is 4 099 999 999 lamports:
    the product 4.1 * 1e9 rounds to 4099999999.9999995. *)
Example binary64_budget_rounds_down :
  lamportsBudget noRoutesInBinary64 (binary64 (q 41 10)) = 4099999999
  ∧ lamportsBudget noRoutes (q 41 10) = 4100000000.
Proof. split; vm_compute; reflexivity. Qed.

(** The script of a buy of 0.01 SOL whose first quote finds no route: the
    budget, the probe, the budget again, and the swap of the last answer. *)
Example buy_probe_script :
  (attemptScript cfgDefault routeAfterProbe "M1" (q 1 100) 0).1
  = [EvQuote (budgetRequest cfgDefault routeAfterProbe "M1" (q 1 100)) QuoteNotOk;
     EvQuote (probeRequest cfgDefault routeAfterProbe "M1" (q 1 100))
       (QuotePayload false
          (echoQuote (probeRequest cfgDefault routeAfterProbe "M1" (q 1 100))));
     EvQuote (budgetRequest cfgDefault routeAfterProbe "M1" (q 1 100))
       (QuotePayload false
          (echoQuote (budgetRequest cfgDefault routeAfterProbe "M1" (q 1 100))));
     EvSwap (echoQuote (budgetRequest cfgDefault routeAfterProbe "M1" (q 1 100)))
       (SwapConfirmed "5h3sig")]
  ∧ q_amount (budgetRequest cfgDefault routeAfterProbe "M1" (q 1 100)) = 10000000
  ∧ q_amount (probeRequest cfgDefault routeAfterProbe "M1" (q 1 100)) = 20000000.
Proof. repeat split; vm_compute; reflexivity. Qed.

(** A buy of 0.01 SOL whose first quote finds no route: the requests ask
    for 10 000 000 lamports, then for the probe's 20 000 000, then for
    10 000 000 again, and the one swap executes a quote for 10 000 000. *)
Example buy_probe_scenario :
  amountsAsked (trace (buyTokenWithSol cfgDefault routeAfterProbe "M1" (q 1 100) idle).2)
  = [10000000; 20000000; 10000000]
  ∧ swappedAmounts
      (trace (buyTokenWithSol cfgDefault routeAfterProbe "M1" (q 1 100) idle).2)
    = [10000000]
  ∧ (buyTokenWithSol cfgDefault routeAfterProbe "M1" (q 1 100) idle).1 = Ok "5h3sig".
Proof. repeat split; vm_compute; reflexivity. Qed.

(** A run of the cascade ends in exactly one of three ways. *)
Lemma cascade_cases (rungs : list (M string)) : ∀ (w : World),
  (∃ w1, allNoRoute rungs w w1)
  ∨ ∃ pre r post w1 w2,
      rungs = pre ++ r :: post ∧ allNoRoute pre w w1
      ∧ ((∃ sig, r w1 = (Ok sig, w2))
         ∨ ∃ msg, r w1 = (Throw msg, w2) ∧ noViableRoute msg = false).
Proof.
  induction rungs as [|r rungs IH]; intros w; [left; by exists w|].
  destruct (r w) as [[sig|msg] w'] eqn:Hr.
  - right. exists [], r, rungs, w, w'. split; [done|]. split; [done|]. left. eauto.
  - destruct (noViableRoute msg) eqn:Hno.
    + destruct (IH w') as [[w1 Hall]|(pre & r' & post & w1 & w2 & -> & Hall & Hend)].
      * left. exists w1. simpl. eauto 10.
      * right. exists (r :: pre), r', post, w1, w2. split; [done|].
        split; [simpl; eauto 10|done].
    + right. exists [], r, rungs, w, w'. split; [done|]. split; [done|]. right. eauto.
Qed.

(** C8.  The sell cascade runs its rungs in order: the full amount over
    the slippage ladder, 95% of the amount over the ladder, the two-hop
    route over the ladder.  A rung that fails with a message that does not
    match [noviableroute] ends the cascade at once, and [sellTokenForSol]
    throws that very error, leaving the world as the rung left it; the
    cascade reaches a rung only when every rung before it failed with a
    no-route error; a rung that succeeds ends it with its signature; and
    when every rung failed with a no-route error the call fails with
    "noviableroute: token illiquid or dust too small".  The errors of a
    two-hop rung are the errors of its first hop: once the first hop is
    confirmed the rung succeeds, with the first hop's signature alone when
    the best-effort second hop fails or is not attempted. *)
Theorem sell_cascade_errors :
  ∀ (cfg : Config) (env : Env) (m : string) (amountRaw : Z) (w : World),
    m ≠ SOL_MINT → 0 < amountRaw →
    (∀ pre r post w1 w2 msg,
       sellRungs cfg env m amountRaw = pre ++ r :: post →
       allNoRoute pre w w1 → r w1 = (Throw msg, w2) → noViableRoute msg = false →
       sellTokenForSol cfg env m amountRaw w = (Throw msg, w2))
    ∧ (∀ pre r post w1 w2 sig,
         sellRungs cfg env m amountRaw = pre ++ r :: post →
         allNoRoute pre w w1 → r w1 = (Ok sig, w2) →
         sellTokenForSol cfg env m amountRaw w = (Ok sig, w2))
    ∧ (∀ w1, allNoRoute (sellRungs cfg env m amountRaw) w w1 →
         sellTokenForSol cfg env m amountRaw w
         = (Throw "noviableroute: token illiquid or dust too small", w1))
    ∧ sellRungs cfg env m amountRaw
      = map (tryDirect env m amountRaw) (sellLadder cfg)
        ++ (if bool_decide (0 < Z.quot (amountRaw * 95) 100)
            then map (tryDirect env m (Z.quot (amountRaw * 95) 100)) (sellLadder cfg)
            else [])
        ++ map (viaUSDC env m (if bool_decide (0 < Z.quot (amountRaw * 95) 100)
                               then Z.quot (amountRaw * 95) 100 else amountRaw))
             (sellLadder cfg)
    ∧ (∀ amt slip w0 msg w1,
         toUSDC env m amt slip w0 = (Throw msg, w1) →
         viaUSDC env m amt slip w0 = (Throw msg, w1))
    ∧ (∀ amt slip w0 sig1 w1,
         toUSDC env m amt slip w0 = (Ok sig1, w1) →
         ∃ sig w2, viaUSDC env m amt slip w0 = (Ok sig, w2)
                   ∧ (sig = sig1 ∨ ∃ sig2, sig = sig1 +:+ " , " +:+ sig2)).
Proof.
  intros cfg env m amountRaw w Hm Hamt.
  split; [|split; [|split; [|split; [done|split]]]].
  - intros pre r post w1 w2 msg Hsplit Hpre Hr Hno.
    rewrite sellTokenForSol_cascade, Hsplit by done. by eapply cascade_aborts.
  - intros pre r post w1 w2 sig Hsplit Hpre Hr.
    rewrite sellTokenForSol_cascade, Hsplit by done. by eapply cascade_succeeds.
  - intros w1 Hall. rewrite sellTokenForSol_cascade by done.
    by apply cascade_exhausts.
  - intros amt slip w0 msg w1 Hhop.
    pose proof (viaUSDC_first_hop env m amt slip w0) as H. by rewrite Hhop in H.
  - intros amt slip w0 sig1 w1 Hhop.
    pose proof (viaUSDC_first_hop env m amt slip w0) as H. by rewrite Hhop in H.
Qed.

Lemma sell_cascade_errors_witness :
  "M1" ≠ SOL_MINT ∧ 0 < 1000
  ∧ noViableRoute "swap http 400: bad request" = false
  ∧ sellTokenForSol cfgDefault swapRejected "M1" 1000 idle
    = (Throw "swap http 400: bad request",
       (tryDirect swapRejected "M1" 1000 200 idle).2).
Proof.
  assert ("M1" ≠ SOL_MINT) as Hm by done.
  assert (0 < 1000) as Hamt by lia.
  split; [exact Hm|]. split; [exact Hamt|]. split; [reflexivity|].
  refine (proj1 (sell_cascade_errors cfgDefault swapRejected "M1" 1000 idle Hm Hamt)
            [] (tryDirect swapRejected "M1" 1000 200) _ idle _
            "swap http 400: bad request" _ _ _ _); reflexivity.
Defined.

(** With no route anywhere the cascade asks fifteen quotes, five per tier,
    and fails with the exhaustion error; nothing is swapped. *)
Example sell_exhausted_scenario :
  (sellTokenForSol cfgDefault noRoutes "M1" 1000 idle).1 = Throw exhausted
  ∧ amountsAsked (trace (sellTokenForSol cfgDefault noRoutes "M1" 1000 idle).2)
    = [1000; 1000; 1000; 1000; 1000; 950; 950; 950; 950; 950; 950; 950; 950; 950; 950]
  ∧ swappedAmounts (trace (sellTokenForSol cfgDefault noRoutes "M1" 1000 idle).2) = [].
Proof. repeat split; vm_compute; reflexivity. Qed.

(** The best-effort second hop.  No direct route exists, the first hop
    into USDC is confirmed with signature "hop1sig", the wallet then holds
    42 units of USDC, and the swap of the second hop is rejected with an
    http 500: [sellTokenForSol] returns the first hop's signature. *)
Example second_hop_is_best_effort :
  last (trace (sellTokenForSol cfgDefault secondHopRejected "M1" 1000 idle).2)
  = Some (EvSwap (echoQuote (mkRequest USDC_MINT SOL_MINT 42 200 None (Some 64)))
            (SwapHttpError "500" "upstream"))
  ∧ (sellTokenForSol cfgDefault secondHopRejected "M1" 1000 idle).1 = Ok "hop1sig".
Proof. repeat split; vm_compute; reflexivity. Qed.

(** A balance lookup that fails counts as no balance: the second hop is
    not attempted and the call returns the first hop's signature. *)
Example failed_balance_lookup_is_no_balance :
  getTokenBalance (mkEnv (quoteNet secondHopRejected) (swapNet secondHopRejected)
                     (λ _ _, BalanceFails "rpc down") exactly) USDC_MINT idle
  = (Ok 0, mkWorld [EvBalance USDC_MINT (BalanceFails "rpc down")] ∅)
  ∧ (sellTokenForSol cfgDefault
       (mkEnv (quoteNet secondHopRejected) (swapNet secondHopRejected)
          (λ _ _, BalanceFails "rpc down") exactly) "M1" 1000 idle).1
    = Ok "hop1sig".
Proof. repeat split; vm_compute; reflexivity. Qed.

End TraderClaims.

(** * Further properties of the Position Store *)
Section StoreMore.
Import Signals SignalsSpec StoreSpec Samples.

Implicit Types (s x : Signal) (l file : list Signal) (i j k n : nat).

Lemma sameIdentity_refl s : sameIdentity s s.
Proof. done. Qed.

Lemma extendsStore_forEachWhere cond body l n :
  (∀ k s, sameIdentity s (body k s)) → extendsStore l (forEachWhere cond body l n).1.
Proof.
  intros Hbody. split; [rewrite forEachWhere_length; lia|].
  intros i s Hi. destruct (forEachWhere_lookup cond body l n i s Hi) as (s' & Hs' & Hb).
  exists s'. split; [done|]. destruct (cond s); [|by subst].
  by destruct Hb as (k & _ & ->).
Qed.

Lemma extendsStore_insert (f : Signal → Signal) l i x :
  l !! i = Some x → sameIdentity x (f x) → extendsStore l (<[i := f x]> l).
Proof.
  intros Hi Hid. split; [rewrite length_insert; lia|].
  intros j s Hj. destruct (decide (i = j)) as [->|Hne].
  - rewrite Hi in Hj. injection Hj as <-. exists (f x). split; [|done].
    apply list_lookup_insert_eq. by eapply lookup_lt_Some.
  - exists s. by rewrite list_lookup_insert_ne.
Qed.

Lemma extendsStore_snoc l x : extendsStore l (l ++ [x]).
Proof.
  split; [rewrite length_app; simpl; lia|].
  intros i s Hi. exists s. split; [by apply lookup_app_l_Some|done].
Qed.

Lemma mergeInto_identity now p s : sameIdentity s (mergeInto now p s).
Proof.
  unfold mergeInto, sameIdentity.
  destruct (nonEmpty (p_symbol p) && negb (nonEmpty _));
    destruct (bool_decide (is_Some (p_source p)) && negb (bool_decide _)); done.
Qed.

Lemma exitBody_identity clock px reason k s : sameIdentity s (exitBody clock px reason k s).
Proof.
  unfold exitBody, sameIdentity. simpl.
  destruct (entryPriceUsd s); [case_bool_decide|]; done.
Qed.

Lemma upsertBuy_extends now p file : extendsStore file (upsertBuy now p file).2.
Proof.
  unfold upsertBuy. destruct (list_find _ file) as [[idx s]|] eqn:Hf;
    [|apply extendsStore_snoc].
  case_bool_decide; [|apply extendsStore_snoc]. simpl.
  apply list_find_Some in Hf as (Hidx & _ & _).
  apply (extendsStore_insert (mergeInto now p)); [done|apply mergeInto_identity].
Qed.

Lemma attachTraderBuy_extends sig jupSig spent file :
  extendsStore file (attachTraderBuy sig jupSig spent file).
Proof.
  unfold attachTraderBuy. destruct (list_find _ file) as [[idx x]|] eqn:Hf.
  - apply list_find_Some in Hf as (Hidx & _ & _).
    by apply (extendsStore_insert (set_trader _)).
  - split; [lia|]. intros i s Hi. by exists s.
Qed.

Lemma attachTraderSell_extends sig jupSig file :
  extendsStore file (attachTraderSell sig jupSig file).
Proof.
  unfold attachTraderSell. destruct (list_find _ file) as [[idx x]|] eqn:Hf.
  - apply list_find_Some in Hf as (Hidx & _ & _).
    by apply (extendsStore_insert (set_trader _)).
  - split; [lia|]. intros i s Hi. by exists s.
Qed.

(** X1. No operation of the Position Store removes or reorders signals:
    the store it leaves holds every signal of the store it found, at the
    same position and with the same [ts], [wallet] and [mint], and at most
    one signal more (the one [upsertBuy] may append). *)
Theorem store_never_drops_signals :
  ∀ (file : list Signal),
    (∀ now p, extendsStore file (upsertBuy now p file).2)
    ∧ (∀ sig jupSig spent, extendsStore file (attachTraderBuy sig jupSig spent file))
    ∧ (∀ sig jupSig, extendsStore file (attachTraderSell sig jupSig file))
    ∧ (∀ clock w m reason, extendsStore file (closeByWalletAndMint clock w m reason file).2)
    ∧ (∀ clock w m px reason,
         extendsStore file (closeByWalletMintWithExit clock w m px reason file).2)
    ∧ (∀ newPct, extendsStore file (updateOpenSignalsStopLoss newPct file).2).
Proof.
  intros file.
  split; [intros; apply upsertBuy_extends|].
  split; [intros; apply attachTraderBuy_extends|].
  split; [intros; apply attachTraderSell_extends|].
  split; [|split]; intros.
  - unfold closeByWalletAndMint. rewrite saveIfChanged_list.
    by apply extendsStore_forEachWhere.
  - unfold closeByWalletMintWithExit. rewrite saveIfChanged_list.
    apply extendsStore_forEachWhere. intros. apply exitBody_identity.
  - unfold updateOpenSignalsStopLoss. rewrite saveIfChanged_list.
    by apply extendsStore_forEachWhere.
Qed.

Lemma existsb_open_mint m file i s :
  file !! i = Some s → status s = open → mint s = m →
  hasOpenSignalForMint m file = true.
Proof.
  intros Hi Ho Hm. unfold hasOpenSignalForMint. apply existsb_exists.
  exists s. split; [apply list_elem_of_In, list_elem_of_lookup; eauto|].
  by apply bool_decide_eq_true.
Qed.

Lemma upsertBuy_returns now p file :
  ∃ idx, (upsertBuy now p file).2 !! idx = Some (upsertBuy now p file).1
         ∧ openFor (p_wallet p) (p_mint p) (upsertBuy now p file).1
         ∧ updatedTs (upsertBuy now p file).1 = Some now.
Proof.
  unfold upsertBuy.
  assert (∃ idx, (file ++ [newSig now p]) !! idx = Some (newSig now p)
                 ∧ openFor (p_wallet p) (p_mint p) (newSig now p)
                 ∧ updatedTs (newSig now p) = Some now) as Hpush.
  { exists (length file). split; [|done]. apply list_lookup_middle. done. }
  destruct (list_find _ file) as [[idx s]|] eqn:Hf; [|done].
  case_bool_decide; [|done]. simpl.
  apply list_find_Some in Hf as (Hidx & (Ho & Hw & Hm) & _).
  destruct (mergeInto_key now p s) as (Hkw & Hkm & Hks).
  destruct (mergeInto_fields now p s) as (_ & _ & Hup & _).
  exists idx. split; [|split; [|done]].
  - apply list_lookup_insert_eq. by eapply lookup_lt_Some.
  - repeat split; congruence.
Qed.

(** X2. [upsertBuy] returns the signal it stored: the returned signal sits
    in the saved list, it is open, it belongs to the buyer's wallet and
    mint and it was last updated now; right after the call
    [hasOpenSignalForMint] answers true for the mint. *)
Theorem upsertBuy_returns_stored_signal :
  ∀ (now : Z) (p : BuyParams) (file : list Signal),
    (∃ idx, (upsertBuy now p file).2 !! idx = Some (upsertBuy now p file).1)
    ∧ status (upsertBuy now p file).1 = open
    ∧ wallet (upsertBuy now p file).1 = p_wallet p
    ∧ mint (upsertBuy now p file).1 = p_mint p
    ∧ updatedTs (upsertBuy now p file).1 = Some now
    ∧ hasOpenSignalForMint (p_mint p) (upsertBuy now p file).2 = true.
Proof.
  intros now p file.
  destruct (upsertBuy_returns now p file) as (idx & Hidx & (Ho & Hw & Hm) & Hup).
  split; [eauto|]. repeat (split; [done|]).
  by eapply existsb_open_mint.
Qed.

(** ** Closing: count and frame *)

Lemma forEachWhere_count (P : Signal → Prop) `{∀ y, Decision (P y)} body l n :
  (forEachWhere (λ y, bool_decide (P y)) body l n).2 = (n + length (filter P l))%nat.
Proof.
  revert n. induction l as [|s l IH]; intros n; simpl; [lia|].
  rewrite filter_cons. case_bool_decide as Hc.
  - rewrite decide_True by done. simpl. rewrite IH. simpl. lia.
  - rewrite decide_False by done. simpl. by rewrite IH.
Qed.

Lemma forEachWhere_post (P : Signal → Prop) `{∀ y, Decision (P y)} body l n :
  (∀ k s, ¬ P (body k s)) →
  ∀ s', s' ∈ (forEachWhere (λ y, bool_decide (P y)) body l n).1 → ¬ P s'.
Proof.
  intros Hbody s' Hs'. apply list_elem_of_lookup in Hs' as [i Hi].
  apply forEachWhere_lookup_inv in Hi as (s & _ & Hb).
  case_bool_decide; [|by subst]. destruct Hb as (k & _ & ->). apply Hbody.
Qed.

(** X3. The two close operations close exactly the open signals of the
    pair: the count they return is the number of open signals of the
    (wallet, mint) in the store, afterwards no signal of the pair is open,
    and every signal that was not an open signal of the pair is left as it
    was. *)
Theorem close_counts_and_frames :
  ∀ (clock : nat → Z) (w m : string) (file : list Signal),
    (∀ reason,
       (closeByWalletAndMint clock w m reason file).1
       = length (filter (openFor w m) file)
       ∧ (∀ s, s ∈ (closeByWalletAndMint clock w m reason file).2 → ¬ openFor w m s)
       ∧ (∀ i s, file !! i = Some s → ¬ openFor w m s →
            (closeByWalletAndMint clock w m reason file).2 !! i = Some s))
    ∧ (∀ px reason,
         (closeByWalletMintWithExit clock w m px reason file).1
         = length (filter (openFor w m) file)
         ∧ (∀ s, s ∈ (closeByWalletMintWithExit clock w m px reason file).2 →
              ¬ openFor w m s)
         ∧ (∀ i s, file !! i = Some s → ¬ openFor w m s →
              (closeByWalletMintWithExit clock w m px reason file).2 !! i = Some s)).
Proof.
  intros clock w m file. split.
  - intros reason. unfold closeByWalletAndMint. rewrite saveIfChanged_list.
    split; [|split].
    + unfold saveIfChanged. simpl. by rewrite forEachWhere_count.
    + apply forEachWhere_post. intros k s [Ho _]. done.
    + intros i s Hi Hno. apply forEachWhere_keeps; [done|].
      by apply bool_decide_eq_false.
  - intros px reason. unfold closeByWalletMintWithExit. rewrite saveIfChanged_list.
    split; [|split].
    + unfold saveIfChanged. simpl. by rewrite forEachWhere_count.
    + apply forEachWhere_post. intros k s [Ho _].
      by rewrite exitBody_status in Ho.
    + intros i s Hi Hno. apply forEachWhere_keeps; [done|].
      by apply bool_decide_eq_false.
Qed.

End StoreMore.

Section StoreMore2.
Import Signals SignalsSpec StoreSpec Samples.

Implicit Types (s x : Signal) (l file : list Signal) (i j k n : nat).

(** ** Bulk stop-loss update *)

Lemma set_stopLossPct_same s : set_stopLossPct (stopLossPct s) s = s.
Proof. by destruct s. Qed.

Lemma stopLoss_loop_count newPct l n :
  (forEachWhere
     (λ s, bool_decide (status s = open) && negb (bool_decide (stopLossPct s = newPct)))
     (λ _ s, set_stopLossPct newPct s) l n).2
  = (n + length (filter (λ s, status s = open ∧ stopLossPct s ≠ newPct) l))%nat.
Proof.
  revert n. induction l as [|s l IH]; intros n; simpl; [lia|].
  rewrite filter_cons.
  destruct (decide (status s = open ∧ stopLossPct s ≠ newPct)) as [[Ho Hne]|Hno].
  - rewrite (bool_decide_eq_true_2 _ Ho), (bool_decide_eq_false_2 _ Hne). simpl.
    rewrite IH. simpl. lia.
  - assert (bool_decide (status s = open)
            && negb (bool_decide (stopLossPct s = newPct)) = false) as ->.
    { apply andb_false_iff. destruct (decide (status s = open)) as [Ho|Hc].
      - right. apply negb_false_iff, bool_decide_eq_true.
        destruct (decide (stopLossPct s = newPct)); [done|]. by destruct Hno.
      - left. by apply bool_decide_eq_false. }
    simpl. by rewrite IH.
Qed.

Lemma stopLoss_loop_lookup newPct l n i s :
  l !! i = Some s →
  (forEachWhere
     (λ s, bool_decide (status s = open) && negb (bool_decide (stopLossPct s = newPct)))
     (λ _ s, set_stopLossPct newPct s) l n).1 !! i
  = Some (if decide (status s = open) then set_stopLossPct newPct s else s).
Proof.
  intros Hi.
  destruct (forEachWhere_lookup
              (λ s, bool_decide (status s = open)
                    && negb (bool_decide (stopLossPct s = newPct)))
              (λ _ s, set_stopLossPct newPct s) l n i s Hi) as (s' & Hs' & Hb).
  rewrite Hs'. f_equal.
  destruct (decide (status s = open)) as [Ho|Hc].
  - rewrite (bool_decide_eq_true_2 _ Ho) in Hb. simpl in Hb.
    case_bool_decide as Heq; simpl in Hb.
    + subst s'. by rewrite <-Heq, set_stopLossPct_same.
    + by destruct Hb as (k & _ & ->).
  - rewrite (bool_decide_eq_false_2 _ Hc) in Hb. by simpl in Hb.
Qed.

(** X4. For a finite new value, [updateOpenSignalsStopLoss] returns the
    number of open signals whose stop-loss differs from the new value;
    afterwards every open signal carries the new value and every closed
    signal is as it was; a second call with the same value changes nothing
    and returns 0. *)
Theorem updateOpenSignalsStopLoss_applies :
  ∀ (newPct : Qc) (file : list Signal),
    (updateOpenSignalsStopLoss newPct file).1
    = length (filter (λ s, status s = open ∧ stopLossPct s ≠ newPct) file)
    ∧ (∀ i s, file !! i = Some s →
         (updateOpenSignalsStopLoss newPct file).2 !! i
         = Some (if decide (status s = open) then set_stopLossPct newPct s else s))
    ∧ updateOpenSignalsStopLoss newPct (updateOpenSignalsStopLoss newPct file).2
      = (0%nat, (updateOpenSignalsStopLoss newPct file).2).
Proof.
  intros newPct file.
  assert (∀ i s, file !! i = Some s →
            (updateOpenSignalsStopLoss newPct file).2 !! i
            = Some (if decide (status s = open) then set_stopLossPct newPct s else s))
    as Hlook.
  { intros i s Hi. unfold updateOpenSignalsStopLoss. rewrite saveIfChanged_list.
    by apply stopLoss_loop_lookup. }
  split; [|split; [done|]].
  - unfold updateOpenSignalsStopLoss, saveIfChanged. simpl.
    by rewrite stopLoss_loop_count.
  - set (file' := (updateOpenSignalsStopLoss newPct file).2).
    unfold updateOpenSignalsStopLoss at 1.
    rewrite forEachWhere_none; [done|].
    intros s' Hs'. apply list_elem_of_lookup in Hs' as [i Hi].
    assert (i < length file)%nat as Hlt.
    { apply lookup_lt_Some in Hi. subst file'. unfold updateOpenSignalsStopLoss in Hi.
      rewrite saveIfChanged_list, forEachWhere_length in Hi. done. }
    destruct (lookup_lt_is_Some_2 file i Hlt) as [s Hs].
    subst file'. rewrite (Hlook i s Hs) in Hi. injection Hi as <-.
    destruct (decide (status s = open)) as [Ho|Hc].
    + apply andb_false_iff. right. simpl. by rewrite bool_decide_eq_true_2.
    + apply andb_false_iff. left. by apply bool_decide_eq_false.
Qed.

(** ** Recording the bot's own buy on the signal just upserted *)

Lemma attachTraderBuy_at sig jupSig spent file idx :
  list_find (sameBuyTarget sig) file = Some (idx, sig) →
  attachTraderBuy sig jupSig spent file = <[idx := withBuy jupSig spent sig]> file.
Proof.
  intros Hf. unfold attachTraderBuy. rewrite Hf. unfold withBuy. by destruct spent.
Qed.

(** X6. Recording a buy on the signal [upsertBuy] just returned reaches
    that very signal: in a store with at most one open signal per pair,
    [attachTraderBuy] rewrites the position of the returned signal and no
    other, appending the confirmation id to its [buySigs] and adding the
    amount spent to its [solSpent]. *)
Theorem attachTraderBuy_after_upsertBuy :
  ∀ (now : Z) (p : BuyParams) (file : list Signal) (jupSig : string)
    (spent : option Qc),
    oneOpenPerPair (upsertBuy now p file).2 →
    ∃ idx, (upsertBuy now p file).2 !! idx = Some (upsertBuy now p file).1
      ∧ attachTraderBuy (upsertBuy now p file).1 jupSig spent (upsertBuy now p file).2
        = <[idx := withBuy jupSig spent (upsertBuy now p file).1]> (upsertBuy now p file).2.
Proof.
  intros now p file jupSig spent Hinv.
  destruct (upsertBuy_returns now p file) as (idx & Hidx & (Ho & Hw & Hm) & _).
  exists idx. split; [done|]. apply attachTraderBuy_at.
  apply list_find_Some. split; [done|]. split; [done|].
  intros j y Hj Hlt (_ & Hyw & Hym & Hys).
  assert (j = idx); [|lia].
  apply (Hinv j idx y _ Hj Hidx); congruence.
Qed.

Lemma attachTraderBuy_after_upsertBuy_witness :
  oneOpenPerPair (upsertBuy 10000 buyB [openA]).2
  ∧ ∃ idx, (upsertBuy 10000 buyB [openA]).2 !! idx = Some (upsertBuy 10000 buyB [openA]).1
      ∧ attachTraderBuy (upsertBuy 10000 buyB [openA]).1 "5h3sig" (Some (q 1 20))
          (upsertBuy 10000 buyB [openA]).2
        = <[idx := withBuy "5h3sig" (Some (q 1 20)) (upsertBuy 10000 buyB [openA]).1]>
            (upsertBuy 10000 buyB [openA]).2.
Proof.
  assert (oneOpenPerPair (upsertBuy 10000 buyB [openA]).2) as Hinv
    by apply oneOpenPerPair_singleton.
  split; [exact Hinv|].
  exact (attachTraderBuy_after_upsertBuy 10000 buyB [openA] "5h3sig" (Some (q 1 20)) Hinv).
Defined.

(** ** Amounts *)

Lemma keepsAmounts_forEachWhere cond body l n :
  (∀ k s, amount (body k s) = amount s ∧ entryPriceUsd (body k s) = entryPriceUsd s) →
  keepsAmounts l (forEachWhere cond body l n).1.
Proof.
  intros Hbody i s Hi.
  destruct (forEachWhere_lookup cond body l n i s Hi) as (s' & Hs' & Hb).
  exists s'. split; [done|]. destruct (cond s); [|by subst].
  destruct Hb as (k & _ & ->). apply Hbody.
Qed.

Lemma keepsAmounts_insert (f : Signal → Signal) l i x :
  l !! i = Some x → amount (f x) = amount x → entryPriceUsd (f x) = entryPriceUsd x →
  keepsAmounts l (<[i := f x]> l).
Proof.
  intros Hi Ha He j s Hj. destruct (decide (i = j)) as [->|Hne].
  - rewrite Hi in Hj. injection Hj as <-. exists (f x). split; [|done].
    apply list_lookup_insert_eq. by eapply lookup_lt_Some.
  - exists s. by rewrite list_lookup_insert_ne.
Qed.

Lemma upsertBuy_amounts now p file i s :
  (0 ≤ p_amount p)%Qc → file !! i = Some s →
  ∃ s', (upsertBuy now p file).2 !! i = Some s' ∧ (amount s ≤ amount s')%Qc.
Proof.
  intros Hpos Hi. unfold upsertBuy.
  assert (∃ s', (file ++ [newSig now p]) !! i = Some s' ∧ (amount s ≤ amount s')%Qc)
    as Hpush.
  { exists s. split; [by apply lookup_app_l_Some|apply Qcle_refl]. }
  destruct (list_find _ file) as [[idx s0]|] eqn:Hf; [|done].
  case_bool_decide; [|done]. simpl.
  apply list_find_Some in Hf as (Hidx & _ & _).
  destruct (decide (idx = i)) as [->|Hne].
  - rewrite Hi in Hidx. injection Hidx as <-. eexists. split.
    + apply list_lookup_insert_eq. by eapply lookup_lt_Some.
    + destruct (mergeInto_fields now p s) as (-> & _).
      rewrite <-(Qcplus_0_r (amount s)) at 1. by apply Qcplus_le_mono_l.
  - exists s. rewrite list_lookup_insert_ne by done. split; [done|apply Qcle_refl].
Qed.

(** X7. Only [upsertBuy] changes the observed size of a position, and it
    never lowers it: with a buy amount that is not negative every stored
    signal keeps or increases its [amount]; the close operations, the
    stop-loss update and the two trail operations leave [amount] and
    [entryPriceUsd] of every signal as they were. *)
Theorem amounts_only_grow :
  ∀ (file : list Signal),
    (∀ now p i s, (0 ≤ p_amount p)%Qc → file !! i = Some s →
       ∃ s', (upsertBuy now p file).2 !! i = Some s' ∧ (amount s ≤ amount s')%Qc)
    ∧ (∀ sig jupSig spent, keepsAmounts file (attachTraderBuy sig jupSig spent file))
    ∧ (∀ sig jupSig, keepsAmounts file (attachTraderSell sig jupSig file))
    ∧ (∀ clock w m reason, keepsAmounts file (closeByWalletAndMint clock w m reason file).2)
    ∧ (∀ clock w m px reason,
         keepsAmounts file (closeByWalletMintWithExit clock w m px reason file).2)
    ∧ (∀ newPct, keepsAmounts file (updateOpenSignalsStopLoss newPct file).2).
Proof.
  intros file.
  split; [intros; by apply upsertBuy_amounts|].
  split; [|split; [|split; [|split]]]; intros.
  - unfold attachTraderBuy. destruct (list_find _ file) as [[idx x]|] eqn:Hf.
    + apply list_find_Some in Hf as (Hidx & _ & _).
      by apply (keepsAmounts_insert (set_trader _)).
    + intros i s Hi. by exists s.
  - unfold attachTraderSell. destruct (list_find _ file) as [[idx x]|] eqn:Hf.
    + apply list_find_Some in Hf as (Hidx & _ & _).
      by apply (keepsAmounts_insert (set_trader _)).
    + intros i s Hi. by exists s.
  - unfold closeByWalletAndMint. rewrite saveIfChanged_list.
    by apply keepsAmounts_forEachWhere.
  - unfold closeByWalletMintWithExit. rewrite saveIfChanged_list.
    apply keepsAmounts_forEachWhere. intros k s. unfold exitBody.
    destruct s; simpl; repeat case_match; done.
  - unfold updateOpenSignalsStopLoss. rewrite saveIfChanged_list.
    by apply keepsAmounts_forEachWhere.
Qed.

Lemma amounts_only_grow_witness :
  (0 ≤ p_amount buyB)%Qc
  ∧ ∃ s', (upsertBuy 10000 buyB [openA]).2 !! 0%nat = Some s'
          ∧ (amount openA ≤ amount s')%Qc.
Proof.
  assert (0 ≤ p_amount buyB)%Qc as Hpos by by_evaluation.
  split; [exact Hpos|].
  exact (proj1 (amounts_only_grow [openA]) 10000 buyB 0%nat openA Hpos eq_refl).
Defined.

End StoreMore2.

(** * Further properties of the monitor *)
Section MonitorMore.
Import Signals Settings PriceCheck SignalsSpec PriceCheckSpec MonitorSpec.

Variables (env : Env) (settings : Settings).

Implicit Types (s x : Signal) (w : World) (i : nat).

(** A turn that changes the world is an exit at the positive price the
    mint of the signal resolved to. *)
Lemma evaluate_cases_priced x w :
  evaluate env settings x w = (w, true)
  ∨ ∃ cur reason,
      getPrice env (mint x) = Some cur ∧ (0 < cur)%Qc
      ∧ (reason = "stop_loss" ∨ reason = "take_profit")
      ∧ evaluate env settings x w = closeAndReport env x cur reason w.
Proof.
  unfold evaluate. destruct (getPrice env (mint x)) as [cur|]; [|by left].
  case_bool_decide as Hc; [by left|].
  assert (0 < cur)%Qc as Hpos by by apply Qcnot_le_lt.
  case_bool_decide; [right; exists cur, "stop_loss"; eauto|].
  destruct (takeProfitPct settings) as [tp|]; [|by left].
  case_bool_decide; [right; exists cur, "take_profit"; eauto|by left].
Qed.

Lemma closeAndReport_log_closed x cur reason w i s :
  file w !! i = Some s → openFor (wallet x) (mint x) s →
  ∃ n, (0 < n)%nat
       ∧ log (closeAndReport env x cur reason w).1
         = log w ++ [AutoSell (mint x);
                     CloseWithExit (wallet x) (mint x) cur reason n;
                     Notify reason (tryAutoSell env x) (wallet x) (mint x)].
Proof.
  intros Hi Ho.
  assert (0 < (closeByWalletMintWithExit (λ k, clock env (reads w + k)%nat)
                 (wallet x) (mint x) cur reason (file w)).1)%nat as Hn.
  { unfold closeByWalletMintWithExit, saveIfChanged. simpl.
    apply (forEachWhere_count_pos _ _ (file w) 0%nat i s Hi).
    by apply bool_decide_eq_true_2. }
  eexists. split; [exact Hn|]. unfold closeAndReport. simpl.
  by rewrite bool_decide_eq_true_2.
Qed.

Lemma closeAndReport_length x cur reason w :
  length (file (closeAndReport env x cur reason w).1) = length (file w).
Proof.
  rewrite closeAndReport_file. unfold closeByWalletMintWithExit.
  by rewrite saveIfChanged_list, forEachWhere_length.
Qed.

Lemma evaluate_length x w :
  length (file (evaluate env settings x w).1) = length (file w).
Proof.
  destruct (evaluate_cases env settings x w) as [->|(cur & reason & ->)]; [done|].
  apply closeAndReport_length.
Qed.

(** One turn leaves a position as it is, or exits the signal it held when
    the cycle began. *)
Lemma evaluate_only_closes x w i s :
  (∃ s', file w !! i = Some s' ∧ (s' = s ∨ exitedBy env s s')) →
  ∃ s', file (evaluate env settings x w).1 !! i = Some s' ∧ (s' = s ∨ exitedBy env s s').
Proof.
  intros (s' & Hs' & Hrel).
  destruct (evaluate_cases_priced x w) as [->|(cur & reason & Hp & Hpos & Hr & ->)];
    [by exists s'|].
  destruct (closeAndReport_lookup env x cur reason w i s' Hs') as (s'' & Hs'' & Hb).
  exists s''. split; [done|].
  destruct Hrel as [->|Hex].
  - case_bool_decide as Ho; [|by left].
    destruct Ho as (Ho & _ & Hm). destruct Hb as (k & ->). right.
    split; [done|]. exists cur, reason, k. by rewrite Hm.
  - assert (status s' = closed) as Hc.
    { destruct Hex as (_ & c & r & k & _ & _ & _ & ->). apply exitBody_status. }
    rewrite openFor_closed in Hb by done. subst s''. by right.
Qed.

Lemma evaluate_all_only_closes snap w i s :
  (∃ s', file w !! i = Some s' ∧ (s' = s ∨ exitedBy env s s')) →
  ∃ s', file (evaluateAll env settings snap w) !! i = Some s'
        ∧ (s' = s ∨ exitedBy env s s').
Proof.
  apply (evaluateAll_invariant env settings
           (λ w, ∃ s', file w !! i = Some s' ∧ (s' = s ∨ exitedBy env s s'))).
  intros x w'. apply evaluate_only_closes.
Qed.

Lemma evaluate_all_length snap w :
  length (file (evaluateAll env settings snap w)) = length (file w).
Proof.
  apply (evaluateAll_invariant env settings
           (λ w', length (file w') = length (file w))); [|done].
  intros x w' Hw'. by rewrite evaluate_length.
Qed.

Lemma evaluate_within x w :
  withinThresholds env settings x → evaluate env settings x w = (w, true).
Proof.
  unfold withinThresholds, evaluate.
  destruct (getPrice env (mint x)) as [cur|]; [|done].
  intros [Hle|[Hsl Htp]]; [by rewrite bool_decide_eq_true_2|].
  case_bool_decide; [done|].
  rewrite bool_decide_eq_false_2 by by apply Qclt_not_le.
  destruct (takeProfitPct settings) as [tp|]; [|done].
  by rewrite bool_decide_eq_false_2 by by apply Qclt_not_le.
Qed.

(** ** The take-profit exit *)

Section OneExit.

Variables (l0 : list Signal) (lg0 : list Effect) (i : nat) (s : Signal)
          (current : Qc) (reason : string).
Hypothesis Hi : l0 !! i = Some s.
Hypothesis Hopen : status s = open.
Hypothesis Hwatched : watched s = true.
Hypothesis Honly : onlyOpenOfPair l0 i s.
Hypothesis Hexit : ∀ w, evaluate env settings s w = closeAndReport env s current reason w.

Let traded : bool := tryAutoSell env s.

(** The position holds the exit and the log reports it. *)
Let finished (w : World) : Prop :=
  exitedAt env reason (file w) i s current
  ∧ reported reason traded s current lg0 (log w).

(** Position [i] still holds [s] and the log only grew, or the exit is
    done. *)
Let state (w : World) : Prop :=
  (file w !! i = Some s ∧ ∃ pre, log w = lg0 ++ pre) ∨ finished w.

Lemma state_log w : state w → ∃ pre, log w = lg0 ++ pre.
Proof.
  intros [[_ ?]|[_ (pre & n & post & _ & ->)]]; [done|]. eauto.
Qed.

Lemma closeAndReport_exits w :
  file w !! i = Some s →
  exitedAt env reason (file (closeAndReport env s current reason w).1) i s current.
Proof using Hopen.
  intros Hw.
  destruct (closeAndReport_lookup env s current reason w i s Hw) as (s' & Hs' & Hb).
  rewrite bool_decide_eq_true_2 in Hb by done. destruct Hb as (k & ->).
  eexists. split; [exact Hs'|]. split; [eauto|apply exitBody_fields].
Qed.

Lemma reported_grows x cur r w :
  reported reason traded s current lg0 (log w) →
  reported reason traded s current lg0 (log (closeAndReport env x cur r w).1).
Proof.
  intros (pre & n & post & Hn & Hlog).
  destruct (closeAndReport_log env x cur r w) as (n' & tail & -> & _).
  rewrite Hlog. eexists pre, n, (post ++ _). split; [done|].
  rewrite <-!app_assoc. reflexivity.
Qed.

Lemma exit_step x w :
  x ∈ l0 → watched x = true → state w →
  state (evaluate env settings x w).1
  ∧ (x = s → finished (evaluate env settings x w).1)
  ∧ (finished w → finished (evaluate env settings x w).1).
Proof using All.
  intros Hx Hw Hst.
  assert (∀ w' y cur r, finished w' → finished (closeAndReport env y cur r w').1)
    as Hstay.
  { intros w' y cur r [(s' & Hs' & Hex) Hrep]. split; [|by apply reported_grows].
    exists s'. split; [|done].
    apply closeAndReport_keeps_closed; [done|]. apply Hex. }
  destruct (decide (wallet x = wallet s ∧ mint x = mint s)) as [[Hwal Hmint]|Hne].
  - assert (x = s) as Hxs.
    { apply list_elem_of_lookup in Hx as [j Hj].
      apply andb_true_iff in Hw as [Ho%bool_decide_eq_true _].
      rewrite (Honly j x Hj Ho Hwal Hmint) in Hj. congruence. }
    rewrite Hxs, Hexit.
    assert (finished (closeAndReport env s current reason w).1) as Hdone.
    { destruct Hst as [[Hpend [pre Hlog]]|Hfin]; [|by apply Hstay].
      split; [by apply closeAndReport_exits|].
      destruct (closeAndReport_log_closed s current reason w i s Hpend)
        as (n & Hn & ->); [done|].
      exists pre, n, []. split; [done|].
      by rewrite Hlog, app_nil_r, <-app_assoc. }
    split; [by right|]. split; [done|]. intros _. exact Hdone.
  - split; [|split; [by intros Hxs; rewrite Hxs in Hne; destruct Hne|]].
    + destruct (evaluate_cases env settings x w) as [->|(cur & r & ->)]; [done|].
      destruct Hst as [[Hpend [pre Hlog]]|Hfin]; [left|right; by apply Hstay].
      split.
      * apply closeAndReport_other_pair; [done|]. intros [? ?]. by apply Hne.
      * destruct (closeAndReport_log env x cur r w) as (n' & tail & -> & _).
        rewrite Hlog. eexists. by rewrite <-!app_assoc.
    + destruct (evaluate_cases env settings x w) as [->|(cur & r & ->)]; [done|].
      apply Hstay.
Qed.

Lemma exit_all snap : ∀ w,
  (∀ x, x ∈ snap → x ∈ l0 ∧ watched x = true) → state w →
  state (evaluateAll env settings snap w)
  ∧ (s ∈ snap ∨ finished w →
     finished (evaluateAll env settings snap w)
     ∨ cutShort env lg0 (log (evaluateAll env settings snap w))).
Proof using All.
  induction snap as [|x snap IH]; intros w Hsnap Hst; simpl.
  - split; [done|]. intros [Hin|?]; [by apply elem_of_nil in Hin|by left].
  - destruct (Hsnap x) as [Hx Hw]; [apply list_elem_of_here|].
    destruct (exit_step x w Hx Hw Hst) as (Hst' & Hnow & Hstay).
    destruct (evaluate env settings x w).2 eqn:Hgo.
    + destruct (IH (evaluate env settings x w).1) as (Hst'' & Hlater); [|done|].
      { intros y Hy. apply Hsnap. by apply list_elem_of_further. }
      split; [done|].
      intros [Hin|Hfin]; apply Hlater; [|by right; apply Hstay].
      apply elem_of_cons in Hin as [Heq|Hin]; [right; by apply Hnow|by left].
    + split; [done|]. intros _. right.
      destruct (state_log w Hst) as [pre Hlog].
      by apply (evaluate_rejected env settings x w lg0 pre).
Qed.

Lemma tick_exits w :
  file w = l0 → log w = lg0 →
  (exitedAt env reason (file (tick env settings w)) i s current
   ∧ reported reason traded s current lg0 (log (tick env settings w)))
  ∨ (file (tick env settings w) !! i = Some s
     ∧ cutShort env lg0 (log (tick env settings w))).
Proof using All.
  intros Hfile Hlog. unfold tick.
  destruct (exit_all (List.filter watched (file w)) w) as (Hst & Hdone).
  - intros x Hx. apply list_elem_of_In, filter_In in Hx as [Hx Hw].
    rewrite Hfile in Hx. by apply list_elem_of_In in Hx.
  - left. split; [by rewrite Hfile|]. exists []. by rewrite Hlog, app_nil_r.
  - destruct Hst as [[Hpend _]|Hfin]; [|by left].
    destruct Hdone as [Hfin|Hcut]; [|by left|by right].
    left. apply list_elem_of_In, filter_In. split; [|done].
    rewrite Hfile. apply list_elem_of_In, list_elem_of_lookup. eauto.
Qed.

End OneExit.

Lemma evaluate_take_profit s w current entry tp :
  entryPriceUsd s = Some entry → getPrice env (mint s) = Some current →
  (0 < current)%Qc → (stopLossPct s < pnlPct env current entry)%Qc →
  takeProfitPct settings = Some tp → (tp ≤ pnlPct env current entry)%Qc →
  evaluate env settings s w = closeAndReport env s current "take_profit" w.
Proof.
  intros He Hp Hc Hsl Htp Hge. unfold evaluate. rewrite Hp, He, Htp. simpl.
  rewrite bool_decide_eq_false_2 by by apply Qclt_not_le.
  rewrite bool_decide_eq_false_2 by by apply Qclt_not_le.
  by rewrite bool_decide_eq_true_2.
Qed.

End MonitorMore.

Section MonitorProperties.
Import Signals Settings PriceCheck SignalsSpec PriceCheckSpec MonitorSpec Samples MoreSamples.

(** X8. A cycle of the monitor only ever closes: the store keeps its
    length, and every position holds the signal it held before or the exit
    of that signal, which was open, at the positive price its mint resolved
    to, for stop-loss or take-profit.  So a closed signal and a signal whose
    mint has no price come out of a cycle as they went in. *)
Theorem tick_only_closes :
  ∀ (env : Env) (settings : Settings) (w : World),
    length (file (tick env settings w)) = length (file w)
    ∧ (∀ i s, file w !! i = Some s →
         ∃ s', file (tick env settings w) !! i = Some s'
               ∧ (s' = s ∨ exitedBy env s s'))
    ∧ (∀ i s, file w !! i = Some s →
         status s = closed ∨ getPrice env (mint s) = None →
         file (tick env settings w) !! i = Some s).
Proof.
  intros env settings w.
  assert (∀ i s, file w !! i = Some s →
            ∃ s', file (tick env settings w) !! i = Some s'
                  ∧ (s' = s ∨ exitedBy env s s')) as Hpos.
  { intros i s Hi. unfold tick. apply evaluate_all_only_closes. exists s. eauto. }
  split; [apply evaluate_all_length|]. split; [done|].
  intros i s Hi Hwhy. destruct (Hpos i s Hi) as (s' & Hs' & [->|Hex]); [done|].
  destruct Hex as (Ho & cur & _ & _ & Hp & _).
  destruct Hwhy as [Hc|Hn]; congruence.
Qed.

(** X9. A cycle in which every watched signal is within its thresholds
    (its mint has no usable price, or the change since entry, as the cycle
    computes it in doubles, lies strictly between its stop-loss and the
    take-profit) changes nothing: no signal is touched, no clock is read,
    no auto-sell, close or notification is issued. *)
Theorem tick_quiet_within_thresholds :
  ∀ (env : Env) (settings : Settings) (w : World),
    (∀ s, s ∈ file w → watched s = true → withinThresholds env settings s) →
    tick env settings w = w.
Proof.
  intros env settings w H. unfold tick.
  assert (∀ snap w', (∀ s, s ∈ snap → withinThresholds env settings s) →
            evaluateAll env settings snap w' = w') as Hfold.
  { induction snap as [|x snap IH]; intros w' Hall; simpl; [done|].
    rewrite evaluate_within by apply Hall, list_elem_of_here. simpl.
    apply IH. intros y Hy. by apply Hall, list_elem_of_further. }
  apply Hfold. intros s Hs. apply list_elem_of_In, filter_In in Hs as [Hs Hw].
  apply H; [by apply list_elem_of_In|done].
Qed.

Lemma tick_quiet_within_thresholds_witness :
  tick (pricedAt (q 1 1)) holdSettings (mkWorld [openA] 0 [])
  = mkWorld [openA] 0 [].
Proof.
  apply (tick_quiet_within_thresholds (pricedAt (q 1 1)) holdSettings
           (mkWorld [openA] 0 [])).
  intros s Hs _. apply list_elem_of_singleton in Hs. rewrite Hs.
  right. split; by_evaluation.
Defined.

(** X10. Take a watched signal (open, with a positive entry price) that is
    the only open signal of its pair, a positive price for its mint, a
    change since entry, as the cycle computes it, above the stop-loss of
    the signal and at or above the take-profit of the settings.  After one
    cycle the position holds the signal closed for take-profit at that exit
    price, and the log of the cycle has the auto-sell attempt, a close
    request that closed something and the take-profit notification for it,
    in that order; unless the cycle was cut short before the turn of the
    signal by a notification that Telegram rejected, and then the signal is
    as it was.  With Telegram within reach the exit is made. *)
Theorem tick_takes_profit :
  ∀ (env : Env) (settings : Settings) (w : World) (i : nat) (s : Signal)
    (current entry tp : Qc),
    file w !! i = Some s → status s = open →
    entryPriceUsd s = Some entry → (0 < entry)%Qc →
    onlyOpenOfPair (file w) i s →
    getPrice env (mint s) = Some current → (0 < current)%Qc →
    (stopLossPct s < pnlPct env current entry)%Qc →
    takeProfitPct settings = Some tp → (tp ≤ pnlPct env current entry)%Qc →
    ((exitedAt env "take_profit" (file (tick env settings w)) i s current
      ∧ reported "take_profit" (tryAutoSell env s) s current
          (log w) (log (tick env settings w)))
     ∨ (file (tick env settings w) !! i = Some s
        ∧ cutShort env (log w) (log (tick env settings w))))
    ∧ ((∀ n, sendTelegram env n = true) →
       exitedAt env "take_profit" (file (tick env settings w)) i s current
       ∧ reported "take_profit" (tryAutoSell env s) s current
           (log w) (log (tick env settings w))).
Proof.
  intros env settings w i s current entry tp Hi Ho He Hpos Honly Hp Hc Hsl Htp Hge.
  assert (watched s = true) as Hw.
  { unfold watched. rewrite He. by rewrite !bool_decide_eq_true_2. }
  pose proof (tick_exits env settings (file w) (log w) i s current "take_profit"
                Hi Ho Hw Honly
                (λ w', evaluate_take_profit env settings s w' current entry tp
                         He Hp Hc Hsl Htp Hge) w eq_refl eq_refl) as Hend.
  split; [exact Hend|]. intros Hup. destruct Hend as [?|[_ Hcut]]; [done|].
  apply cutShort_rejects in Hcut as [n Hn]. by rewrite Hup in Hn.
Qed.

Lemma tick_takes_profit_witness :
  exitedAt (pricedAt (q 3 1)) "take_profit"
    (file (tick (pricedAt (q 3 1)) holdSettings (mkWorld [openA] 0 []))) 0 openA (q 3 1)
  ∧ reported "take_profit" (tryAutoSell (pricedAt (q 3 1)) openA) openA (q 3 1)
      [] (log (tick (pricedAt (q 3 1)) holdSettings (mkWorld [openA] 0 []))).
Proof.
  refine (proj2 (tick_takes_profit (pricedAt (q 3 1)) holdSettings (mkWorld [openA] 0 [])
                   0 openA (q 3 1) (q 1 1) (q 1 1) _ _ _ _ _ _ _ _ _ _) _).
  - reflexivity.
  - reflexivity.
  - reflexivity.
  - by_evaluation.
  - intros j sj Hj _ _ _. apply list_lookup_singleton_Some in Hj. tauto.
  - reflexivity.
  - by_evaluation.
  - by_evaluation.
  - reflexivity.
  - by_evaluation.
  - done.
Defined.

End MonitorProperties.

(** * Further properties of the trader *)
Section TraderMore.
Import TraderBot TraderSpec TraceSpec.

Implicit Types (w : World) (evs : list Event).

Lemma sleepsOf_app (a b : list Event) : sleepsOf (a ++ b) = sleepsOf a ++ sleepsOf b.
Proof. apply omap_app. Qed.

Lemma quotesOf_app (a b : list Event) : quotesOf (a ++ b) = quotesOf a ++ quotesOf b.
Proof. apply omap_app. Qed.

Lemma swapsOf_app (a b : list Event) : swapsOf (a ++ b) = swapsOf a ++ swapsOf b.
Proof. apply omap_app. Qed.

Lemma confirmedSwaps_app (a b : list Event) :
  confirmedSwaps (a ++ b) = confirmedSwaps a ++ confirmedSwaps b.
Proof. apply omap_app. Qed.

Lemma balancesOf_app (a b : list Event) :
  balancesOf (a ++ b) = balancesOf a ++ balancesOf b.
Proof. apply omap_app. Qed.

(** ** The effort of a buy *)

(** One attempt: no sleep, at most three quote requests, at most one swap. *)
Lemma AttemptTrace_effort bReq pReq evs res :
  AttemptTrace bReq pReq evs res →
  sleepsOf evs = [] ∧ (length (quotesOf evs) ≤ 3)%nat ∧ (length (swapsOf evs) ≤ 1)%nat.
Proof. destruct 1; simpl; repeat split; lia. Qed.

(** A swap that throws was not confirmed; one that returns was. *)
Lemma swapOutcome_confirmed q sr :
  confirmedSwaps [EvSwap q sr]
  = match swapOutcome sr with Ok sig => [sig] | Throw _ => [] end.
Proof. by destruct sr. Qed.

Lemma AttemptTrace_confirmed bReq pReq evs res :
  AttemptTrace bReq pReq evs res →
  match res with
  | Ok sig => ∃ pre q, evs = pre ++ [EvSwap q (SwapConfirmed sig)]
                       ∧ confirmedSwaps pre = []
  | Throw _ => confirmedSwaps evs = []
  end.
Proof.
  destruct 1 as [r1 msg H1|r1 q sr H1|r1 r2 H1 H2|r1 r2 p r3 msg H1 H2 H3
                 |r1 r2 p r3 H1 H2 H3|r1 r2 p r3 q sr H1 H2 H3]; try done.
  - destruct sr; simpl; try done. by exists [EvQuote bReq r1], q.
  - destruct sr; simpl; try done.
    by exists [EvQuote bReq r1; EvQuote pReq r2; EvQuote bReq r3], q.
Qed.

Lemma LoopTrace_confirmed bReq pReq evs res :
  LoopTrace bReq pReq evs res →
  match res with
  | Ok sig => ∃ pre q, evs = pre ++ [EvSwap q (SwapConfirmed sig)]
                       ∧ confirmedSwaps pre = []
  | Throw _ => confirmedSwaps evs = []
  end.
Proof.
  induction 1 as [evs res Ha|evs msg d rest res Ha _ _ IH].
  - exact (AttemptTrace_confirmed _ _ _ _ Ha).
  - apply AttemptTrace_confirmed in Ha. simpl in Ha.
    destruct res as [sig|msg'].
    + destruct IH as (pre & q & -> & Hpre).
      exists (evs ++ EvSleep d :: pre), q. split.
      * by rewrite <-app_assoc.
      * rewrite confirmedSwaps_app, Ha. simpl. exact Hpre.
    + rewrite confirmedSwaps_app, Ha. simpl. exact IH.
Qed.

(** The retry loop over the delays [ds]: the sleeps are the first delays
    of [ds], in order, and every sleep is followed by one more attempt. *)
Lemma buyLoop_effort cfg env m b ds : ∀ w,
  ∃ evs, appended w (buyLoop (buyAttempt cfg env m b) ds w).2 evs
         ∧ sleepsOf evs `prefix_of` ds
         ∧ (length (quotesOf evs) ≤ 3 * S (length (sleepsOf evs)))%nat
         ∧ (length (swapsOf evs) ≤ S (length (sleepsOf evs)))%nat.
Proof.
  induction ds as [|d ds IH]; intros w;
    destruct (buyAttempt_trace cfg env m b w) as (evs & Happ & _ & _ & Htr);
    pose proof (AttemptTrace_effort _ _ _ _ Htr) as (Hs & Hq & Hsw); clear Htr; simpl;
    destruct (buyAttempt cfg env m b w) as [[sig|msg] w1] eqn:Hrun; simpl in *.
  - exists evs. rewrite Hs. simpl. split_and!; [done|done|lia..].
  - exists evs. rewrite Hs. simpl.
    destruct (negb (retryable msg)); simpl; split_and!; (done || lia).
  - exists evs. rewrite Hs. simpl. split_and!; [done|apply prefix_nil|lia..].
  - destruct (negb (retryable msg)); simpl.
    { exists evs. rewrite Hs. simpl. split_and!; [done|apply prefix_nil|lia..]. }
    destruct (IH (emit (EvSleep d) w1)) as (rest & Happ' & Hpre & Hq' & Hsw').
    exists (evs ++ EvSleep d :: rest). split.
    { unfold appended in *. rewrite Happ'. simpl. rewrite Happ.
      by rewrite <-!app_assoc. }
    rewrite sleepsOf_app, quotesOf_app, swapsOf_app, Hs. simpl.
    rewrite !length_app. simpl.
    split; [by apply prefix_cons|]. fold (sleepsOf rest).
    fold (quotesOf rest). fold (swapsOf rest). split; lia.
Qed.

Lemma buyLocks_after_buy cfg env m b w :
  buyLocks (buyTokenWithSol cfg env m b w).2 = buyLocks w.
Proof.
  unfold buyTokenWithSol, finally, isLocked.
  destruct (negb (AUTO_TRADE cfg)); [done|].
  case_bool_decide as Hl; [done|].
  destruct (buyLoop_trace cfg env m b delays (lockMint m w)) as (evs & _ & Hlocks & _).
  revert Hlocks. destruct (buyLoop _ delays _) as [r w1]. simpl. intros Hlocks.
  rewrite Hlocks. apply set_eq. intros x.
  rewrite elem_of_difference, elem_of_union, !elem_of_singleton.
  split; [by intros [[->|?] ?]|]. intros Hx. split; [by right|by intros ->].
Qed.

End TraderMore.

Section TraderProperties.
Import TraderBot TraderSpec TraceSpec.

(** X11. The effort of a buy is bounded.  The sleeps of a call of
    [buyTokenWithSol] are the first delays of the back-off table, in order
    (so at most ten, 117 seconds in all), every sleep is followed by one
    more attempt, and the call asks for at most 33 quotes and at most 11
    swaps. *)
Theorem buyTokenWithSol_backoff :
  ∀ (cfg : Config) (env : Env) (m : string) (solBudget : Qc) (w : World),
    ∃ evs, appended w (buyTokenWithSol cfg env m solBudget w).2 evs
           ∧ sleepsOf evs `prefix_of` delays
           ∧ (length (sleepsOf evs) ≤ 10)%nat
           ∧ foldr Z.add 0 (sleepsOf evs) ≤ 117000
           ∧ (length (quotesOf evs) ≤ 33)%nat
           ∧ (length (swapsOf evs) ≤ 11)%nat.
Proof.
  intros cfg env m b w.
  assert (∀ evs, sleepsOf evs `prefix_of` delays →
            (length (sleepsOf evs) ≤ 10)%nat ∧ foldr Z.add 0 (sleepsOf evs) ≤ 117000)
    as Hbound.
  { intros evs [rest Hrest]. generalize dependent (sleepsOf evs). intros sl Hsl.
    unfold delays in Hsl.
    repeat (destruct sl as [|? sl]; [simpl; lia|];
            injection Hsl as <- Hsl; simpl).
    destruct sl; [simpl; lia|done]. }
  unfold buyTokenWithSol, finally.
  destruct (negb (AUTO_TRADE cfg)).
  { exists []. split; [apply appended_nil|]. simpl.
    split_and!; [apply prefix_nil|lia..]. }
  destruct (isLocked m w).
  { exists []. split; [apply appended_nil|]. simpl.
    split_and!; [apply prefix_nil|lia..]. }
  destruct (buyLoop_effort cfg env m b delays (lockMint m w))
    as (evs & Happ & Hpre & Hq & Hsw).
  revert Happ. destruct (buyLoop _ delays _) as [r w1]. simpl. intros Happ.
  exists evs. split; [exact Happ|]. split; [done|].
  destruct (Hbound evs Hpre) as [Hlen Hsum]. split_and!; [done..|lia|lia].
Qed.

(** X12. A buy confirms at most one swap.  When [buyTokenWithSol] returns
    a signature, the last call it made is the swap that was confirmed with
    that signature and no swap before it was confirmed; when it throws, no
    swap of the call was confirmed. *)
Theorem buy_confirms_at_most_once :
  ∀ (cfg : Config) (env : Env) (m : string) (solBudget : Qc) (w : World),
    ∃ evs, appended w (buyTokenWithSol cfg env m solBudget w).2 evs
           ∧ match (buyTokenWithSol cfg env m solBudget w).1 with
             | Ok sig => ∃ pre q, evs = pre ++ [EvSwap q (SwapConfirmed sig)]
                                  ∧ confirmedSwaps pre = []
             | Throw _ => confirmedSwaps evs = []
             end.
Proof.
  intros cfg env m b w.
  destruct (buyTokenWithSol_trace cfg env m b w) as (evs & Happ & _ & Htr).
  exists evs. split; [done|]. destruct Htr as [->|Htr].
  - unfold buyTokenWithSol, finally in *.
    destruct (negb (AUTO_TRADE cfg)); [done|]. destruct (isLocked m w); [done|].
    destruct (buyLoop_effort cfg env m b delays (lockMint m w)) as (evs & Happ' & _).
    destruct (buyLoop_trace cfg env m b delays (lockMint m w))
      as (evs' & Happ'' & _ & _ & Htr).
    revert Happ Happ'' Htr. destruct (buyLoop _ delays _) as [r w1]. simpl.
    unfold appended. simpl. intros Happ Happ'' Htr.
    rewrite Happ'' in Happ.
    assert (evs' = []) as ->.
    { apply (f_equal length) in Happ. rewrite !length_app in Happ. simpl in Happ.
      destruct evs'; [done|simpl in Happ; lia]. }
    apply LoopTrace_confirmed in Htr. destruct r as [sig|msg]; [|done].
    destruct Htr as (pre & q & Hnil & _). by destruct pre.
  - exact (LoopTrace_confirmed _ _ _ _ Htr).
Qed.

(** X13. A buy leaves no lock behind and never buys under a lock.  Whatever
    the outcome of [buyTokenWithSol], the set of locked mints is afterwards
    what it was before; and when auto-trading is off or the mint is locked
    the call throws without a single call leaving the process. *)
Theorem buyTokenWithSol_lock_discipline :
  ∀ (cfg : Config) (env : Env) (m : string) (solBudget : Qc) (w : World),
    buyLocks (buyTokenWithSol cfg env m solBudget w).2 = buyLocks w
    ∧ (AUTO_TRADE cfg = false ∨ m ∈ buyLocks w →
       ∃ msg, buyTokenWithSol cfg env m solBudget w = (Throw msg, w)).
Proof.
  intros cfg env m b w. split; [apply buyLocks_after_buy|].
  unfold buyTokenWithSol, isLocked. intros [->|Hl]; simpl; [eauto|].
  destruct (negb (AUTO_TRADE cfg)); [eauto|].
  rewrite bool_decide_eq_true_2 by done. eauto.
Qed.

End TraderProperties.

(** * Further properties of the sell path *)
Section SellMore.
Import TraderBot TraderSpec TraceSpec.

Implicit Types (w : World) (evs : list Event) (P : Event → Prop).

Lemma grewBy_refl P w : grewBy P 0 0 0 w w.
Proof. exists []. rewrite app_nil_r. by split_and!. Qed.

Lemma grewBy_trans P a b c a' b' c' w w1 w2 :
  grewBy P a b c w w1 → grewBy P a' b' c' w1 w2 →
  grewBy P (a + a') (b + b') (c + c') w w2.
Proof.
  intros (e1 & Ht1 & Hl1 & HP1 & Hq1 & Hs1 & Hb1) (e2 & Ht2 & Hl2 & HP2 & Hq2 & Hs2 & Hb2).
  exists (e1 ++ e2).
  rewrite quotesOf_app, swapsOf_app, balancesOf_app, !length_app.
  split_and!; [by rewrite Ht2, Ht1, app_assoc|congruence|by apply Forall_app|lia..].
Qed.

Lemma grewBy_weaken P a b c a' b' c' w w' :
  (a ≤ a')%nat → (b ≤ b')%nat → (c ≤ c')%nat →
  grewBy P a b c w w' → grewBy P a' b' c' w w'.
Proof.
  intros ? ? ? (e & ? & ? & ? & ? & ? & ?). exists e. split_and!; [done..|lia|lia|lia].
Qed.

Lemma getQuote_grewBy P env req w :
  (∀ reply, P (EvQuote req reply)) → grewBy P 1 0 0 w (getQuote env req w).2.
Proof.
  intros HP. eexists [_]. split_and!; [done|done|by constructor|simpl; lia..].
Qed.

Lemma doSwap_grewBy P env q w :
  (∀ reply, P (EvSwap q reply)) → grewBy P 0 1 0 w (doSwap env q w).2.
Proof.
  intros HP. eexists [_]. split_and!; [done|done|by constructor|simpl; lia..].
Qed.

Lemma getTokenBalance_grewBy P env m w :
  (∀ reply, P (EvBalance m reply)) → grewBy P 0 0 1 w (getTokenBalance env m w).2.
Proof.
  intros HP. eexists [_]. split_and!; [done|done|by constructor|simpl; lia..].
Qed.

Lemma bounded_weaken {A} P a b c a' b' c' (m : M A) :
  (a ≤ a')%nat → (b ≤ b')%nat → (c ≤ c')%nat →
  bounded P a b c m → bounded P a' b' c' m.
Proof. intros ? ? ? H w. by apply (grewBy_weaken P a b c). Qed.

Lemma bounded_ret {A} P (x : A) : bounded P 0 0 0 (mret x).
Proof. intros w. apply grewBy_refl. Qed.

Lemma bounded_throw {A} P msg : bounded P 0 0 0 (throw (A := A) msg).
Proof. intros w. apply grewBy_refl. Qed.

Lemma bounded_bind {A B} P a b c a' b' c' (m : M A) (f : A → M B) :
  bounded P a b c m → (∀ x, bounded P a' b' c' (f x)) →
  bounded P (a + a') (b + b') (c + c') (m ≫= f).
Proof.
  intros Hm Hf w. unfold mbind, M_bind. specialize (Hm w).
  destruct (m w) as [[x|msg] w1]; simpl in *.
  - apply (grewBy_trans P _ _ _ _ _ _ w w1); [done|apply Hf].
  - apply (grewBy_weaken P a b c); [lia..|done].
Qed.

Lemma bounded_tryCatch {A} P a b c a' b' c' (m : M A) (h : string → M A) :
  bounded P a b c m → (∀ msg, bounded P a' b' c' (h msg)) →
  bounded P (a + a') (b + b') (c + c') (tryCatch m h).
Proof.
  intros Hm Hh w. unfold tryCatch. specialize (Hm w).
  destruct (m w) as [[x|msg] w1]; simpl in *.
  - apply (grewBy_weaken P a b c); [lia..|done].
  - apply (grewBy_trans P _ _ _ _ _ _ w w1); [done|apply Hh].
Qed.

(** A quote followed, when it gave a route, by the swap of that route. *)
Lemma quoteThenSwap_bounded P env req :
  (∀ reply, P (EvQuote req reply)) → (∀ q reply, P (EvSwap q reply)) →
  bounded P 1 1 0
    (q ← getQuote env req;
     match q with
     | None => throw "noviableroute"
     | Some q => doSwap env q
     end).
Proof.
  intros HQ HS. apply (bounded_bind P 1 0 0 0 1 0).
  - intros w. by apply getQuote_grewBy.
  - intros [q|].
    + intros w. by apply doSwap_grewBy.
    + apply (bounded_weaken P 0 0 0); [lia..|apply bounded_throw].
Qed.

Lemma tryDirect_bounded P env m amt slip :
  (∀ reply, P (EvQuote (mkRequest m SOL_MINT amt slip None (Some 64)) reply)) →
  (∀ q reply, P (EvSwap q reply)) →
  bounded P 1 1 0 (tryDirect env m amt slip).
Proof. apply quoteThenSwap_bounded. Qed.

Lemma viaUSDC_bounded P env m amt slip :
  (∀ reply, P (EvQuote (mkRequest m USDC_MINT amt slip None (Some 64)) reply)) →
  (∀ bal reply, 0 < bal →
     P (EvQuote (mkRequest USDC_MINT SOL_MINT bal slip None (Some 64)) reply)) →
  (∀ q reply, P (EvSwap q reply)) →
  (∀ reply, P (EvBalance USDC_MINT reply)) →
  bounded P 2 2 1 (viaUSDC env m amt slip).
Proof.
  intros HQ1 HQ2 HS HB. unfold viaUSDC, toUSDC.
  apply (bounded_bind P 1 1 0 1 1 1); [by apply quoteThenSwap_bounded|]. intros sig1.
  apply (bounded_bind P 0 0 1 1 1 0); [intros w; by apply getTokenBalance_grewBy|].
  intros bal. case_bool_decide as Hbal;
    [|apply (bounded_weaken P 0 0 0); [lia..|apply bounded_ret]].
  apply (bounded_bind P 1 1 0 0 0 0).
  - apply (bounded_tryCatch P 1 1 0 0 0 0); [|intros; apply bounded_ret].
    apply (bounded_bind P 1 0 0 0 1 0).
    + intros w. apply getQuote_grewBy. intros reply. by apply HQ2.
    + intros [q2|]; [|apply (bounded_weaken P 0 0 0); [lia..|apply bounded_ret]].
      apply (bounded_bind P 0 1 0 0 0 0); [|intros; apply bounded_ret].
      intros w. by apply doSwap_grewBy.
  - intros [sigs|]; apply bounded_ret.
Qed.

Lemma overLadder_bounded P (f : Z → M string) a b c slips :
  (∀ s, s ∈ slips → bounded P a b c (f s)) →
  bounded P (length slips * a) (length slips * b) (length slips * c)
    (overLadder f slips).
Proof.
  induction slips as [|s slips IH]; intros Hf w; simpl; [apply grewBy_refl|].
  pose proof (Hf s (list_elem_of_here _ _) w) as H1.
  destruct (f s w) as [[sig|msg] w1]; simpl in *.
  - apply (grewBy_weaken P a b c); [lia..|done].
  - destruct (noViableRoute msg); simpl.
    + apply (grewBy_trans P _ _ _ _ _ _ w w1); [done|]. apply IH.
      intros s' Hs'. apply Hf. by apply list_elem_of_further.
    + apply (grewBy_weaken P a b c); [lia..|done].
Qed.

(** ** The ladder has no repeated rung *)

Lemma uniq_elem_of seen xs x : x ∈ uniq seen xs ↔ x ∈ xs ∧ x ∉ seen.
Proof.
  revert seen. induction xs as [|y xs IH]; intros seen; simpl.
  - split; [by intros ?%elem_of_nil|by intros [?%elem_of_nil _]].
  - case_bool_decide as Hy.
    + rewrite IH, elem_of_cons. split; [tauto|].
      intros [[->|?] ?]; [done|tauto].
    + rewrite !elem_of_cons, IH, elem_of_cons. split.
      * intros [->|[? ?]]; [tauto|]. split; [tauto|]. tauto.
      * intros [[->|?] ?]; [tauto|].
        destruct (decide (x = y)) as [->|Hne]; [tauto|]. right. tauto.
Qed.

Lemma uniq_NoDup seen xs : NoDup (uniq seen xs).
Proof.
  revert seen. induction xs as [|y xs IH]; intros seen; simpl; [constructor|].
  case_bool_decide; [apply IH|]. constructor; [|apply IH].
  rewrite uniq_elem_of, elem_of_cons. tauto.
Qed.

Lemma uniq_length seen xs : (length (uniq seen xs) ≤ length xs)%nat.
Proof.
  revert seen. induction xs as [|y xs IH]; intros seen; simpl; [lia|].
  case_bool_decide; simpl; [specialize (IH seen)|specialize (IH (y :: seen))]; lia.
Qed.

Lemma ninetyFive_bounds amountRaw :
  0 < amountRaw → 0 ≤ Z.quot (amountRaw * 95) 100 ≤ amountRaw.
Proof.
  intros H. rewrite Z.quot_div_nonneg by lia. split; [apply Z.div_pos; lia|].
  apply Z.div_le_upper_bound; lia.
Qed.

Lemma sellTokenForSol_bounded cfg env m amountRaw :
  bounded (sellEvent cfg m amountRaw)
    (4 * length (sellLadder cfg)) (4 * length (sellLadder cfg)) (length (sellLadder cfg))
    (sellTokenForSol cfg env m amountRaw).
Proof.
  set (P := sellEvent cfg m amountRaw). set (L := length (sellLadder cfg)).
  unfold sellTokenForSol.
  destruct (String.eqb m SOL_MINT).
  { apply (bounded_weaken P 0 0 0); [lia..|apply bounded_throw]. }
  case_bool_decide as Hamt.
  { apply (bounded_weaken P 0 0 0); [lia..|apply bounded_throw]. }
  assert (0 < amountRaw) as Hpos by lia.
  pose proof (ninetyFive_bounds amountRaw Hpos) as Hnf.
  cbv zeta. set (nf := Z.quot (amountRaw * 95) 100) in *.
  assert (∀ amt, 0 < amt ≤ amountRaw →
            bounded P (L * 1) (L * 1) (L * 0)
              (overLadder (tryDirect env m amt) (sellLadder cfg))) as Hdirect.
  { intros amt Hrange. apply overLadder_bounded. intros s Hs.
    apply tryDirect_bounded; [|done]. intros reply. subst P. simpl.
    split_and!; [done..|]. left. split_and!; [done|by left|apply Hrange..]. }
  assert (∀ amt, 0 < amt ≤ amountRaw →
            bounded P (L * 2) (L * 2) (L * 1)
              (overLadder (viaUSDC env m amt) (sellLadder cfg))) as Hvia.
  { intros amt Hrange. apply overLadder_bounded. intros s Hs.
    apply viaUSDC_bounded; [| |done|done].
    - intros reply. subst P. simpl. split_and!; [done..|].
      left. split_and!; [done|by right|apply Hrange..].
    - intros bal reply Hbal. subst P. simpl. split_and!; [done..|].
      right. by split_and!. }
  apply (bounded_weaken P (L * 1 + (L * 1 + (L * 2 + 0)))
           (L * 1 + (L * 1 + (L * 2 + 0))) (L * 0 + (L * 0 + (L * 1 + 0)))); [lia..|].
  apply bounded_bind; [apply Hdirect; lia|]. intros [sig|].
  { apply (bounded_weaken P 0 0 0); [lia..|apply bounded_ret]. }
  apply bounded_bind.
  { case_bool_decide; [apply Hdirect; lia|].
    apply (bounded_weaken P 0 0 0); [lia..|apply bounded_ret]. }
  intros [sig|].
  { apply (bounded_weaken P 0 0 0); [lia..|apply bounded_ret]. }
  apply bounded_bind; [apply Hvia; case_bool_decide; lia|].
  intros [sig|]; [apply bounded_ret|apply bounded_throw].
Qed.

End SellMore.

Section SellProperties.
Import TraderBot TraderSpec TraceSpec.

(** X14. A sale stays within what it was asked to sell.  Every call a run
    of [sellTokenForSol] makes is a swap, a lookup of the USDC balance, or
    a quote request at a slippage of the ladder that sells the token (into
    SOL or USDC) for a positive amount no larger than the amount given, or
    sells USDC into SOL for a positive amount; it never sleeps, and it
    leaves the buy locks alone. *)
Theorem sell_requests_within_bounds :
  ∀ (cfg : Config) (env : Env) (m : string) (amountRaw : Z) (w : World),
    ∃ evs, appended w (sellTokenForSol cfg env m amountRaw w).2 evs
           ∧ Forall (sellEvent cfg m amountRaw) evs
           ∧ sleepsOf evs = []
           ∧ buyLocks (sellTokenForSol cfg env m amountRaw w).2 = buyLocks w.
Proof.
  intros cfg env m amountRaw w.
  destruct (sellTokenForSol_bounded cfg env m amountRaw w) as (evs & Ht & Hl & HP & _).
  exists evs. split_and!; [done|done| |done].
  clear Ht. induction HP as [|e evs He _ IH]; [done|].
  destruct e; simpl in *; done.
Qed.

(** X15. The effort of a sale is bounded.  The slippage ladder has no
    repeated rung and at most five rungs, and a run of [sellTokenForSol]
    asks for at most 20 quotes, at most 20 swaps and at most 5 balances. *)
Theorem sell_effort_bounded :
  ∀ (cfg : Config) (env : Env) (m : string) (amountRaw : Z) (w : World),
    NoDup (sellLadder cfg)
    ∧ (length (sellLadder cfg) ≤ 5)%nat
    ∧ ∃ evs, appended w (sellTokenForSol cfg env m amountRaw w).2 evs
             ∧ (length (quotesOf evs) ≤ 20)%nat
             ∧ (length (swapsOf evs) ≤ 20)%nat
             ∧ (length (balancesOf evs) ≤ 5)%nat.
Proof.
  intros cfg env m amountRaw w.
  assert (length (sellLadder cfg) ≤ 5)%nat as Hlen.
  { unfold sellLadder. cbv zeta. apply (uniq_length [] [_; _; _; _; _]). }
  split; [apply uniq_NoDup|]. split; [done|].
  destruct (sellTokenForSol_bounded cfg env m amountRaw w)
    as (evs & Ht & _ & _ & Hq & Hs & Hb).
  exists evs. split_and!; [done|lia..].
Qed.

End SellProperties.

(** * Properties of the qualifier *)
Section QualifierFacts.
Import Signals Qualifier QualifierSpec.

Implicit Types (env : Env) (mint : string).

Lemma startsWith_app (p s : string) : TraderBot.startsWith p (p +:+ s) = true.
Proof.
  induction p as [|a p IH]; simpl; [by destruct s|].
  by rewrite Ascii.eqb_refl, IH.
Qed.

(** The reasons Birdeye's flags give do not look like an http error. *)
Lemma birdeyeSecurityCheck_cases env mint :
  match security env mint with
  | SecurityThrows => birdeyeSecurityCheck env mint = None
  | SecurityHttp status =>
      birdeyeSecurityCheck env mint = Some (Unsafe birdeye ("http_" +:+ status))
  | SecurityAnswer d =>
      (cleanOnBirdeye d ∧ birdeyeSecurityCheck env mint = Some (Safe birdeye))
      ∨ (¬ cleanOnBirdeye d
         ∧ ∃ reason, birdeyeSecurityCheck env mint = Some (Unsafe birdeye reason)
                     ∧ TraderBot.startsWith "http_" reason = false)
  end.
Proof.
  unfold birdeyeSecurityCheck, cleanOnBirdeye.
  destruct (security env mint) as [|status|d]; [done..|].
  destruct d as [[] [] [] [] [] []]; simpl;
    ((left; by split_and!) || (right; split; [intros (? & ? & ? & ? & ? & ?); done|eauto])).
Qed.

Lemma onchainSafetyCheck_cases env mint :
  (∃ i, account env mint = MintAccount i ∧ cleanOnChain i
        ∧ onchainSafetyCheck env mint = Safe onchain)
  ∨ ((∀ i, account env mint = MintAccount i → ¬ cleanOnChain i)
     ∧ ∃ reason, onchainSafetyCheck env mint = Unsafe onchain reason).
Proof.
  unfold onchainSafetyCheck, cleanOnChain.
  destruct (account env mint) as [msg|i]; [right; split; [done|eauto]|].
  destruct i as [[] [] []]; simpl;
    ((left; eexists; by split_and!)
     || (right; split; [intros i [= <-] (? & ? & ?); done|eauto])).
Qed.

(** The verdict of step 2 is safe exactly when a source vouches for the
    mint, and then names that source. *)
Lemma safetyOf_safe env mint src :
  safetyOf env mint = Safe src ↔ vouchedBy env mint src.
Proof.
  unfold safetyOf, vouchedBy, birdeyeDown.
  pose proof (birdeyeSecurityCheck_cases env mint) as Hb.
  pose proof (onchainSafetyCheck_cases env mint) as Hc.
  destruct (security env mint) as [|status|d].
  - rewrite Hb. destruct Hc as [(i & Hi & Hclean & ->)|(Hno & reason & ->)].
    + split; [intros [= <-]; right; eauto 10|].
      intros [(_ & d & ? & _)|(-> & _)]; done.
    + split; [done|]. intros [(_ & d & ? & _)|(_ & _ & i & Hi & Hclean)]; [done|].
      by destruct (Hno i Hi).
  - rewrite Hb. rewrite startsWith_app.
    destruct Hc as [(i & Hi & Hclean & ->)|(Hno & reason & ->)].
    + split; [intros [= <-]; right; eauto 10|].
      intros [(_ & d & ? & _)|(-> & _)]; done.
    + split; [done|]. intros [(_ & d & ? & _)|(_ & _ & i & Hi & Hclean)]; [done|].
      by destruct (Hno i Hi).
  - destruct Hb as [[Hclean ->]|(Hdirty & reason & -> & ->)].
    + split; [intros [= <-]; left; eauto|].
      intros [(-> & _)|(_ & [?|[? ?]] & _)]; done.
    + split; [done|].
      intros [(_ & d' & [= <-] & ?)|(_ & [?|[? ?]] & _)]; done.
Qed.

(** SOL and the listed stablecoins never qualify. *)
Lemma qualified_not_ignored env wallet mint amount :
  qualified (qualifyAndSnapshot env wallet mint amount) = true →
  mint ≠ SOL_MINT ∧ mint ∉ STABLECOIN_MINTS.
Proof.
  unfold qualifyAndSnapshot, isStablecoin.
  destruct (String.eqb_spec mint SOL_MINT); [done|].
  case_bool_decide; [done|]. done.
Qed.

End QualifierFacts.

Section QualifierProperties.
Import Signals Qualifier QualifierSpec Samples MoreSamples.

(** X16. What it takes to qualify.  [qualifyAndSnapshot] qualifies a buy
    exactly when the mint is neither SOL nor a listed stablecoin, a source
    vouches for it (Birdeye with clean flags, or the chain with a clean
    account when Birdeye threw or answered with an http error), and a route
    exists when routes are required.  The result then names that source and
    carries the price and meta-data snapshots; a buy that is not qualified
    carries no snapshot. *)
Theorem qualified_iff_vouched :
  ∀ (env : Env) (wallet mint : string) (amount : Qc),
    (qualified (qualifyAndSnapshot env wallet mint amount) = true
     ↔ mint ≠ SOL_MINT ∧ (mint ∉ STABLECOIN_MINTS)
       ∧ (∃ src, vouchedBy env mint src)
       ∧ (REQUIRE_JUP_ROUTE env = true → jupHasRoute env mint = true))
    ∧ (qualified (qualifyAndSnapshot env wallet mint amount) = true →
       (∃ src, vouchedBy env mint src
               ∧ source (qualifyAndSnapshot env wallet mint amount) = Some src)
       ∧ snapshot (qualifyAndSnapshot env wallet mint amount)
         = Some (mkSnapshot (birdeyePrice env mint) (birdeyeMeta env mint).1
                   (birdeyeMeta env mint).2))
    ∧ (qualified (qualifyAndSnapshot env wallet mint amount) = false →
       snapshot (qualifyAndSnapshot env wallet mint amount) = None
       ∧ is_Some (reason (qualifyAndSnapshot env wallet mint amount))).
Proof.
  intros env wallet mint amount. unfold qualifyAndSnapshot, isStablecoin.
  destruct (String.eqb_spec mint SOL_MINT) as [->|Hsol]; simpl.
  { split_and!; [split; [done|by intros (? & _)]|done|intros _; split; [done|eauto]]. }
  case_bool_decide as Hst; simpl.
  { split_and!; [split; [done|by intros (_ & ? & _)]|done
                |intros _; split; [done|eauto]]. }
  destruct (safetyOf env mint) as [src|src why] eqn:Hsafe.
  - apply safetyOf_safe in Hsafe.
    destruct (REQUIRE_JUP_ROUTE env); simpl; [destruct (jupHasRoute env mint); simpl|].
    + split_and!; [|intros _; split; [eauto|done]|done].
      split; [|done]. intros _. split_and!; [done|done|eauto|done].
    + split_and!; [|done|intros _; split; [done|eauto]].
      split; [done|]. intros (_ & _ & _ & Hr). by specialize (Hr eq_refl).
    + split_and!; [|intros _; split; [eauto|done]|done].
      split; [|done]. intros _. split_and!; [done|done|eauto|done].
  - split_and!; [|done|intros _; split; [done|eauto]].
    split; [done|].
    intros (_ & _ & [src' Hv] & _). apply safetyOf_safe in Hv. congruence.
Qed.

(** X17. A verdict of Birdeye is final.  When the token security endpoint
    answers with data, the result of [qualifyAndSnapshot] does not depend
    on what the chain says: the on-chain check is consulted only when
    Birdeye threw or answered with an http error. *)
Theorem birdeye_verdict_is_final :
  ∀ (env : Env) (acc : string → AccountReply) (wallet mint : string) (amount : Qc)
    (d : SecurityFlags),
    security env mint = SecurityAnswer d →
    qualifyAndSnapshot (withAccount env acc) wallet mint amount
    = qualifyAndSnapshot env wallet mint amount.
Proof.
  intros env acc wallet mint amount d Hd.
  assert (safetyOf (withAccount env acc) mint = safetyOf env mint) as Hsame.
  { unfold safetyOf.
    assert (birdeyeSecurityCheck (withAccount env acc) mint
            = birdeyeSecurityCheck env mint) as -> by done.
    pose proof (birdeyeSecurityCheck_cases env mint) as Hb. rewrite Hd in Hb.
    destruct Hb as [[_ ->]|(_ & reason & -> & ->)]; done. }
  unfold qualifyAndSnapshot. rewrite Hsame. done.
Qed.

Lemma birdeye_verdict_is_final_witness :
  qualifyAndSnapshot (withAccount honeypotQualifier (λ _, MintAccount (mkMintInfo false false false)))
    "W1" "M1" (q 100 1)
  = qualifyAndSnapshot honeypotQualifier "W1" "M1" (q 100 1).
Proof.
  exact (birdeye_verdict_is_final honeypotQualifier
           (λ _, MintAccount (mkMintInfo false false false)) "W1" "M1" (q 100 1)
           (mkSecurity true false false false false false) eq_refl).
Defined.

End QualifierProperties.

(** * Properties of the webhook handler *)

(** Each message that is sent is delivered or rejected. *)
Ltac run_notes :=
  unfold Webhook.andThen, Webhook.tryCatch, Webhook.skip, Webhook.note;
  repeat (cbn [fst snd Webhook.file Webhook.guards Webhook.reads Webhook.notes
               Index.buyLocks Index.seenEventKeys];
          match goal with
          | |- context [Webhook.sendTelegram ?env ?k] =>
              destruct (Webhook.sendTelegram env k) as [[]|?]
          end);
  cbn [fst snd Webhook.file Webhook.guards Webhook.reads Webhook.notes
       Index.buyLocks Index.seenEventKeys].

Section WebhookFacts.
Import Signals Index Webhook SignalsSpec WebhookSpec.

Implicit Types (env : Env) (st : State) (s x : Signal) (l : list Signal).

Lemma oneOpenPerMint_refine l l' :
  (∀ i s', l' !! i = Some s' → status s' = open →
     ∃ s, l !! i = Some s ∧ status s = open ∧ mint s = mint s') →
  oneOpenPerMint l → oneOpenPerMint l'.
Proof.
  intros Href Hl i j si sj Hi Hj Hoi Hoj Hm.
  destruct (Href i si Hi Hoi) as (ti & Hti & ? & ?).
  destruct (Href j sj Hj Hoj) as (tj & Htj & ? & ?).
  apply (Hl i j ti tj); congruence.
Qed.

Lemma oneOpenPerMint_insert (f : Signal → Signal) l i x :
  l !! i = Some x → mint (f x) = mint x → status (f x) = status x →
  oneOpenPerMint l → oneOpenPerMint (<[i := f x]> l).
Proof.
  intros Hi Hm Hs. apply oneOpenPerMint_refine. intros j s' Hj Ho.
  apply list_lookup_insert_Some in Hj as [(-> & <- & _)|(Hne & Hj)].
  - exists x. split_and!; [done|congruence..].
  - by exists s'.
Qed.

Lemma oneOpenPerMint_snoc l x :
  hasOpenSignalForMint (mint x) l = false →
  oneOpenPerMint l → oneOpenPerMint (l ++ [x]).
Proof.
  intros Hnone Hl i j si sj Hi Hj Hoi Hoj Hm.
  assert (∀ k sk, l !! k = Some sk → status sk = open → mint sk = mint x → False)
    as Hfresh.
  { intros k sk Hk Ho Hmk.
    rewrite (existsb_open_mint (mint x) l k sk Hk Ho Hmk) in Hnone. done. }
  apply lookup_snoc_Some in Hi as [[Hli Hi]|[-> <-]];
    apply lookup_snoc_Some in Hj as [[Hlj Hj]|[-> <-]].
  - by apply (Hl i j si sj).
  - by destruct (Hfresh i si).
  - destruct (Hfresh j sj); done.
  - done.
Qed.

Lemma attachTraderBuy_keeps_oneOpenPerMint sig jupSig spent l :
  oneOpenPerMint l → oneOpenPerMint (attachTraderBuy sig jupSig spent l).
Proof.
  intros Hinv. unfold attachTraderBuy.
  destruct (list_find _ l) as [[idx x]|] eqn:Hf; [|done].
  apply list_find_Some in Hf as (Hidx & _ & _).
  by apply (oneOpenPerMint_insert (set_trader _)).
Qed.

Lemma attachTraderSell_keeps_oneOpenPerMint sig jupSig l :
  oneOpenPerMint l → oneOpenPerMint (attachTraderSell sig jupSig l).
Proof.
  intros Hinv. unfold attachTraderSell.
  destruct (list_find _ l) as [[idx x]|] eqn:Hf; [|done].
  apply list_find_Some in Hf as (Hidx & _ & _).
  by apply (oneOpenPerMint_insert (set_trader _)).
Qed.

Lemma closeByWalletAndMint_keeps_oneOpenPerMint clock w m reason l :
  oneOpenPerMint l → oneOpenPerMint (closeByWalletAndMint clock w m reason l).2.
Proof.
  unfold closeByWalletAndMint. rewrite saveIfChanged_list.
  apply oneOpenPerMint_refine. intros i s' Hi Ho.
  apply forEachWhere_lookup_inv in Hi as (s & Hs & Hb). exists s. split; [done|].
  case_bool_decide; [|by subst]. destruct Hb as (k & _ & ->). done.
Qed.

(** With no open signal for the mint, a buy of the mint creates. *)
Lemma upsertBuy_fresh_mint now p l :
  hasOpenSignalForMint (p_mint p) l = false →
  upsertBuy now p l = (newSig now p, l ++ [newSig now p]).
Proof.
  intros Hnone. apply upsertBuy_creates. apply (proj2 (list_find_None _ l)).
  apply Forall_forall. intros s Hs (Ho & _ & Hm).
  apply list_elem_of_lookup in Hs as [i Hi].
  by rewrite (existsb_open_mint (p_mint p) l i s Hi Ho Hm) in Hnone.
Qed.

(** ... and the trail of the bot's own buy lands on the new signal. *)
Lemma attachTraderBuy_fresh_mint now p jupSig spent l :
  hasOpenSignalForMint (p_mint p) l = false →
  attachTraderBuy (newSig now p) jupSig spent (l ++ [newSig now p])
  = l ++ [StoreSpec.withBuy jupSig spent (newSig now p)].
Proof.
  intros Hnone.
  rewrite (attachTraderBuy_at (newSig now p) jupSig spent _ (length l)).
  - rewrite insert_app_r_alt by lia. by rewrite Nat.sub_diag.
  - apply list_find_Some. split; [by apply list_lookup_middle|]. split; [done|].
    intros j y Hj Hlt (_ & _ & Hm & Ho).
    rewrite lookup_app_l in Hj by done.
    by rewrite (existsb_open_mint (p_mint p) l j y Hj Ho Hm) in Hnone.
Qed.

(** What holds before a loop and is kept by every turn, completed or not,
    holds after it. *)
Lemma forEach_invariant {A} (P : State → Prop) (body : A → Handler) (xs : list A) :
  ∀ st, (∀ a st, P st → P (body a st).2) → P st → P (forEach body xs st).2.
Proof.
  induction xs as [|a xs IH]; intros st Hbody Hst; simpl; [done|].
  specialize (Hbody a st Hst) as Ha.
  destruct (body a st) as [[[]|msg] st']; simpl in *; [by apply IH|done].
Qed.

Lemma andThen_invariant (P : State → Prop) (m k : Handler) st :
  (∀ st, P st → P (m st).2) → (∀ st, P st → P (k st).2) → P st →
  P (andThen m k st).2.
Proof.
  intros Hm Hk Hst. unfold andThen. specialize (Hm st Hst).
  destruct (m st) as [[[]|msg] st']; simpl in *; [by apply Hk|done].
Qed.


(** What the buy branch does to the store. *)
Lemma handleBuy_file env signature actor mint amt st :
  file (handleBuy env signature actor mint amt st).2 = file st
  ∨ ∃ s, file (handleBuy env signature actor mint amt st).2 = file st ++ [s]
         ∧ status s = open ∧ wallet s = actor ∧ Signals.mint s = mint
         ∧ amount s = amt
         ∧ stopLossPct s = Settings.stopLossPctDefault (settings env)
         ∧ occurrences s = Some 1
         ∧ mint ≠ TraderBot.SOL_MINT
         ∧ hasOpenSignalForMint mint (file st) = false
         ∧ Qualifier.qualified
             (Qualifier.qualifyAndSnapshot (qualifierEnv env) actor mint amt) = true.
Proof.
  unfold handleBuy.
  destruct (String.eqb_spec mint TraderBot.SOL_MINT) as [|Hsol]; [by left|].
  case_bool_decide; [by left|].
  destruct (firstSeen _ _ (guards st)) as [[] g1]; [|by left].
  cbn [file reads notes guards].
  destruct (hasOpenSignalForMint mint (file st)) eqn:Hnone; [by left|].
  case_bool_decide; [by left|].
  destruct (Qualifier.qualified _) eqn:Hq; [|by left].
  right.
  set (p := mkBuy actor mint amt _ _ _ _).
  rewrite (upsertBuy_fresh_mint _ p (file st)) by done. cbn [fst snd file].
  destruct (AUTO_TRADE env); [destruct (buyTokenWithSol env mint _) as [jupSig|msg]|];
    run_notes;
    rewrite ?(attachTraderBuy_fresh_mint _ p) by done;
    (eexists; split; [reflexivity|]; by split_and!).
Qed.

Lemma handleBuy_keeps_oneOpenPerMint env signature actor mint amt st :
  oneOpenPerMint (file st) →
  oneOpenPerMint (file (handleBuy env signature actor mint amt st).2).
Proof.
  intros Hinv.
  destruct (handleBuy_file env signature actor mint amt st)
    as [->|(s & -> & _ & _ & Hm & _ & _ & _ & _ & Hnone & _)]; [done|].
  apply oneOpenPerMint_snoc; [by rewrite Hm|done].
Qed.

(** What follows the announcement of a sell does to the store: a close of
    the pair, then possibly the trail of the bot's own sale. *)
Lemma closeAndSell_file env actor mint st :
  ∃ clk l1,
    l1 = (closeByWalletAndMint clk actor mint (Some "sold_by_wallet") (file st)).2
    ∧ (file (closeAndSell env actor mint st).2 = l1
       ∨ ∃ s jupSig, recentClosed actor mint l1 = Some s
           ∧ file (closeAndSell env actor mint st).2 = attachTraderSell s jupSig l1).
Proof.
  unfold closeAndSell. eexists _, _. split; [reflexivity|].
  destruct (AUTO_TRADE env && _); [|case_bool_decide; run_notes; by left].
  destruct (getTokenBalance env mint) as [bal|msg]; [|run_notes; by left].
  case_bool_decide; [|run_notes; by left].
  destruct (sellTokenForSol env mint bal) as [jupSig|msg]; [|run_notes; by left].
  run_notes;
    (destruct (recentClosed actor mint _) as [s|] eqn:Hrc;
       [right; by exists s, jupSig|by left]).
Qed.

(** What the sell branch does: it is skipped, or its announcement is
    rejected and it throws with the key marked and the store as it was, or
    the announcement is delivered and the close follows. *)
Lemma handleSell_file env signature actor mint amt st :
  ((mint = TraderBot.SOL_MINT ∨ amt = 0%Qc
    ∨ is_Some (seenEventKeys (guards st)
                 !! eventKey signature actor mint "SELL" (roundedAmount env amt)))
   ∧ handleSell env signature actor mint amt st = (TraderBot.Ok (), st))
  ∨ (∃ msg, sendTelegram env (length (notes st)) = TraderBot.Throw msg
       ∧ handleSell env signature actor mint amt st
         = (TraderBot.Throw msg,
            mkState
              (firstSeen (clock env (reads st))
                 (eventKey signature actor mint "SELL" (roundedAmount env amt))
                 (guards st)).2
              (file st) (S (reads st)) (notes st ++ [SellSeen actor mint amt])))
  ∨ (sendTelegram env (length (notes st)) = TraderBot.Ok ()
     ∧ ∃ clk l1,
         l1 = (closeByWalletAndMint clk actor mint (Some "sold_by_wallet") (file st)).2
         ∧ (file (handleSell env signature actor mint amt st).2 = l1
            ∨ ∃ s jupSig, recentClosed actor mint l1 = Some s
                ∧ file (handleSell env signature actor mint amt st).2
                  = attachTraderSell s jupSig l1)).
Proof.
  unfold handleSell.
  destruct (String.eqb_spec mint TraderBot.SOL_MINT); [left; eauto|].
  case_bool_decide; [left; eauto|].
  unfold firstSeen. case_bool_decide as Hseen; [left; eauto|].
  right. unfold andThen, note. cbn [fst snd file guards reads notes].
  destruct (sendTelegram env (length (notes st))) as [[]|msg]; [right|left; eauto].
  split; [done|].
  apply (closeAndSell_file env actor mint
           (mkState _ (file st) (S (reads st)) (notes st ++ [SellSeen actor mint amt]))).
Qed.

Lemma handleSell_keeps_oneOpenPerMint env signature actor mint amt st :
  oneOpenPerMint (file st) →
  oneOpenPerMint (file (handleSell env signature actor mint amt st).2).
Proof.
  intros Hinv.
  destruct (handleSell_file env signature actor mint amt st)
    as [[_ ->]|[(msg & _ & ->)|(_ & clk & l1 & -> & [->|(s & jupSig & _ & ->)])]];
    [done|done| |].
  - by apply closeByWalletAndMint_keeps_oneOpenPerMint.
  - by apply attachTraderSell_keeps_oneOpenPerMint,
      closeByWalletAndMint_keeps_oneOpenPerMint.
Qed.

(** What both branches keep, every event keeps. *)
Lemma handleEvent_invariant (P : State → Prop) env e st :
  (∀ signature actor mint amt st,
     P st → P (handleBuy env signature actor mint amt st).2) →
  (∀ signature actor mint amt st,
     P st → P (handleSell env signature actor mint amt st).2) →
  P st → P (handleEvent env e st).2.
Proof.
  intros Hbuy Hsell Hst. unfold handleEvent.
  destruct (negb _); [done|]. destruct (firstTruthy _) as [actor|]; [|done].
  apply (andThen_invariant P); [| |done]; intros st'; apply forEach_invariant;
    intros ma st''; [apply Hbuy|apply Hsell].
Qed.

Lemma handleEvent_keeps_oneOpenPerMint env e st :
  oneOpenPerMint (file st) → oneOpenPerMint (file (handleEvent env e st).2).
Proof.
  apply (handleEvent_invariant (λ st, oneOpenPerMint (file st))).
  - intros signature actor mint amt st'. apply handleBuy_keeps_oneOpenPerMint.
  - intros signature actor mint amt st'. apply handleSell_keeps_oneOpenPerMint.
Qed.

End WebhookFacts.

Section WebhookMore.
Import Signals Index Webhook SignalsSpec WebhookSpec.

Implicit Types (env : Env) (st : State) (s x : Signal) (l : list Signal).

(** ** The buy lock *)

Lemma verdictsOn_snoc mint ns n :
  verdictsOn mint (ns ++ [n])
  = (verdictsOn mint ns + if verdictOn mint n then 1 else 0)%nat.
Proof.
  unfold verdictsOn. rewrite List.filter_app, length_app. simpl.
  by destruct (verdictOn mint n).
Qed.

Lemma firstSeen_buyLocks now key g : buyLocks (firstSeen now key g).2 = buyLocks g.
Proof. unfold firstSeen. by case_bool_decide. Qed.

(** A buy that reached the qualifier took the lock for 60 seconds from
    the reading of the clock its lock check made. *)
Lemma handleBuy_takes_lock env signature actor mint amt st :
  reachedQualifier mint st (handleBuy env signature actor mint amt st).2 →
  buyLocks (guards (handleBuy env signature actor mint amt st).2) !! mint
  = Some (clock env (S (reads st)) + BUY_LOCK_MS)
  ∧ reads (handleBuy env signature actor mint amt st).2 = S (S (reads st))
    ∨ buyLocks (guards (handleBuy env signature actor mint amt st).2) !! mint
      = Some (clock env (S (reads st)) + BUY_LOCK_MS)
      ∧ reads (handleBuy env signature actor mint amt st).2 = S (S (S (reads st))).
Proof.
  unfold handleBuy, reachedQualifier.
  destruct (String.eqb mint TraderBot.SOL_MINT); [by intros [?|?]|].
  case_bool_decide; [by intros [?|?]|].
  destruct (firstSeen _ _ (guards st)) as [[] g1]; [|by intros [?|?]].
  cbn [file reads notes guards].
  destruct (hasOpenSignalForMint mint (file st)).
  { unfold note. cbn [snd notes file]. rewrite verdictsOn_snoc. simpl.
    intros [Hv|Hv]; [lia|done]. }
  case_bool_decide.
  { unfold note. cbn [snd notes file]. rewrite verdictsOn_snoc. simpl.
    intros [Hv|Hv]; [lia|done]. }
  intros _. destruct (Qualifier.qualified _).
  - right. destruct (AUTO_TRADE env);
      [destruct (buyTokenWithSol env mint _) as [jupSig|msg]|];
      run_notes; by rewrite lookup_insert_eq.
  - left. run_notes; by rewrite lookup_insert_eq.
Qed.

Lemma cleanMapsNow_keeps_lock now mint g until :
  buyLocks g !! mint = Some until → now ≤ until →
  buyLocks (cleanMapsNow now g) !! mint = Some until.
Proof.
  intros H Hle. simpl. apply map_lookup_filter_Some. split; [done|]. simpl. lia.
Qed.

Lemma swept_keeps_lock times : ∀ st mint until,
  buyLocks (guards st) !! mint = Some until → Forall (λ t, t ≤ until) times →
  buyLocks (guards (swept times st)) !! mint = Some until.
Proof.
  unfold swept. simpl.
  induction times as [|t times IH]; intros st mint until H Hall; simpl; [done|].
  apply Forall_cons in Hall as [Ht Hall].
  apply (IH (mkState (cleanMapsNow t (guards st)) (file st) (reads st) (notes st)));
    [|done].
  by apply cleanMapsNow_keeps_lock.
Qed.

(** Under a lock that has not expired a buy of the mint reaches neither
    the qualifier nor the store. *)
Lemma handleBuy_locked env signature actor mint amt st until :
  buyLocks (guards st) !! mint = Some until → clock env (S (reads st)) < until →
  file (handleBuy env signature actor mint amt st).2 = file st
  ∧ verdictsOn mint (notes (handleBuy env signature actor mint amt st).2)
    = verdictsOn mint (notes st).
Proof.
  intros Hlock Hnow. unfold handleBuy.
  destruct (String.eqb mint TraderBot.SOL_MINT); [done|].
  case_bool_decide; [done|].
  pose proof (firstSeen_buyLocks (clock env (reads st))
                (eventKey signature actor mint "BUY" (roundedAmount env amt))
                (guards st)) as Hsame.
  destruct (firstSeen _ _ (guards st)) as [[] g1]; [|done].
  simpl in Hsame. cbn [file reads notes guards].
  destruct (hasOpenSignalForMint mint (file st)).
  { unfold note. cbn [snd notes file]. rewrite verdictsOn_snoc. simpl.
    split; [done|lia]. }
  rewrite Hsame, Hlock. simpl. rewrite bool_decide_eq_true_2 by done.
  unfold note. cbn [snd notes file]. rewrite verdictsOn_snoc. simpl. split; [done|lia].
Qed.

(** ** Redelivery *)


















(** ** The sell branch *)

Lemma closeByWalletAndMint_lookup clk w m reason l i s :
  l !! i = Some s →
  ∃ s', (closeByWalletAndMint clk w m reason l).2 !! i = Some s'
        ∧ if bool_decide (openFor w m s)
          then status s' = closed ∧ wallet s' = wallet s ∧ mint s' = mint s
          else s' = s.
Proof.
  intros Hi. unfold closeByWalletAndMint. rewrite saveIfChanged_list.
  destruct (forEachWhere_lookup (λ y, bool_decide (openFor w m y))
              (closeBody clk (default "sold_by_wallet" reason)) l 0 i s Hi)
    as (s' & Hs' & Hb).
  exists s'. split; [done|]. case_bool_decide; [|done].
  by destruct Hb as (k & _ & ->).
Qed.

Lemma attachTraderSell_position sig jupSig l i s :
  l !! i = Some s →
  ∃ s', attachTraderSell sig jupSig l !! i = Some s'
        ∧ status s' = status s ∧ wallet s' = wallet s ∧ mint s' = mint s
        ∧ (s' = s ∨ (wallet s = wallet sig ∧ mint s = mint sig)).
Proof.
  intros Hi. unfold attachTraderSell.
  destruct (list_find _ l) as [[idx x]|] eqn:Hf; [|exists s; by split_and!; [..|left]].
  apply list_find_Some in Hf as (Hidx & (_ & Hw & Hm) & _).
  destruct (decide (idx = i)) as [->|Hne].
  - rewrite Hi in Hidx. injection Hidx as <-. eexists. split.
    + apply list_lookup_insert_eq. by eapply lookup_lt_Some.
    + split_and!; [done..|by right].
  - exists s. rewrite list_lookup_insert_ne by done. split_and!; [done..|by left].
Qed.

Lemma recentClosed_pair actor mint l s :
  recentClosed actor mint l = Some s → wallet s = actor ∧ Signals.mint s = mint.
Proof.
  unfold recentClosed. destruct (list_find _ l) as [[i x]|] eqn:Hf; [|done].
  simpl. intros [= <-]. apply list_find_Some in Hf as (_ & (? & ? & _) & _). done.
Qed.

(** Position by position, what a close of the pair followed by the trail
    of the bot's sale leaves. *)
Lemma closed_pair_positions actor mint (l l' : list Signal) :
  (∃ clk l1,
     l1 = (closeByWalletAndMint clk actor mint (Some "sold_by_wallet") l).2
     ∧ (l' = l1
        ∨ ∃ s jupSig, recentClosed actor mint l1 = Some s
                      ∧ l' = attachTraderSell s jupSig l1)) →
  length l' = length l
  ∧ ∀ i s, l !! i = Some s →
      ∃ s', l' !! i = Some s'
            ∧ (if bool_decide (openFor actor mint s)
               then status s' = closed
               else status s' = status s)
            ∧ wallet s' = wallet s ∧ Signals.mint s' = Signals.mint s
            ∧ (wallet s ≠ actor ∨ Signals.mint s ≠ mint → s' = s).
Proof.
  intros (clk & l1 & -> & Hl'). split.
  { assert (length (closeByWalletAndMint clk actor mint (Some "sold_by_wallet") l).2
            = length l) as Hl1.
    { unfold closeByWalletAndMint. by rewrite saveIfChanged_list, forEachWhere_length. }
    destruct Hl' as [->|(sc & jupSig & _ & ->)]; [done|].
    unfold attachTraderSell. destruct (list_find _ _) as [[idx x]|]; [|done].
    by rewrite length_insert. }
  intros i s Hi.
  destruct (closeByWalletAndMint_lookup clk actor mint (Some "sold_by_wallet")
              l i s Hi) as (s1 & Hs1 & Hb).
  assert ((if bool_decide (openFor actor mint s)
           then status s1 = closed else status s1 = status s)
          ∧ wallet s1 = wallet s ∧ Signals.mint s1 = Signals.mint s
          ∧ (wallet s ≠ actor ∨ Signals.mint s ≠ mint → s1 = s)) as (Hst & Hw & Hm & Hoth).
  { case_bool_decide as Ho; [|by subst].
    destruct Hb as (? & ? & ?). split_and!; [done..|].
    destruct Ho as (_ & ? & ?). intros [?|?]; done. }
  destruct Hl' as [->|(sc & jupSig & Hrc & ->)]; [by exists s1|].
  apply recentClosed_pair in Hrc as [Hcw Hcm].
  destruct (attachTraderSell_position sc jupSig _ i s1 Hs1)
    as (s2 & Hs2 & Hst2 & Hw2 & Hm2 & Hsame).
  exists s2. split; [done|]. split_and!; [|congruence..|].
  - rewrite Hst2. done.
  - intros Hne. destruct Hsame as [->|[? ?]]; [by apply Hoth|].
    destruct Hne; congruence.
Qed.

End WebhookMore.

Section WebhookProperties.
Import Signals Index Webhook SignalsSpec WebhookSpec Samples MoreSamples.

(** X18. The buy branch of the webhook never rewrites a signal.  A call
    of [handleBuy], whether it returns or throws, leaves the store as it
    is or appends one signal: open, of the actor and the mint, with the
    aggregated amount, the stop-loss default of the settings and one
    occurrence; and it appends only when the mint is neither SOL nor a
    listed stablecoin, had no open signal under any wallet, and the
    qualifier qualified the buy. *)
Theorem webhook_buy_never_rewrites :
  ∀ (env : Env) (signature : option string) (actor mint : string) (amt : Qc)
    (st : State),
    file (handleBuy env signature actor mint amt st).2 = file st
    ∨ ∃ s, file (handleBuy env signature actor mint amt st).2 = file st ++ [s]
           ∧ status s = open ∧ wallet s = actor ∧ Signals.mint s = mint
           ∧ amount s = amt
           ∧ stopLossPct s = Settings.stopLossPctDefault (settings env)
           ∧ occurrences s = Some 1
           ∧ mint ≠ TraderBot.SOL_MINT ∧ (mint ∉ Qualifier.STABLECOIN_MINTS)
           ∧ hasOpenSignalForMint mint (file st) = false
           ∧ Qualifier.qualified
               (Qualifier.qualifyAndSnapshot (qualifierEnv env) actor mint amt) = true.
Proof.
  intros env signature actor mint amt st.
  destruct (handleBuy_file env signature actor mint amt st)
    as [->|(s & Hs & Ho & Hw & Hm & Ha & Hsl & Hocc & Hsol & Hnone & Hq)]; [by left|].
  right. exists s. split_and!; [done..| |done|done].
  by destruct (qualified_not_ignored _ _ _ _ Hq).
Qed.

(** X19. The webhook keeps at most one open signal per mint: when no two
    open signals of the store share a mint before a webhook body is
    handled, none do afterwards, whatever the events, the qualifier, the
    trader and Telegram answer, and whether the handler gets to the end
    of the body or throws on the way. *)
Theorem webhook_keeps_one_open_per_mint :
  ∀ (env : Env) (events : list SwapEvent) (st : State),
    oneOpenPerMint (file st) → oneOpenPerMint (file (webhook env events st)).
Proof.
  intros env events st. unfold webhook.
  apply (forEach_invariant (λ st, oneOpenPerMint (file st))).
  intros e st'. apply handleEvent_keeps_oneOpenPerMint.
Qed.

Lemma webhook_keeps_one_open_per_mint_witness :
  length (file (webhook paperTrading [buyEvent; buyEvent] startState)) = 1%nat
  ∧ oneOpenPerMint (file (webhook paperTrading [buyEvent; buyEvent] startState)).
Proof.
  split; [by_evaluation|].
  apply (webhook_keeps_one_open_per_mint paperTrading [buyEvent; buyEvent] startState).
  intros i j si sj Hi. done.
Defined.

(** X20. The buy lock holds for 60 seconds.  After a buy of a mint that
    reached the qualifier (its verdict was sent, or its signal was stored
    before a rejected message ended the handling), another buy of that
    mint, from any wallet and with any event key, whose lock check reads
    the clock less than 60 seconds after the lock check of the first,
    reaches neither the qualifier nor the store; sweeps of the guards in
    between, at times up to the expiry of the lock, do not release it. *)
Theorem buy_lock_holds :
  ∀ (env env' : Env) (signature signature' : option string)
    (actor actor' mint : string) (amt amt' : Qc) (st : State) (times : list Z),
    reachedQualifier mint st (handleBuy env signature actor mint amt st).2 →
    Forall (λ t, t ≤ clock env (S (reads st)) + BUY_LOCK_MS) times →
    clock env' (S (reads (handleBuy env signature actor mint amt st).2))
    < clock env (S (reads st)) + BUY_LOCK_MS →
    file (handleBuy env' signature' actor' mint amt'
            (swept times (handleBuy env signature actor mint amt st).2)).2
    = file (handleBuy env signature actor mint amt st).2
    ∧ verdictsOn mint
        (notes (handleBuy env' signature' actor' mint amt'
                  (swept times (handleBuy env signature actor mint amt st).2)).2)
      = verdictsOn mint (notes (handleBuy env signature actor mint amt st).2).
Proof.
  intros env env' signature signature' actor actor' mint amt amt' st times Hran Hsw Hnow.
  set (st1 := (handleBuy env signature actor mint amt st).2) in *.
  assert (buyLocks (guards st1) !! mint = Some (clock env (S (reads st)) + BUY_LOCK_MS))
    as Hlock.
  { by destruct (handleBuy_takes_lock env signature actor mint amt st Hran)
      as [[? _]|[? _]]. }
  apply (swept_keeps_lock times st1 mint _ Hlock) in Hsw.
  by apply (handleBuy_locked env' signature' actor' mint amt' (swept times st1)
              (clock env (S (reads st)) + BUY_LOCK_MS)).
Qed.

Lemma buy_lock_holds_witness :
  file (handleBuy paperTrading (Some "an0ther") "W2" "M1" (q 5 1)
          (swept [60000]
             (handleBuy paperTrading (Some "5h3sig") "W1" "M1" (q 100 1) startState).2)).2
  = file (handleBuy paperTrading (Some "5h3sig") "W1" "M1" (q 100 1) startState).2
  ∧ verdictsOn "M1"
      (notes (handleBuy paperTrading (Some "an0ther") "W2" "M1" (q 5 1)
                (swept [60000]
                   (handleBuy paperTrading (Some "5h3sig") "W1" "M1" (q 100 1)
                      startState).2)).2)
    = verdictsOn "M1"
        (notes (handleBuy paperTrading (Some "5h3sig") "W1" "M1" (q 100 1) startState).2).
Proof.
  apply (buy_lock_holds paperTrading paperTrading (Some "5h3sig") (Some "an0ther")
           "W1" "W2" "M1" (q 100 1) (q 5 1) startState [60000]).
  - left. by_evaluation.
  - by_evaluation.
  - by_evaluation.
Defined.

(** X21. A sell of a tracked wallet closes its signals of the mint and
    nothing else, once its announcement is delivered.  A call of
    [handleSell], whether it returns or throws, keeps the length of the
    store, leaves every signal of another wallet or another mint as it is,
    and reopens nothing.  When it is not skipped (the mint is not SOL, the
    amount is not zero, the event key is new) it first marks the key and
    announces the sell: if that message is delivered, no signal of the
    actor and the mint is open afterwards, whatever the sale of the bot's
    own balance and the later messages do; if that message is rejected,
    the call throws with the store as it was and the key marked. *)
Theorem wallet_sell_closes_pair :
  ∀ (env : Env) (signature : option string) (actor mint : string) (amt : Qc)
    (st : State),
    length (file (handleSell env signature actor mint amt st).2) = length (file st)
    ∧ (∀ i s, file st !! i = Some s →
         wallet s ≠ actor ∨ Signals.mint s ≠ mint →
         file (handleSell env signature actor mint amt st).2 !! i = Some s)
    ∧ (∀ i s, file st !! i = Some s → status s = closed →
         ∃ s', file (handleSell env signature actor mint amt st).2 !! i = Some s'
               ∧ status s' = closed)
    ∧ (mint ≠ TraderBot.SOL_MINT → amt ≠ 0%Qc →
       seenEventKeys (guards st)
         !! eventKey signature actor mint "SELL" (roundedAmount env amt) = None →
       (sendTelegram env (length (notes st)) = TraderBot.Ok () →
        ∀ s', s' ∈ file (handleSell env signature actor mint amt st).2 →
              ¬ openFor actor mint s')
       ∧ (∀ msg, sendTelegram env (length (notes st)) = TraderBot.Throw msg →
            handleSell env signature actor mint amt st
            = (TraderBot.Throw msg,
               mkState
                 (mkGuards
                    (<[eventKey signature actor mint "SELL" (roundedAmount env amt)
                       := clock env (reads st)]> (seenEventKeys (guards st)))
                    (buyLocks (guards st)))
                 (file st) (S (reads st)) (notes st ++ [SellSeen actor mint amt])))).
Proof.
  intros env signature actor mint amt st.
  destruct (handleSell_file env signature actor mint amt st)
    as [[Hskip ->]|[(msg & Hsend & ->)|(Hsend & Hran)]].
  { split_and!; [done|done|eauto|].
    intros Hsol Hamt Hnew. destruct Hskip as [?|[?|[T HT]]]; [done..|congruence]. }
  { split_and!; [done|done|eauto|].
    intros Hsol Hamt Hnew. split; [congruence|].
    intros msg' Hmsg'. rewrite Hsend in Hmsg'. injection Hmsg' as <-.
    unfold firstSeen. rewrite bool_decide_eq_false_2; [done|].
    rewrite Hnew. by intros [? ?]. }
  destruct (closed_pair_positions actor mint (file st) _ Hran) as [Hlen Hpos].
  split_and!; [done| | |].
  - intros i s Hi Hne. destruct (Hpos i s Hi) as (s' & Hs' & _ & _ & _ & Hsame).
    by rewrite Hs', Hsame.
  - intros i s Hi Hc. destruct (Hpos i s Hi) as (s' & Hs' & Hst & _).
    exists s'. split; [done|]. case_bool_decide; congruence.
  - intros _ _ _. split; [|congruence].
    intros _ s' Hin (Ho & Hw & Hm).
    apply list_elem_of_lookup in Hin as [i Hi'].
    assert (i < length (file st))%nat as Hlt.
    { rewrite <-Hlen. by eapply lookup_lt_Some. }
    destruct (lookup_lt_is_Some_2 _ i Hlt) as [s Hi].
    destruct (Hpos i s Hi) as (s'' & Hs'' & Hst & Hw' & Hm' & _).
    rewrite Hi' in Hs''. injection Hs'' as <-.
    case_bool_decide as Hopen; [congruence|].
    apply Hopen. split_and!; congruence.
Qed.

(** A sell whose announcement Telegram rejects: the handler throws before
    the close, the signal of the pair stays open, and the redelivered
    event is skipped as a duplicate. *)
Example rejected_announcement_leaves_signal_open :
  let st := mkState noGuards [openA] 0 [] in
  let st1 := webhook telegramOff [sellEvent] st in
  file st1 = [openA]
  ∧ notes st1 = [SellSeen "W1" "M1" (q 100 1)]
  ∧ webhook paperTrading [sellEvent] st1 = st1
  ∧ status <$> file (webhook paperTrading [sellEvent] st) = [closed].
Proof. vm_compute. by split_and!. Qed.



End WebhookProperties.

Section AggregateFacts.
Import Signals Index Webhook WebhookSpec.

Implicit Types (xs acc l : list (string * Qc)) (m k : string) (a v : Qc).

Lemma addTransfer_split actor (acc : list (string * Qc) * list (string * Qc)) t :
  addTransfer actor acc t
  = (match buyOf actor t with Some x => bump x.1 x.2 acc.1 | None => acc.1 end,
     match sellOf actor t with Some x => bump x.1 x.2 acc.2 | None => acc.2 end).
Proof.
  unfold addTransfer, buyOf, sellOf. destruct acc as [bs ss].
  destruct (t_mint t) as [mint|]; [|done]. destruct (tokenAmount t) as [amt|]; [|done].
  destruct (String.eqb mint ""); [done|].
  destruct (bool_decide (amt = 0%Qc)); [done|].
  destruct (bool_decide (toUserAccount t = Some actor)); [done|].
  by destruct (bool_decide (fromUserAccount t = Some actor)).
Qed.

Lemma aggregate_bumpAll actor txfers :
  aggregate actor txfers
  = (bumpAll (omap (buyOf actor) txfers) [], bumpAll (omap (sellOf actor) txfers) []).
Proof.
  unfold aggregate.
  assert (∀ acc : list (string * Qc) * list (string * Qc),
            foldl (addTransfer actor) acc txfers
            = (bumpAll (omap (buyOf actor) txfers) acc.1,
               bumpAll (omap (sellOf actor) txfers) acc.2)) as H; [|by rewrite H].
  induction txfers as [|t txfers IH]; intros acc; simpl; [by destruct acc|].
  rewrite IH, addTransfer_split. simpl.
  destruct (buyOf actor t), (sellOf actor t); done.
Qed.

Lemma bump_keys_in m a l : m ∈ l.*1 → (bump m a l).*1 = l.*1.
Proof.
  induction l as [|[k v] l IH]; simpl; [by intros ?%elem_of_nil|].
  destruct (String.eqb_spec k m) as [->|Hne]; [done|]. simpl.
  intros [?|?]%elem_of_cons; [congruence|]. f_equal. by apply IH.
Qed.

Lemma bump_keys_notin m a l : m ∉ l.*1 → (bump m a l).*1 = l.*1 ++ [m].
Proof.
  induction l as [|[k v] l IH]; simpl; [done|]. intros Hnin.
  destruct (String.eqb_spec k m) as [->|Hne].
  - destruct Hnin. apply list_elem_of_here.
  - simpl. f_equal. apply IH. intros ?. apply Hnin. by apply list_elem_of_further.
Qed.

Lemma bump_NoDup m a l : NoDup l.*1 → NoDup (bump m a l).*1.
Proof.
  intros H. destruct (decide (m ∈ l.*1)) as [Hin|Hnin].
  - by rewrite bump_keys_in.
  - rewrite bump_keys_notin by done.
    apply NoDup_app. split_and!; [done| |apply NoDup_singleton].
    intros x Hx ->%list_elem_of_singleton. done.
Qed.

Lemma bump_elem_of_keys m a l k : k ∈ (bump m a l).*1 ↔ k ∈ l.*1 ∨ k = m.
Proof.
  destruct (decide (m ∈ l.*1)) as [Hin|Hnin].
  - rewrite bump_keys_in by done. split; [tauto|]. intros [?| ->]; done.
  - rewrite bump_keys_notin by done.
    rewrite elem_of_app, list_elem_of_singleton. done.
Qed.

Lemma totalOf_bump k m a l :
  totalOf k (bump m a l)
  = (totalOf k l + if String.eqb m k then a else 0)%Qc.
Proof.
  induction l as [|[k' v] l IH]; simpl.
  - destruct (String.eqb m k); ring.
  - destruct (String.eqb_spec k' m) as [->|Hne]; simpl.
    + destruct (String.eqb m k); ring.
    + rewrite IH. destruct (String.eqb k' k); ring.
Qed.

Lemma bumpAll_NoDup xs : ∀ acc, NoDup acc.*1 → NoDup (bumpAll xs acc).*1.
Proof.
  unfold bumpAll. induction xs as [|x xs IH]; intros acc H; simpl; [done|].
  by apply IH, bump_NoDup.
Qed.

Lemma bumpAll_elem_of_keys xs : ∀ acc k,
  k ∈ (bumpAll xs acc).*1 ↔ k ∈ acc.*1 ∨ k ∈ xs.*1.
Proof.
  unfold bumpAll. induction xs as [|x xs IH]; intros acc k; simpl.
  - split; [tauto|]. intros [?|?%elem_of_nil]; done.
  - rewrite IH, bump_elem_of_keys, elem_of_cons. split; [|tauto].
    intros [[?| ->]|?]; tauto.
Qed.

Lemma totalOf_bumpAll k xs : ∀ acc,
  totalOf k (bumpAll xs acc) = (totalOf k acc + totalOf k xs)%Qc.
Proof.
  unfold bumpAll. induction xs as [|x xs IH]; intros acc; simpl; [ring|].
  rewrite IH, totalOf_bump. destruct (String.eqb x.1 k); ring.
Qed.

Lemma totalOf_absent k l : k ∉ l.*1 → totalOf k l = 0%Qc.
Proof.
  induction l as [|[k' v] l IH]; simpl; [done|]. intros Hnin.
  destruct (String.eqb_spec k' k) as [->|Hne].
  - destruct Hnin. apply list_elem_of_here.
  - apply IH. intros ?. apply Hnin. by apply list_elem_of_further.
Qed.

(** In totals without a repeated key an entry holds the total of its key. *)
Lemma totalOf_NoDup k v l : NoDup l.*1 → (k, v) ∈ l → totalOf k l = v.
Proof.
  induction l as [|[k' v'] l IH]; simpl; intros Hnd Hin.
  - by apply elem_of_nil in Hin.
  - apply NoDup_cons in Hnd as [Hnin Hnd].
    apply elem_of_cons in Hin as [[= <- <-]|Hin].
    + rewrite String.eqb_refl, (totalOf_absent k l Hnin). ring.
    + destruct (String.eqb_spec k' k) as [->|Hne]; [|by apply IH].
      destruct Hnin. apply list_elem_of_fmap. by exists (k, v).
Qed.

Lemma bumpAll_entries xs k v :
  (k, v) ∈ bumpAll xs [] ↔ k ∈ xs.*1 ∧ v = totalOf k xs.
Proof.
  assert (NoDup (bumpAll xs []).*1) as Hnd by (apply bumpAll_NoDup; constructor).
  assert (totalOf k (bumpAll xs []) = totalOf k xs) as Htot.
  { rewrite totalOf_bumpAll. simpl. ring. }
  split.
  - intros Hin. split.
    + assert (k ∈ (bumpAll xs []).*1) as Hk.
      { apply list_elem_of_fmap. by exists (k, v). }
      apply bumpAll_elem_of_keys in Hk as [?%elem_of_nil|?]; done.
    + by rewrite <-Htot, (totalOf_NoDup k v _ Hnd Hin).
  - intros [Hk Hv]. subst v.
    assert (k ∈ (bumpAll xs []).*1) as Hin.
    { apply bumpAll_elem_of_keys. by right. }
    apply list_elem_of_fmap in Hin as ([k' v'] & Hk' & Hin). simpl in Hk'. subst k'.
    by rewrite <-Htot, (totalOf_NoDup k v' _ Hnd Hin).
Qed.

End AggregateFacts.

Section AggregateProperties.
Import Signals Index Webhook WebhookSpec.

(** X23. One total per mint.  The aggregation of the transfers of an
    event lists every mint at most once among the buys and at most once
    among the sells; a mint is listed among the buys exactly when some
    transfer counts as a buy of the actor for it, and then with the sum of
    the amounts of those transfers; likewise for the sells. *)
Theorem aggregate_totals :
  ∀ (actor : string) (txfers : list Transfer),
    NoDup (aggregate actor txfers).1.*1
    ∧ NoDup (aggregate actor txfers).2.*1
    ∧ (∀ mint v, (mint, v) ∈ (aggregate actor txfers).1
         ↔ mint ∈ (omap (buyOf actor) txfers).*1
           ∧ v = totalOf mint (omap (buyOf actor) txfers))
    ∧ (∀ mint v, (mint, v) ∈ (aggregate actor txfers).2
         ↔ mint ∈ (omap (sellOf actor) txfers).*1
           ∧ v = totalOf mint (omap (sellOf actor) txfers)).
Proof.
  intros actor txfers. rewrite aggregate_bumpAll. simpl.
  split_and!; [apply bumpAll_NoDup; constructor..| |];
    intros mint v; apply bumpAll_entries.
Qed.

End AggregateProperties.

(** * Properties of the subscription job *)
(** Each message of the job is delivered or rejected. *)
Ltac job_notes :=
  unfold Jobs.say, Jobs.ret;
  repeat (cbn [fst snd Jobs.sent Jobs.notes length app];
          match goal with
          | |- context [Jobs.sendTelegram ?env ?k] =>
              destruct (Jobs.sendTelegram env k) as [[]|?]
          end);
  cbn [fst snd Jobs.sent Jobs.notes length app].

Section JobsFacts.
Import Jobs JobsSpec.

Implicit Types (t : Trader) (ts unique : list Trader) (seen : gset string).

Lemma dedupe_firsts ts : ∀ seen unique,
  (foldl dedupeStep (seen, unique) ts).2 = unique ++ firsts seen ts.
Proof.
  induction ts as [|t ts IH]; intros seen unique; simpl; [by rewrite app_nil_r|].
  unfold dedupeStep at 2. simpl. case_bool_decide; [apply IH|].
  by rewrite IH, <-app_assoc.
Qed.

Lemma firsts_wallets seen ts w :
  w ∈ wallet <$> firsts seen ts ↔ w ∈ wallet <$> ts ∧ w ∉ seen.
Proof.
  revert seen. induction ts as [|t ts IH]; intros seen; simpl.
  - rewrite elem_of_nil. tauto.
  - case_bool_decide as Hin.
    + rewrite IH, elem_of_cons. split; [tauto|]. intros [[->|?] ?]; tauto.
    + rewrite fmap_cons, !elem_of_cons, IH, elem_of_union, elem_of_singleton. split.
      * intros [->|[? ?]]; tauto.
      * intros [[->|?] ?]; [tauto|].
        destruct (decide (w = wallet t)); tauto.
Qed.

Lemma firsts_NoDup seen ts : NoDup (wallet <$> firsts seen ts).
Proof.
  revert seen. induction ts as [|t ts IH]; intros seen; simpl; [constructor|].
  case_bool_decide; [apply IH|]. rewrite fmap_cons. constructor; [|apply IH].
  rewrite firsts_wallets, elem_of_union, elem_of_singleton. tauto.
Qed.

Lemma firsts_sublist seen ts : firsts seen ts `sublist_of` ts.
Proof.
  revert seen. induction ts as [|t ts IH]; intros seen; simpl; [done|].
  case_bool_decide; [apply sublist_cons, IH|apply sublist_skip, IH].
Qed.

Lemma firsts_all seen ts :
  NoDup (wallet <$> ts) → (∀ t, t ∈ ts → wallet t ∉ seen) → firsts seen ts = ts.
Proof.
  revert seen. induction ts as [|t ts IH]; intros seen Hnd Hfresh; simpl; [done|].
  rewrite fmap_cons in Hnd. apply NoDup_cons in Hnd as [Hnin Hnd].
  rewrite bool_decide_eq_false_2 by apply Hfresh, list_elem_of_here.
  f_equal. apply IH; [done|]. intros u Hu.
  rewrite elem_of_union, elem_of_singleton. intros [Heq|Hs].
  - apply Hnin. rewrite <-Heq. apply list_elem_of_fmap. by exists u.
  - by apply (Hfresh u); [apply list_elem_of_further|].
Qed.

(** The trader kept for a wallet is the first trader of that wallet. *)
Lemma firsts_first seen ts t :
  t ∈ firsts seen ts →
  ∃ i, list_find (λ x, wallet x = wallet t) ts = Some (i, t).
Proof.
  revert seen. induction ts as [|u ts IH]; intros seen; simpl;
    [by intros ?%elem_of_nil|].
  case_bool_decide as Hin.
  - intros Ht. destruct (IH seen Ht) as [i Hi].
    assert (wallet t ∉ seen) as Hfresh.
    { assert (wallet t ∈ wallet <$> firsts seen ts) as Hw.
      { apply list_elem_of_fmap. by exists t. }
      by apply firsts_wallets in Hw as [_ ?]. }
    rewrite decide_False by (intros Heq; congruence).
    rewrite Hi. simpl. eauto.
  - intros [->|Ht]%elem_of_cons.
    + rewrite decide_True by done. eauto.
    + destruct (IH _ Ht) as [i Hi].
      assert (wallet t ≠ wallet u) as Hne.
      { assert (wallet t ∈ wallet <$> firsts ({[wallet u]} ∪ seen) ts) as Hw.
        { apply list_elem_of_fmap. by exists t. }
        apply firsts_wallets in Hw as [_ Hw]. intros Heq. apply Hw.
        rewrite Heq. apply elem_of_union_l, elem_of_singleton. done. }
      rewrite decide_False by (intros Heq; congruence).
      rewrite Hi. simpl. eauto.
Qed.

Lemma dedupeTraders_unique ts : (dedupeTraders ts).1 = firsts ∅ ts.
Proof. unfold dedupeTraders. simpl. by rewrite dedupe_firsts. Qed.

Lemma dedupeTraders_length ts : (length (dedupeTraders ts).1 ≤ length ts)%nat.
Proof. rewrite dedupeTraders_unique. apply sublist_length, firsts_sublist. Qed.

End JobsFacts.

Section JobsProperties.
Import Jobs JobsSpec.

(** X24. [dedupeTraders] keeps the first trader of every wallet.  The
    unique list has no repeated wallet, is a sub-list of the input in the
    input's order, holds every wallet of the input, and holds for each
    wallet the first trader of the input with that wallet; the number
    dropped is the difference of the lengths; and an input without repeated
    wallets comes back as it is, with nothing dropped. *)
Theorem dedupeTraders_keeps_first :
  ∀ (traders : list Trader),
    NoDup (wallet <$> (dedupeTraders traders).1)
    ∧ (dedupeTraders traders).1 `sublist_of` traders
    ∧ (∀ t, t ∈ traders → wallet t ∈ wallet <$> (dedupeTraders traders).1)
    ∧ (∀ t, t ∈ (dedupeTraders traders).1 →
         ∃ i, list_find (λ x, wallet x = wallet t) traders = Some (i, t))
    ∧ ((dedupeTraders traders).2 + length (dedupeTraders traders).1
       = length traders)%nat
    ∧ (NoDup (wallet <$> traders) → dedupeTraders traders = (traders, 0%nat)).
Proof.
  intros traders. pose proof (dedupeTraders_length traders) as Hlen.
  rewrite dedupeTraders_unique in *. split_and!.
  - apply firsts_NoDup.
  - apply firsts_sublist.
  - intros t Ht. apply firsts_wallets. split; [|set_solver].
    apply list_elem_of_fmap. by exists t.
  - intros t. apply firsts_first.
  - unfold dedupeTraders. simpl. rewrite dedupe_firsts. simpl. lia.
  - intros Hnd. unfold dedupeTraders. simpl. rewrite dedupe_firsts. simpl.
    rewrite firsts_all; [|done|set_solver]. f_equal. lia.
Qed.

(** No message of a list reports a cut. *)
Ltac no_cut :=
  cbn [Jobs.notes];
  repeat match goal with
         | |- Forall _ [] => apply Forall_nil
         | |- Forall _ (_ :: _) => apply List.Forall_cons
         end;
  first [ done
        | by intros []
        | by (match goal with ids : list string |- _ => destruct ids end; intros []) ].

(** X25. The subscription is what the job reports.  The traders
    [updateTopWallets] returns have distinct wallets, are at most ten and
    come from the first ten of SolanaTracker's list in its order.  When the
    list returned is not empty the job did not throw and sent Helius two
    requests: the listing of the webhooks, and then exactly one request
    that updates or creates the webhook, which carries the wallets of the
    returned traders, in order.  Every run sends Helius nothing, the
    listing alone, or the listing and one such request.  And neither cap
    of 20 addresses ever cuts the list: no message of the job reports a
    truncation or a wallet dropped by the cap. *)
Theorem subscription_is_what_is_reported :
  ∀ (env : Env),
    NoDup (wallet <$> returned (updateTopWallets env))
    ∧ (length (returned (updateTopWallets env)) ≤ 10)%nat
    ∧ (∀ all, tracker env = TrackerWallets all →
         returned (updateTopWallets env) `sublist_of` take 10 all)
    ∧ (returned (updateTopWallets env) ≠ [] →
       (updateTopWallets env).1 = TraderBot.Ok (returned (updateTopWallets env))
       ∧ ∃ req, sent (updateTopWallets env).2 = [ListHooks; req]
                ∧ subscribes req
                ∧ addressesOf req = wallet <$> returned (updateTopWallets env))
    ∧ (sent (updateTopWallets env).2 = []
       ∨ sent (updateTopWallets env).2 = [ListHooks]
       ∨ ∃ req, sent (updateTopWallets env).2 = [ListHooks; req] ∧ subscribes req)
    ∧ Forall (λ n, ¬ reportsCut n) (notes (updateTopWallets env).2).
Proof.
  intros env.
  set (fine := λ out : TraderBot.Result (list Trader) * Run,
         NoDup (wallet <$> returned out)
         ∧ (length (returned out) ≤ 10)%nat
         ∧ (∀ all, tracker env = TrackerWallets all →
              returned out `sublist_of` take 10 all)
         ∧ (returned out ≠ [] →
            out.1 = TraderBot.Ok (returned out)
            ∧ ∃ req, sent out.2 = [ListHooks; req] ∧ subscribes req
                     ∧ addressesOf req = wallet <$> returned out)
         ∧ (sent out.2 = [] ∨ sent out.2 = [ListHooks]
            ∨ ∃ req, sent out.2 = [ListHooks; req] ∧ subscribes req)
         ∧ Forall (λ n, ¬ reportsCut n) (notes out.2)).
  change (fine (updateTopWallets env)).
  assert (∀ res r,
            returned (res, r) = [] →
            (sent r = [] ∨ sent r = [ListHooks]
             ∨ ∃ req, sent r = [ListHooks; req] ∧ subscribes req) →
            Forall (λ n, ¬ reportsCut n) (notes r) →
            fine (res, r)) as Hnone.
  { intros res r Hres Hsent Hnotes. unfold fine. rewrite Hres.
    split_and!; [constructor|simpl; lia| |done|done|done].
    intros all _. apply sublist_nil_l. }
  assert (∀ a b c, ¬ reportsCut (Updating a b 0 c)) as Hn0.
  { intros a b c. simpl. lia. }
  unfold updateTopWallets, attempt.
  destruct (tracker env) as [msg|status text|all] eqn:Htr.
  1,2: job_notes; (apply Hnone; [done|by left|no_cut]).
  case_bool_decide as Hall.
  { job_notes; (apply Hnone; [done|by left|no_cut]). }
  cbv zeta.
  pose proof (dedupeTraders_length (take 10 all)) as Hlen.
  assert (length (take 10 all) ≤ 10)%nat as H10 by (rewrite length_take; lia).
  assert (take MAX_ADDRESSES_PER_WEBHOOK (dedupeTraders (take 10 all)).1
          = (dedupeTraders (take 10 all)).1) as Hkept.
  { apply take_ge. unfold MAX_ADDRESSES_PER_WEBHOOK. lia. }
  rewrite Hkept. rewrite Nat.sub_diag.
  set (kept := (dedupeTraders (take 10 all)).1) in *.
  assert (NoDup (wallet <$> kept)) as Hnd.
  { subst kept. rewrite dedupeTraders_unique. apply firsts_NoDup. }
  assert (kept `sublist_of` take 10 all) as Hsub.
  { subst kept. rewrite dedupeTraders_unique. apply firsts_sublist. }
  assert (∀ mk, sendWallets env mk (wallet <$> kept)
                = (mk (wallet <$> kept), send env (mk (wallet <$> kept)), 0%nat))
    as Hsend.
  { intros mk. unfold sendWallets.
    rewrite take_ge by (rewrite length_fmap; unfold MAX_ADDRESSES_PER_WEBHOOK; lia).
    by rewrite Nat.sub_diag. }
  case_bool_decide as Hempty.
  { job_notes; (apply Hnone; [done|by left|no_cut]). }
  generalize (Updating (length (take 10 all)) (dedupeTraders (take 10 all)).2 0
                (length (wallet <$> kept))) (Hn0 (length (take 10 all))
                (dedupeTraders (take 10 all)).2 (length (wallet <$> kept))).
  intros n0 Hn.
  assert (∀ ids, subscribes (match ids with
                             | target :: _ => Put target
                             | [] => Post
                             end (wallet <$> kept))) as Hsubs.
  { by intros []. }
  assert (∀ ids, addressesOf (match ids with
                              | target :: _ => Put target
                              | [] => Post
                              end (wallet <$> kept)) = wallet <$> kept) as Haddr.
  { by intros []. }
  unfold say at 1. cbn [notes sent length app].
  destruct (sendTelegram env 0) as [[]|msg0].
  2: { job_notes; (apply Hnone; [done|by left|no_cut]). }
  destruct (hooks env) as [msg|ids].
  { job_notes; (apply Hnone; [done|right; by left|no_cut]). }
  rewrite Hsend. cbn [fst snd]. rewrite bool_decide_eq_false_2 by lia.
  specialize (Hsubs ids). specialize (Haddr ids).
  set (req := match ids with target :: _ => Put target | [] => Post end
                (wallet <$> kept)) in *.
  destruct (send env req) as [msg|[]].
  - job_notes;
      (apply Hnone; [done|right; right; by exists req|no_cut]).
  - job_notes.
    2,3: apply Hnone; [done|right; right; by exists req|no_cut].
    unfold fine, returned. cbn [fst snd sent notes app].
    split_and!; [done|apply sublist_length in Hsub; lia| | | |].
    + by intros all' [= <-].
    + intros _. split; [done|]. by exists req.
    + right; right. by exists req.
    + no_cut.
  - job_notes;
      (apply Hnone; [done|right; right; by exists req|no_cut]).
Qed.

(** The webhook is updated and Telegram rejects the confirmation: the job
    reports the error and returns the empty list. *)
Example rejected_confirmation_returns_nothing :
  updateTopWallets
    (mkEnv (TrackerWallets [mkTrader "W1" 0 0 0]) (Hooks ["hook"])
       (λ _, HookReplied true)
       (λ n, if bool_decide (n = 1%nat) then TraderBot.Throw "fetch failed"
             else TraderBot.Ok ()))
  = (TraderBot.Ok [],
     mkRun [ListHooks; Put "hook" ["W1"]]
       [Updating 1 0 0 1; Updated "hook"; ErrorNote "fetch failed"]).
Proof. reflexivity. Qed.

End JobsProperties.

(** * The stop-loss of the open signals *)
Section StopLossFacts.
Import Signals Settings SignalsSpec StoreSpec.

Implicit Types (s x : Signal) (l file : list Signal).

(** Open signals of [l'] that were open in [l] with the same stop-loss. *)
Lemma uniformStops_refine pct l l' :
  (∀ s', s' ∈ l' → status s' = open →
     ∃ s, s ∈ l ∧ status s = open ∧ stopLossPct s = stopLossPct s') →
  uniformStops pct l → uniformStops pct l'.
Proof.
  intros Href Hl s' Hs' Ho. destruct (Href s' Hs' Ho) as (s & Hs & Hos & <-).
  by apply Hl.
Qed.

Lemma uniformStops_snoc pct l x :
  stopLossPct x = pct → uniformStops pct l → uniformStops pct (l ++ [x]).
Proof.
  intros Hx Hl s [Hs|Hs%list_elem_of_singleton]%elem_of_app Ho; [by apply Hl|].
  by subst.
Qed.

Lemma closeByWalletAndMint_keeps_stops clk w m reason pct l :
  uniformStops pct l → uniformStops pct (closeByWalletAndMint clk w m reason l).2.
Proof.
  apply uniformStops_refine. intros s' Hs' Ho.
  unfold closeByWalletAndMint in Hs'. rewrite saveIfChanged_list in Hs'.
  apply list_elem_of_lookup in Hs' as [i Hi].
  apply forEachWhere_lookup_inv in Hi as (s & Hs & Hb).
  exists s. split; [apply list_elem_of_lookup; eauto|].
  case_bool_decide; [|by subst]. destruct Hb as (k & _ & ->). done.
Qed.

Lemma attachTraderSell_keeps_stops sig jupSig pct l :
  uniformStops pct l → uniformStops pct (attachTraderSell sig jupSig l).
Proof.
  unfold attachTraderSell.
  destruct (list_find _ l) as [[idx x]|] eqn:Hf; [|done].
  apply list_find_Some in Hf as (Hidx & _ & _).
  apply uniformStops_refine. intros s' Hs' Ho.
  apply list_elem_of_lookup in Hs' as [i Hi].
  apply list_lookup_insert_Some in Hi as [(-> & <- & _)|(Hne & Hi)].
  - exists x. split; [apply list_elem_of_lookup; eauto|done].
  - exists s'. split; [apply list_elem_of_lookup; eauto|done].
Qed.

Lemma updateOpenSignalsStopLoss_uniform newPct file :
  uniformStops newPct (updateOpenSignalsStopLoss newPct file).2.
Proof.
  intros s' Hs' Ho. apply list_elem_of_lookup in Hs' as [i Hi].
  unfold updateOpenSignalsStopLoss in Hi. rewrite saveIfChanged_list in Hi.
  apply forEachWhere_lookup_inv in Hi as (s & Hs & Hb).
  destruct (bool_decide (status s = open)) eqn:Hso; simpl in Hb.
  - case_bool_decide as Hpct; simpl in Hb; [by subst|].
    by destruct Hb as (k & _ & ->).
  - subst s'. apply bool_decide_eq_false in Hso. done.
Qed.

End StopLossFacts.

Section StopLossWebhook.
Import Signals Settings SignalsSpec StoreSpec.

Lemma handleBuy_keeps_stops env signature actor mint amt st :
  uniformStops (stopLossPctDefault (Webhook.settings env)) (Webhook.file st) →
  uniformStops (stopLossPctDefault (Webhook.settings env))
    (Webhook.file (Webhook.handleBuy env signature actor mint amt st).2).
Proof.
  intros Hinv.
  destruct (handleBuy_file env signature actor mint amt st)
    as [->|(s & -> & _ & _ & _ & _ & Hsl & _)]; [done|].
  by apply uniformStops_snoc.
Qed.

Lemma handleSell_keeps_stops env signature actor mint amt pct st :
  uniformStops pct (Webhook.file st) →
  uniformStops pct (Webhook.file (Webhook.handleSell env signature actor mint amt st).2).
Proof.
  intros Hinv.
  destruct (handleSell_file env signature actor mint amt st)
    as [[_ ->]|[(msg & _ & ->)|(_ & clk & l1 & -> & [->|(s & jupSig & _ & ->)])]];
    [done|done| |].
  - by apply closeByWalletAndMint_keeps_stops.
  - by apply attachTraderSell_keeps_stops, closeByWalletAndMint_keeps_stops.
Qed.

Lemma webhook_keeps_stops env events st :
  uniformStops (stopLossPctDefault (Webhook.settings env)) (Webhook.file st) →
  uniformStops (stopLossPctDefault (Webhook.settings env))
    (Webhook.file (Webhook.webhook env events st)).
Proof.
  unfold Webhook.webhook.
  apply (forEach_invariant
           (λ st, uniformStops (stopLossPctDefault (Webhook.settings env))
                    (Webhook.file st))).
  intros e st'.
  apply (handleEvent_invariant
           (λ st, uniformStops (stopLossPctDefault (Webhook.settings env))
                    (Webhook.file st))).
  - intros signature actor mint amt st''. apply handleBuy_keeps_stops.
  - intros signature actor mint amt st''. apply handleSell_keeps_stops.
Qed.

Lemma tick_keeps_stops env settings pct (w : PriceCheck.World) :
  uniformStops pct (PriceCheck.file w) →
  uniformStops pct (PriceCheck.file (PriceCheck.tick env settings w)).
Proof.
  apply uniformStops_refine. intros s' Hs' Ho.
  apply list_elem_of_lookup in Hs' as [i Hi].
  assert (i < length (PriceCheck.file w))%nat as Hlt.
  { unfold PriceCheck.tick in Hi. apply lookup_lt_Some in Hi.
    by rewrite evaluate_all_length in Hi. }
  destruct (lookup_lt_is_Some_2 _ i Hlt) as [s Hs].
  destruct (evaluate_all_only_closes env settings
              (List.filter PriceCheck.watched (PriceCheck.file w)) w i s)
    as (s'' & Hs'' & Hrel); [exists s; eauto|].
  unfold PriceCheck.tick in Hi. rewrite Hi in Hs''. injection Hs'' as <-.
  destruct Hrel as [->|(_ & cur & reason & k & _ & _ & _ & ->)].
  - exists s. split; [apply list_elem_of_lookup; eauto|done].
  - by rewrite exitBody_status in Ho.
Qed.

End StopLossWebhook.

Section StopLossProperties.
Import Signals Settings SignalsSpec StoreSpec Commands.

(** X26. One stop-loss for all open signals.  [/set stoploss] is rejected
    exactly for a text that is not a number, for [+Infinity] and for a
    number that is zero or more, and a rejected command changes neither
    the settings nor the store.  For a finite negative number it makes the
    number the default of the settings, leaves take-profit and interval
    alone, and reports the number of signals rewritten; from then on every
    open signal carries the default as its stop-loss, and the webhook
    handler (whose new signals take the default) and the monitor keep it
    that way, whether they get to their end or throw on the way.
    [-Infinity] passes the check too and reaches every open signal; the
    value it leaves is not a number. *)
Theorem stop_loss_is_uniform :
  ∀ (n : JsNumber) (settings : Settings) (file : list Signal),
    ((∀ x, n = Finite x → (x < 0)%Qc →
        setStopLoss n settings file
        = Stored (mkSettings x (takeProfitPct settings) (pricecheckIntervalMs settings))
            (updateOpenSignalsStopLoss x file).2
            (StopLossUpdated x
               (length (filter (λ s, status s = open ∧ stopLossPct s ≠ x) file)))
        ∧ uniformStops x (updateOpenSignalsStopLoss x file).2)
     ∧ (setStopLoss n settings file = Stored settings file StopLossRejected
        ↔ n = NaN ∨ n = PlusInfinity ∨ ∃ x, n = Finite x ∧ (0 ≤ x)%Qc)
     ∧ (n = MinusInfinity →
        setStopLoss n settings file
        = StoredMinusInfinity (length (filter (λ s, status s = open) file))))
    ∧ (∀ env events st,
         uniformStops (stopLossPctDefault (Webhook.settings env)) (Webhook.file st) →
         uniformStops (stopLossPctDefault (Webhook.settings env))
           (Webhook.file (Webhook.webhook env events st)))
    ∧ (∀ env settings' pct (w : PriceCheck.World),
         uniformStops pct (PriceCheck.file w) →
         uniformStops pct (PriceCheck.file (PriceCheck.tick env settings' w))).
Proof.
  intros n settings file. split_and!.
  - intros x -> Hneg. unfold setStopLoss.
    rewrite bool_decide_eq_false_2 by by apply Qclt_not_le.
    split; [|apply updateOpenSignalsStopLoss_uniform].
    unfold updateSettings. simpl. f_equal. f_equal.
    unfold updateOpenSignalsStopLoss, saveIfChanged. simpl.
    by rewrite stopLoss_loop_count.
  - split.
    + destruct n as [| | |x]; simpl; [eauto|eauto|done|].
      case_bool_decide; [eauto|done].
    + intros [->|[->|(x & -> & Hx)]]; [done|done|]. unfold setStopLoss.
      by rewrite bool_decide_eq_true_2.
  - by intros ->.
  - apply webhook_keeps_stops.
  - apply tick_keeps_stops.
Qed.

End StopLossProperties.

(** * The log of a cycle, the keys of an event, the book-keeping fields *)
Section BlocksFacts.
Import Signals Settings PriceCheck SignalsSpec PriceCheckSpec MonitorSpec.

Lemma ExitBlocks_app env (a b : list Effect) :
  ExitBlocks env a → ExitBlocks env b → ExitBlocks env (a ++ b).
Proof.
  induction 1 as [|w m cur reason rest Hp Hpos Hr _ IH
                  |w m cur reason n traded rest Hp Hpos Hr Hn Htr _ IH];
    intros Hb; simpl; [done| |].
  - apply blocks_nothing_closed; auto.
  - apply blocks_closed; auto.
Qed.

Lemma closedTotal_app (a b : list Effect) :
  closedTotal (a ++ b) = (closedTotal a + closedTotal b)%nat.
Proof.
  induction a as [|e a IH]; simpl; [done|]. rewrite IH. destruct e; lia.
Qed.

(** One exit adds one block and reads the clock once per signal closed. *)
Lemma closeAndReport_block env x cur reason (w : World) :
  getPrice env (mint x) = Some cur → (0 < cur)%Qc →
  reason = "stop_loss" ∨ reason = "take_profit" →
  ∃ news, log (closeAndReport env x cur reason w).1 = log w ++ news
          ∧ ExitBlocks env news
          ∧ reads (closeAndReport env x cur reason w).1 = (reads w + closedTotal news)%nat.
Proof.
  intros Hp Hpos Hr. unfold closeAndReport. cbn [fst log reads].
  set (n := (closeByWalletMintWithExit _ (wallet x) (mint x) cur reason (file w)).1).
  eexists. split; [reflexivity|]. case_bool_decide as Hn; simpl.
  - split; [|lia]. apply blocks_closed; [done..| |constructor].
    unfold tryAutoSell. by destruct (AUTO_TRADE env).
  - assert (n = 0%nat) as -> by lia. split; [|lia].
    apply blocks_nothing_closed; [done..|constructor].
Qed.

Lemma evaluate_block env settings x (w : World) :
  ∃ news, log (evaluate env settings x w).1 = log w ++ news
          ∧ ExitBlocks env news
          ∧ reads (evaluate env settings x w).1 = (reads w + closedTotal news)%nat.
Proof.
  destruct (evaluate_cases_priced env settings x w)
    as [->|(cur & reason & Hp & Hpos & Hr & ->)].
  - exists []. rewrite app_nil_r. split_and!; [done|constructor|simpl; lia].
  - by apply closeAndReport_block.
Qed.

End BlocksFacts.

Section KeyFacts.
Import Index WebhookSpec.

Lemma lastChar_app (a b : string) :
  b ≠ "" → lastChar (a +:+ b) = lastChar b.
Proof.
  intros Hb. induction a as [|c a IH]; simpl; [done|]. rewrite IH.
  destruct b as [|d b]; [done|]. simpl. by destruct (lastChar b).
Qed.

Lemma eventKey_signed sig actor mint side amt :
  sig ≠ "" → eventKey (Some sig) actor mint side amt = sig +:+ ":" +:+ mint +:+ ":" +:+ side.
Proof.
  intros Hsig. unfold eventKey. by rewrite (proj2 (String.eqb_neq sig "") Hsig).
Qed.

Lemma eventKey_lastChar sig actor mint side amt :
  sig ≠ "" → side ≠ "" →
  lastChar (eventKey (Some sig) actor mint side amt) = lastChar side.
Proof.
  intros Hsig Hside. rewrite eventKey_signed by done.
  rewrite lastChar_app; [|by destruct mint].
  rewrite lastChar_app; [|by destruct mint].
  rewrite lastChar_app; [|done]. by apply (lastChar_app ":").
Qed.

End KeyFacts.

Section StampFacts.
Import Signals SignalsSpec StoreSpec.

Implicit Types (s x : Signal) (l file : list Signal).

Lemma stamped_forEachWhere cond body l n :
  (∀ k s, stamped s → stamped (body k s)) →
  Forall stamped l → Forall stamped (forEachWhere cond body l n).1.
Proof.
  intros Hbody Hl. apply Forall_lookup. intros i s' Hi.
  apply forEachWhere_lookup_inv in Hi as (s & Hs & Hb).
  pose proof (proj1 (Forall_lookup _ _) Hl i s Hs) as Hst.
  destruct (cond s); [|by subst]. destruct Hb as (k & _ & ->). by apply Hbody.
Qed.

Lemma stamped_insert (f : Signal → Signal) l i x :
  l !! i = Some x → (stamped x → stamped (f x)) →
  Forall stamped l → Forall stamped (<[i := f x]> l).
Proof.
  intros Hi Hf Hl. apply Forall_insert; [done|].
  apply Hf. by apply (proj1 (Forall_lookup _ _) Hl i).
Qed.

Lemma mergeInto_stamped now p s : stamped s → stamped (mergeInto now p s).
Proof.
  intros (Hc & _ & c & Hocc & Hge). unfold mergeInto, stamped.
  destruct (nonEmpty (p_symbol p) && negb (nonEmpty _));
    destruct (bool_decide (is_Some (p_source p)) && negb (bool_decide _)); simpl;
    (split; [done|]; split; [eauto|]; rewrite Hocc; simpl; eexists; split; [done|lia]).
Qed.

Lemma closeBody_stamped clock reason k s : stamped s → stamped (closeBody clock reason k s).
Proof. intros (_ & Hu & Ho). split; [eauto|]. done. Qed.

Lemma exitBody_stamped clock px reason k s :
  stamped s → stamped (exitBody clock px reason k s).
Proof.
  intros (_ & Hu & Ho). unfold exitBody. simpl.
  destruct (entryPriceUsd s); [case_bool_decide|]; (split; [eauto|]; done).
Qed.

End StampFacts.

Section MoreProperties.
Import Signals Settings SignalsSpec StoreSpec.

(** X27. The effects of a cycle come in blocks.  What a cycle of the
    monitor adds to the log is a sequence of blocks, one per exit: the
    auto-sell attempt, the close request at the positive price the mint
    resolved to, for stop-loss or take-profit, and, exactly when the close
    closed something, the notification, which reports a trade only when
    auto-trading is on.  So no notification is sent without a close, and
    the clock is read once per signal closed. *)
Theorem tick_reports_in_blocks :
  ∀ (env : PriceCheck.Env) (settings : Settings) (w : PriceCheck.World),
    ∃ news,
      PriceCheck.log (PriceCheck.tick env settings w) = PriceCheck.log w ++ news
      ∧ MonitorSpec.ExitBlocks env news
      ∧ PriceCheck.reads (PriceCheck.tick env settings w)
        = (PriceCheck.reads w + MonitorSpec.closedTotal news)%nat.
Proof.
  intros env settings w. unfold PriceCheck.tick.
  apply (evaluateAll_invariant env settings
           (λ w', ∃ news,
              PriceCheck.log w' = PriceCheck.log w ++ news
              ∧ MonitorSpec.ExitBlocks env news
              ∧ PriceCheck.reads w'
                = (PriceCheck.reads w + MonitorSpec.closedTotal news)%nat)).
  - intros x w1 (n1 & Hl1 & Hb1 & Hr1).
    destruct (evaluate_block env settings x w1) as (n2 & Hl2 & Hb2 & Hr2).
    exists (n1 ++ n2). split_and!.
    + by rewrite Hl2, Hl1, app_assoc.
    + by apply ExitBlocks_app.
    + rewrite Hr2, Hr1, closedTotal_app. lia.
  - exists []. rewrite app_nil_r. split_and!; [done|constructor|simpl; lia].
Qed.

(** X28. The buy and the sell of one transaction never share an event key.
    With a signature, the key of a BUY and the key of a SELL differ
    whatever the signatures and the mints: handling the buys of an event
    never makes the handler skip its sells as already seen. *)
Theorem buy_and_sell_keys_differ :
  ∀ (sig sig' actor actor' mint mint' amt amt' : string),
    sig ≠ "" → sig' ≠ "" →
    Index.eventKey (Some sig) actor mint "BUY" amt
    ≠ Index.eventKey (Some sig') actor' mint' "SELL" amt'.
Proof.
  intros sig sig' actor actor' mint mint' amt amt' Hsig Hsig' Heq.
  apply (f_equal WebhookSpec.lastChar) in Heq.
  rewrite !eventKey_lastChar in Heq by done. done.
Qed.

Lemma buy_and_sell_keys_differ_witness :
  "5h3sig" ≠ ""
  ∧ Index.eventKey (Some "5h3sig") "W1" "M1" "BUY" "100000000"
    ≠ Index.eventKey (Some "5h3sig") "W1" "M1" "SELL" "100000000".
Proof.
  assert ("5h3sig" ≠ "") as Hsig by done.
  split; [exact Hsig|].
  exact (buy_and_sell_keys_differ "5h3sig" "5h3sig" "W1" "W1" "M1" "M1"
           "100000000" "100000000" Hsig Hsig).
Defined.

(** X29. The book-keeping fields of signals.json are always in place.  In
    every store the operations of signals.ts build from the empty file,
    each closed signal carries the time and the reason of its close, and
    each signal carries the time of its last update and a count of at
    least one occurrence. *)
Theorem stored_signals_are_stamped :
  ∀ (file : list Signal), Built file → Forall stamped file.
Proof.
  induction 1 as [|now p file _ IH|sig jupSig spent file _ IH|sig jupSig file _ IH
                  |clock w m reason file _ IH|clock w m px reason file _ IH
                  |newPct file _ IH].
  - constructor.
  - unfold upsertBuy.
    assert (Forall stamped (file ++ [newSig now p])) as Hpush.
    { apply Forall_app. split; [done|]. constructor; [|constructor].
      split; [done|]. split; [eauto|]. exists 1. by split. }
    destruct (list_find _ file) as [[idx s]|] eqn:Hf; [|done].
    case_bool_decide; [|done]. simpl.
    apply list_find_Some in Hf as (Hidx & _ & _).
    apply (stamped_insert (mergeInto now p)); [done|apply mergeInto_stamped|done].
  - unfold attachTraderBuy.
    destruct (list_find _ file) as [[idx x]|] eqn:Hf; [|done].
    apply list_find_Some in Hf as (Hidx & _ & _).
    by apply (stamped_insert (set_trader _)).
  - unfold attachTraderSell.
    destruct (list_find _ file) as [[idx x]|] eqn:Hf; [|done].
    apply list_find_Some in Hf as (Hidx & _ & _).
    by apply (stamped_insert (set_trader _)).
  - unfold closeByWalletAndMint. rewrite saveIfChanged_list.
    apply stamped_forEachWhere; [|done]. intros k s. apply closeBody_stamped.
  - unfold closeByWalletMintWithExit. rewrite saveIfChanged_list.
    apply stamped_forEachWhere; [|done]. intros k s. apply exitBody_stamped.
  - unfold updateOpenSignalsStopLoss. rewrite saveIfChanged_list.
    apply stamped_forEachWhere; [|done]. by intros k s.
Qed.

Lemma stored_signals_are_stamped_witness :
  Forall stamped
    (closeByWalletAndMint (λ _, 5000) "W1" "M1" None (upsertBuy 0 Samples.buyA []).2).2.
Proof.
  apply (stored_signals_are_stamped
           (closeByWalletAndMint (λ _, 5000) "W1" "M1" None
              (upsertBuy 0 Samples.buyA []).2).2).
  apply built_closeByWalletAndMint, built_upsertBuy, built_empty.
Defined.

End MoreProperties.
